(** * A shallow embedding of [queue.c]

    The queue of [queue.c] is a circular doubly-linked intrusive list anchored
    at a sentinel [struct list_head].  The functions are embedded in a small
    state-and-error monad over an explicit store; every loop of the source is
    a [Fixpoint] on a fuel argument that bounds the number of iterations. *)

From Stdlib Require Import ZArith NArith Ascii String Sorted Permutation.
From stdpp Require Import gmap list.

Local Open Scope N_scope.
Set Warnings "-clear-no-such-hyp".

(** ** The store *)

(** A pointer is a [uintptr_t], an [N]; [NULL] is [0]. *)
Definition NULL : N := 0.

(** [size_t] is 64 bits wide. *)
Definition SIZE_MOD : N := 2 ^ 64.

(** The store is split by field.  [h_next] and [h_prev] hold the two fields of
    every allocated [struct list_head], keyed by the address of that
    [list_head].  An [element_t] is identified with the address of the
    [list_head] it embeds, so [list_entry] (a fixed-offset [container_of]) is
    the identity on keys; [h_value] holds the string owned by the [value]
    field of that element.  [h_bytes] is the flat byte memory in which the
    caller's output buffers live. *)
Record heap : Type := Heap {
  h_next : gmap N N;
  h_prev : gmap N N;
  h_value : gmap N string;
  h_bytes : gmap N ascii
}.

Definition set_next (p q : N) (h : heap) : heap :=
  {| h_next := <[p := q]> (h_next h); h_prev := h_prev h;
     h_value := h_value h; h_bytes := h_bytes h |}.

Definition set_prev (p q : N) (h : heap) : heap :=
  {| h_next := h_next h; h_prev := <[p := q]> (h_prev h);
     h_value := h_value h; h_bytes := h_bytes h |}.

Definition set_value (p : N) (v : string) (h : heap) : heap :=
  {| h_next := h_next h; h_prev := h_prev h;
     h_value := <[p := v]> (h_value h); h_bytes := h_bytes h |}.

Definition set_byte (a : N) (c : ascii) (h : heap) : heap :=
  {| h_next := h_next h; h_prev := h_prev h;
     h_value := h_value h; h_bytes := <[a := c]> (h_bytes h) |}.

(** ** The monad: a store is threaded, [None] is a fault (a dereference of
    [NULL] or of a released object) or exhausted fuel. *)

Definition M (A : Type) : Type := heap -> option (A * heap).

Definition ret {A : Type} (a : A) : M A := fun h => Some (a, h).

Definition bind {A B : Type} (m : M A) (k : A -> M B) : M B :=
  fun h => match m h with
           | Some (a, h') => k a h'
           | None => None
           end.

Definition fault {A : Type} : M A := fun _ => None.

Notation "'let*' x ':=' m 'in' k" := (bind m (fun x => k))
  (at level 10, x name, m at level 100, k at level 200, only parsing).
Notation "m ;;; k" := (bind m (fun _ => k))
  (at level 100, k at level 200, right associativity, only parsing).

(** *** Memory accesses *)

Definition load_next (p : N) : M N :=
  fun h => match h_next h !! p with Some q => Some (q, h) | None => None end.

Definition load_prev (p : N) : M N :=
  fun h => match h_prev h !! p with Some q => Some (q, h) | None => None end.

Definition load_value (p : N) : M string :=
  fun h => match h_value h !! p with Some v => Some (v, h) | None => None end.

Definition store_next (p q : N) : M unit :=
  fun h => match h_next h !! p with
           | Some _ => Some (tt, set_next p q h)
           | None => None
           end.

Definition store_prev (p q : N) : M unit :=
  fun h => match h_prev h !! p with
           | Some _ => Some (tt, set_prev p q h)
           | None => None
           end.

Definition store_byte (a : N) (c : ascii) : M unit :=
  fun h => Some (tt, set_byte a c h).

(** *** The allocator

    [malloc] is an oracle: the address it hands out ([NULL] on failure) is an
    argument of the operations that allocate.  [malloc_node] is the [malloc]
    of a [struct list_head] or of an [element_t]; a fresh block holds
    indeterminate contents, here [NULL] in both link fields. *)

Definition malloc_node (m : N) : M N :=
  fun h => if m =? NULL then Some (NULL, h)
           else Some (m, {| h_next := <[m := NULL]> (h_next h);
                            h_prev := <[m := NULL]> (h_prev h);
                            h_value := h_value h; h_bytes := h_bytes h |}).

(** [free] of a [list_head] or of the node of an [element_t]. *)
Definition free_node (p : N) : M unit :=
  fun h => match h_next h !! p with
           | Some _ => Some (tt, {| h_next := delete p (h_next h);
                                    h_prev := delete p (h_prev h);
                                    h_value := h_value h;
                                    h_bytes := h_bytes h |})
           | None => None
           end.

(** [strdup]: a fresh copy of the string, or [NULL] when the allocation
    fails ([ok = false]). *)
Definition strdup (ok : bool) (s : string) : option string :=
  if ok then Some s else None.

(** [e->value = v] for a string [v] obtained from [strdup]. *)
Definition store_value (e : N) (v : string) : M unit :=
  fun h => match h_next h !! e with
           | Some _ => Some (tt, set_value e v h)
           | None => None
           end.

(** [free(e->value)]. *)
Definition free_value (e : N) : M unit :=
  fun h => match h_value h !! e with
           | Some _ => Some (tt, {| h_next := h_next h; h_prev := h_prev h;
                                    h_value := delete e (h_value h);
                                    h_bytes := h_bytes h |})
           | None => None
           end.

(** ** Strings *)

(** [strcmp]: the difference of the first pair of bytes that differ, the
    bytes being compared as [unsigned char].  The end of a string is its
    terminating zero byte, so the comparison stops at a zero byte. *)
Fixpoint strcmp (a b : string) : Z :=
  match a, b with
  | EmptyString, EmptyString => 0%Z
  | EmptyString, String d _ => (- Z.of_N (N_of_ascii d))%Z
  | String c _, EmptyString => Z.of_N (N_of_ascii c)
  | String c a', String d b' =>
      if (N_of_ascii c =? N_of_ascii d)
      then (if N_of_ascii c =? 0 then 0%Z else strcmp a' b')
      else (Z.of_N (N_of_ascii c) - Z.of_N (N_of_ascii d))%Z
  end.

(** [strncpy(dst, src, n)]: exactly [n] bytes are written; once the source is
    exhausted the rest is filled with zero bytes. *)
Fixpoint strncpy (n : nat) (dst : N) (src : string) : M unit :=
  match n with
  | O => ret tt
  | S n' =>
      match src with
      | EmptyString =>
          store_byte dst zero ;;;
          strncpy n' ((dst + 1) mod SIZE_MOD) EmptyString
      | String c src' =>
          store_byte dst c ;;;
          strncpy n' ((dst + 1) mod SIZE_MOD)
                  (if Ascii.eqb c zero then EmptyString else src')
      end
  end.

(** ** The list primitives of [list.h] *)

(** Modelled from the spec: [list.h] is not part of the sources; [init(node)]
    makes [node] a one-element ring. *)
Definition INIT_LIST_HEAD (head : N) : M unit :=
  store_next head head ;;; store_prev head head.

(** Modelled from the spec: [insert_after(new, ref)] links [node] immediately
    after [head], updating four pointers. *)
Definition list_add (node head : N) : M unit :=
  let* nxt := load_next head in
  store_prev nxt node ;;;
  store_next node nxt ;;;
  store_prev node head ;;;
  store_next head node.

(** Modelled from the spec: [insert_before(new, ref)] links [node] immediately
    before [head], updating four pointers. *)
Definition list_add_tail (node head : N) : M unit :=
  let* prv := load_prev head in
  store_next prv node ;;;
  store_next node head ;;;
  store_prev node prv ;;;
  store_prev head node.

(** Modelled from the spec: [remove(node)] relinks the neighbours of [node] to
    each other; it does not deallocate, and the pointers of [node] itself are
    left stale. *)
Definition list_del (node : N) : M unit :=
  let* nxt := load_next node in
  let* prv := load_prev node in
  store_prev nxt prv ;;;
  store_next prv nxt.

(** Modelled from the spec: [move_to_front(node, anchor)] removes [node] and
    reinserts it immediately after [head]. *)
Definition list_move (node head : N) : M unit :=
  list_del node ;;; list_add node head.

(** Modelled from the spec: [is_empty(anchor)] is true iff
    [anchor.next == anchor]. *)
Definition list_empty (head : N) : M bool :=
  let* nxt := load_next head in ret (nxt =? head).

(** Modelled from the spec: [is_singular(anchor)] is true iff the ring has
    exactly one node besides the sentinel: it is not empty and the first and
    the last node are the same. *)
Definition list_is_singular (head : N) : M bool :=
  let* emp := list_empty head in
  if emp then ret false
  else
    let* prv := load_prev head in
    let* nxt := load_next head in
    ret (prv =? nxt).

(** Modelled from the spec: the iteration macros of [list.h] are not part
    of the sources either.  An iteration starts at [anchor.next] and ends
    when the sentinel is met again; its safe variant fetches the next node
    before the body runs.  [list_entry], [list_first_entry] and
    [list_last_entry] recover the element from its node, from [head->next]
    and from [head->prev].  Each loop below is the expansion of the macro
    the source uses, as a [Fixpoint] on fuel. *)

(** ** The queue operations *)

(** [q_new]; [m] is what [malloc] returns. *)
Definition q_new (m : N) : M N :=
  let* head := malloc_node m in
  if head =? NULL then ret NULL
  else INIT_LIST_HEAD head ;;; ret head.

(** [q_release_element]. *)
Definition q_release_element (e : N) : M unit :=
  free_value e ;;; free_node e.

(** [q_insert_head]; [m] is what [malloc] returns for the element and [ok]
    tells whether [strdup] succeeds. *)
Definition q_insert_head (m : N) (ok : bool) (head : N) (s : string) : M bool :=
  if head =? NULL then ret false
  else
    let* e := malloc_node m in
    if e =? NULL then ret false
    else
      match strdup ok s with
      | None => free_node e ;;; ret false
      | Some v =>
          store_value e v ;;;
          list_add e head ;;;
          ret true
      end.

(** [q_insert_tail]. *)
Definition q_insert_tail (m : N) (ok : bool) (head : N) (s : string) : M bool :=
  if head =? NULL then ret false
  else
    let* e := malloc_node m in
    if e =? NULL then ret false
    else
      match strdup ok s with
      | None => free_node e ;;; ret false
      | Some v =>
          store_value e v ;;;
          list_add_tail e head ;;;
          ret true
      end.

(** The copy into the caller's buffer shared by the two removals:
    [strncpy(sp, e->value, bufsize); sp[bufsize - 1] = 0].  [bufsize] is a
    [size_t], so [bufsize - 1] wraps around at [0], and so does the address
    [sp + (bufsize - 1)]. *)
Definition copy_out (e sp bufsize : N) : M unit :=
  let* v := load_value e in
  strncpy (N.to_nat bufsize) sp v ;;;
  store_byte ((sp + (bufsize + SIZE_MOD - 1) mod SIZE_MOD) mod SIZE_MOD) zero.

(** [q_remove_head]. *)
Definition q_remove_head (head sp bufsize : N) : M N :=
  if head =? NULL then ret NULL
  else
    let* emp := list_empty head in
    if emp then ret NULL
    else
      let* e := load_next head in
      let* first := load_next head in
      list_del first ;;;
      (if sp =? NULL then ret tt else copy_out e sp bufsize) ;;;
      ret e.

(** [q_remove_tail]. *)
Definition q_remove_tail (head sp bufsize : N) : M N :=
  if head =? NULL then ret NULL
  else
    let* emp := list_empty head in
    if emp then ret NULL
    else
      let* e := load_prev head in
      let* last := load_prev head in
      list_del last ;;;
      (if sp =? NULL then ret tt else copy_out e sp bufsize) ;;;
      ret e.

(** [q_delete_mid].  [idir] is a [struct list_head **] that always addresses
    the [next] field of some node; it is represented by that node. The loop
    [for (fast = head->next; fast != head && fast->next != head;
          fast = fast->next->next) idir = &( *idir)->next;] *)
Fixpoint q_delete_mid_loop (fuel : nat) (head fast idir : N) : M N :=
  if fast =? head then ret idir
  else
    let* fn := load_next fast in
    if fn =? head then ret idir
    else
      match fuel with
      | O => fault
      | S fuel' =>
          let* idir' := load_next idir in
          let* fnn := load_next fn in
          q_delete_mid_loop fuel' head fnn idir'
      end.

Definition q_delete_mid (fuel : nat) (head : N) : M bool :=
  if head =? NULL then ret false
  else
    let* emp := list_empty head in
    if emp then ret false
    else
      let* fast := load_next head in
      let* idir := q_delete_mid_loop fuel head fast head in
      let* e := load_next idir in
      let* mid := load_next idir in
      list_del mid ;;;
      q_release_element e ;;;
      ret true.

(** [q_delete_dup]: the body of [list_for_each_entry_safe (e, safe, head,
    list)], with its [break]. *)
Fixpoint q_delete_dup_loop (fuel : nat) (head e safe : N) : M unit :=
  if e =? head then ret tt
  else
    match fuel with
    | O => fault
    | S fuel' =>
        let* en := load_next e in
        if en =? head then ret tt
        else
          let* ve := load_value e in
          let* vs := load_value safe in
          (if (strcmp ve vs =? 0)%Z
           then list_del e ;;; q_release_element e
           else ret tt) ;;;
          let* sn := load_next safe in
          q_delete_dup_loop fuel' head safe sn
    end.

Definition q_delete_dup (fuel : nat) (head : N) : M bool :=
  if head =? NULL then ret false
  else
    let* e := load_next head in
    let* safe := load_next e in
    q_delete_dup_loop fuel head e safe ;;;
    ret true.

(** [q_reverse]: [list_for_each_safe (l, safe, head) list_move(l, head);] *)
Fixpoint q_reverse_loop (fuel : nat) (head l safe : N) : M unit :=
  if l =? head then ret tt
  else
    match fuel with
    | O => fault
    | S fuel' =>
        list_move l head ;;;
        let* sn := load_next safe in
        q_reverse_loop fuel' head safe sn
    end.

Definition q_reverse (fuel : nat) (head : N) : M unit :=
  if head =? NULL then ret tt
  else
    let* emp := list_empty head in
    if emp then ret tt
    else
      let* l := load_next head in
      let* safe := load_next l in
      q_reverse_loop fuel head l safe.

(** A [struct list_head **]: the address of a local pointer variable, or the
    address of the [next] field of a node. *)
Inductive indirect : Type :=
| AddrLocal
| AddrNext (p : N).

(** [*ptr = v], where [ptr] may address the local [head], whose new value is
    returned. *)
Definition store_indirect (ptr : indirect) (v head : N) : M N :=
  match ptr with
  | AddrLocal => ret v
  | AddrNext p => store_next p v ;;; ret head
  end.

(** [*ptr]. *)
Definition load_indirect (ptr : indirect) (head : N) : M N :=
  match ptr with
  | AddrLocal => ret head
  | AddrNext p => load_next p
  end.

(** [mergeTwoLists]: the state of the loop is the local [head], the cursor
    [ptr] and the two chains; [node] is [&l1] or [&l2]. *)
Fixpoint mergeTwoLists_loop (fuel : nat) (head : N) (ptr : indirect)
    (l1 l2 : N) : M N :=
  if (l1 =? NULL) || (l2 =? NULL)
  then store_indirect ptr (N.lor l1 l2) head
  else
    match fuel with
    | O => fault
    | S fuel' =>
        let* v1 := load_value l1 in
        let* v2 := load_value l2 in
        let node_is_l1 := (strcmp v1 v2 <? 0)%Z in
        let node := if node_is_l1 then l1 else l2 in
        let* head' := store_indirect ptr node head in
        let* cur := load_indirect ptr head' in
        let* nn := load_next node in
        if node_is_l1
        then mergeTwoLists_loop fuel' head' (AddrNext cur) nn l2
        else mergeTwoLists_loop fuel' head' (AddrNext cur) l1 nn
    end.

Definition mergeTwoLists (fuel : nat) (l1 l2 : N) : M N :=
  mergeTwoLists_loop fuel NULL AddrLocal l1 l2.

(** The fast/slow loop of [mergesort]; the result is [slow]. *)
Fixpoint mergesort_split (fuel : nat) (slow fast : N) : M N :=
  if fast =? NULL then ret slow
  else
    let* fn := load_next fast in
    if fn =? NULL then ret slow
    else
      match fuel with
      | O => fault
      | S fuel' =>
          let* slow' := load_next slow in
          let* fnn := load_next fn in
          mergesort_split fuel' slow' fnn
      end.

(** [mergesort]. *)
Fixpoint mergesort (fuel : nat) (head : N) : M N :=
  match fuel with
  | O => fault
  | S fuel' =>
      if head =? NULL then ret head
      else
        let* hn := load_next head in
        if hn =? NULL then ret head
        else
          let* fast := load_next head in
          let* slow := mergesort_split fuel' head fast in
          let* right := load_next slow in
          store_next slow NULL ;;;
          let* left := mergesort fuel' head in
          let* right' := mergesort fuel' right in
          mergeTwoLists fuel' left right'
  end.

(** The final pass of [q_sort]:
    [for (l = head->next; l->next != NULL; l = l->next)
       { l->prev = prev; prev = l; }]; the result is [l] at the exit. *)
Fixpoint q_sort_rethread (fuel : nat) (l prev : N) : M N :=
  let* ln := load_next l in
  if ln =? NULL then ret l
  else
    match fuel with
    | O => fault
    | S fuel' =>
        store_prev l prev ;;;
        let* l' := load_next l in
        q_sort_rethread fuel' l' l
    end.

(** [q_sort]. *)
Definition q_sort (fuel : nat) (head : N) : M unit :=
  if head =? NULL then ret tt
  else
    let* emp := list_empty head in
    if emp then ret tt
    else
      let* sing := list_is_singular head in
      if sing then ret tt
      else
        let* last := load_prev head in
        store_next last NULL ;;;
        let* first := load_next head in
        let* sorted := mergesort fuel first in
        store_next head sorted ;;;
        let* l0 := load_next head in
        let* l := q_sort_rethread fuel l0 head in
        store_next l head ;;;
        store_prev head l.

(** ** Observing a queue *)

(** The nodes met from [p] along [next] until [head] is met. *)
Fixpoint walk (fuel : nat) (nx : gmap N N) (head p : N) : option (list N) :=
  if p =? head then Some []
  else
    match fuel with
    | O => None
    | S fuel' =>
        match nx !! p with
        | Some q => cons p <$> walk fuel' nx head q
        | None => None
        end
    end.

(** The element nodes of the queue, front to back. *)
Definition q_nodes (fuel : nat) (h : heap) (head : N) : option (list N) :=
  match h_next h !! head with
  | Some p => walk fuel (h_next h) head p
  | None => None
  end.

(** The values of the queue, front to back. *)
Definition q_values (fuel : nat) (h : heap) (head : N) : option (list string) :=
  match q_nodes fuel h head with
  | Some xs => mapM (fun x => h_value h !! x) xs
  | None => None
  end.

Definition empty_heap : heap :=
  {| h_next := ∅; h_prev := ∅; h_value := ∅; h_bytes := ∅ |}.

(** Run an operation for its store. *)
Definition exec {A : Type} (m : M A) (h : heap) : option heap :=
  snd <$> m h.

(** A queue anchored at [1] whose elements sit at [2], [3], ... and hold
    the given values, built with [q_new] and [q_insert_tail]. *)
Fixpoint fill (m : N) (vs : list string) : M unit :=
  match vs with
  | [] => ret tt
  | v :: vs' => q_insert_tail m true 1 v ;;; fill (m + 1) vs'
  end.

Definition queue_of (vs : list string) : option heap :=
  exec (q_new 1 ;;; fill 2 vs) empty_heap.

(** ** Shapes in the store *)

(** [lseg m p xs q]: starting at [p] and following the field [m], the nodes
    [xs] are met in this order, and the field of the last one holds [q]. *)
Fixpoint lseg (m : gmap N N) (p : N) (xs : list N) (q : N) : Prop :=
  match xs with
  | [] => p = q
  | x :: xs' => p = x /\ exists n, m !! x = Some n /\ lseg m n xs' q
  end.

(** The sentinel and the nodes [xs] form a cycle of the field [m]. *)
Definition cycle (m : gmap N N) (head : N) (xs : list N) : Prop :=
  lseg m head (head :: xs) head.

(** A valid queue: the ring of spec section 3.  Along [next] the sentinel is
    followed by the element nodes [xs], front to back, and then by itself
    again; along [prev] the same ring is met in reverse; every element owns a
    value. *)
Record queue (h : heap) (head : N) (xs : list N) : Prop := Queue {
  q_nodup : NoDup (head :: xs);
  q_nonnull : NULL ∉ head :: xs;
  q_next : cycle (h_next h) head xs;
  q_prev : cycle (h_prev h) head (reverse xs);
  q_vals : Forall (fun x => is_Some (h_value h !! x)) xs
}.

(** The ring invariant at one node, as the spec words it:
    [n.next.prev == n] and [n.prev.next == n]. *)
Definition ring_ok_at (h : heap) (n : N) : bool :=
  match h_next h !! n, h_prev h !! n with
  | Some nx, Some pv =>
      match h_prev h !! nx, h_next h !! pv with
      | Some a, Some b => (a =? n) && (b =? n)
      | _, _ => false
      end
  | _, _ => false
  end.

(** The value of an element, read in the map of values. *)
Definition valof (vl : gmap N string) (x : N) : string :=
  default EmptyString (vl !! x).

(** What an operation that only relinks the nodes [l] leaves alone. *)
Definition same_outside (l : list N) (m m' : gmap N N) : Prop :=
  forall k, k ∉ l -> m' !! k = m !! k.

Record relinked (l : list N) (h h' : heap) : Prop := Relinked {
  rl_next : same_outside l (h_next h) (h_next h');
  rl_prev : same_outside l (h_prev h) (h_prev h');
  rl_next_dom : dom (h_next h') = dom (h_next h);
  rl_prev_dom : dom (h_prev h') = dom (h_prev h);
  rl_value : h_value h' = h_value h;
  rl_bytes : h_bytes h' = h_bytes h
}.

(** A node that is allocated, owns a value and is not linked. *)
Definition detached (h : heap) (head : N) (xs : list N) (x : N) : Prop :=
  (x ∉ head :: xs) /\ x <> NULL /\ is_Some (h_next h !! x) /\
  is_Some (h_prev h !! x) /\ is_Some (h_value h !! x).


(** The address [m] is not in use. *)
Definition fresh (h : heap) (m : N) : Prop :=
  h_next h !! m = None /\ h_prev h !! m = None /\ h_value h !! m = None.

(** What the store gains when one element at [m], holding [s], is added to
    the queue of nodes [xs]: one node and one string, and nothing else
    changes outside the ring. *)
Record gained (h h' : heap) (head : N) (xs : list N) (m : N) (s : string)
  : Prop := Gained {
  g_value : h_value h' = <[m := s]> (h_value h);
  g_next_dom : dom (h_next h') = {[m]} ∪ dom (h_next h);
  g_prev_dom : dom (h_prev h') = {[m]} ∪ dom (h_prev h);
  g_next : same_outside (m :: head :: xs) (h_next h) (h_next h');
  g_prev : same_outside (m :: head :: xs) (h_prev h) (h_prev h');
  g_bytes : h_bytes h' = h_bytes h
}.

(** The store once the element has been allocated and given its value. *)
Definition with_element (h : heap) (m : N) (s : string) : heap :=
  {| h_next := <[m := NULL]> (h_next h);
     h_prev := <[m := NULL]> (h_prev h);
     h_value := <[m := s]> (h_value h);
     h_bytes := h_bytes h |}.


(** ** Deciding the shapes, for concrete stores *)

Fixpoint lseg_b (m : gmap N N) (p : N) (xs : list N) (q : N) : bool :=
  match xs with
  | [] => p =? q
  | x :: xs' =>
      (p =? x) && match m !! x with
                  | Some n => lseg_b m n xs' q
                  | None => false
                  end
  end.

Definition queue_b (h : heap) (head : N) (xs : list N) : bool :=
  bool_decide (NoDup (head :: xs)) && bool_decide (NULL ∉ head :: xs) &&
  lseg_b (h_next h) head (head :: xs) head &&
  lseg_b (h_prev h) head (head :: reverse xs) head &&
  forallb (fun x => bool_decide (is_Some (h_value h !! x))) xs.


(** What a removal leaves in place: no node and no string is released. *)
Record kept (h h' : heap) : Prop := Kept {
  k_next_dom : dom (h_next h') = dom (h_next h);
  k_prev_dom : dom (h_prev h') = dom (h_prev h);
  k_value : h_value h' = h_value h
}.

(** What [q_release_element] takes away: the node [x] and its string. *)
Record released (h h' : heap) (x : N) : Prop := Released {
  r_value : h_value h' = delete x (h_value h);
  r_next_dom : dom (h_next h') = dom (h_next h) ∖ {[x]};
  r_prev_dom : dom (h_prev h') = dom (h_prev h) ∖ {[x]};
  r_bytes : h_bytes h' = h_bytes h
}.

(** ** Sorting: the shapes and the order *)

(** A NULL-terminated singly-linked chain of the nodes [xs] starting at
    [p]. *)
Definition chain (nx : gmap N N) (p : N) (xs : list N) : Prop :=
  lseg nx p xs NULL /\ NoDup xs /\ NULL ∉ xs.

(** The order in which the loop of [mergeTwoLists] threads the nodes of two
    chains: the head of the first chain is taken when [strcmp] is negative,
    the head of the second one otherwise. *)
Fixpoint merge_nodes (vl : gmap N string) (l1 : list N) : list N -> list N :=
  fix go (l2 : list N) : list N :=
    match l1, l2 with
    | [], _ => l2
    | _, [] => l1
    | a :: l1', b :: l2' =>
        if (strcmp (valof vl a) (valof vl b) <? 0)%Z
        then a :: merge_nodes vl l1' l2
        else b :: go l2'
    end.

(** Ascending order of the values: [strcmp] of an element and a later one is
    not positive. *)
Definition value_le (vl : gmap N string) (x y : N) : Prop :=
  (strcmp (valof vl x) (valof vl y) <= 0)%Z.

(** The elements whose value compares equal to [v]. *)
Definition same_value (vl : gmap N string) (v : string) (x : N) : Prop :=
  strcmp (valof vl x) v = 0%Z.

Global Instance same_value_dec vl v x : Decision (same_value vl v x).
Proof. unfold same_value. apply _. Defined.

(** What the sort makes of the node sequence [xs]: the same nodes, in
    ascending order of their values, the nodes of equal value coming in the
    reverse of the order they had. *)
Record sorted_from (vl : gmap N string) (xs ys : list N) : Prop := SortedFrom {
  sf_perm : ys ≡ₚ xs;
  sf_sorted : StronglySorted (value_le vl) ys;
  sf_ties : forall v, filter (same_value vl v) ys
                      = reverse (filter (same_value vl v) xs)
}.

(** What an operation that only writes [next] fields of the nodes [l] leaves
    alone. *)
Record next_only (l : list N) (h h' : heap) : Prop := NextOnly {
  no_next : same_outside l (h_next h) (h_next h');
  no_next_dom : dom (h_next h') = dom (h_next h);
  no_prev : h_prev h' = h_prev h;
  no_value : h_value h' = h_value h;
  no_bytes : h_bytes h' = h_bytes h
}.

(** The cursor [ptr] of [mergeTwoLists] addresses the local [head] or the
    [next] field of a node outside the chains that remain to be merged. *)
Definition cursor_ok (nx : gmap N N) (ptr : indirect) (l : list N) : Prop :=
  match ptr with
  | AddrLocal => True
  | AddrNext p => (p ∉ l) /\ is_Some (nx !! p)
  end.

Definition cursor_nodes (ptr : indirect) : list N :=
  match ptr with
  | AddrLocal => []
  | AddrNext p => [p]
  end.

(** What is read through the cursor once the loop has stored [r] through it:
    the local [head] is [r], or [head] is untouched and the field holds [r]. *)
Definition cursor_reads (nx : gmap N N) (ptr : indirect) (head' head r : N)
  : Prop :=
  match ptr with
  | AddrLocal => head' = r
  | AddrNext p => head' = head /\ nx !! p = Some r
  end.

(** What [q_sort] makes of a queue of nodes [xs]: along [next] the ring
    holds the nodes in sorted order [ys]; along [prev] the sentinel points to
    the last node and every node but the last one points to its predecessor;
    the [prev] field of the last node is not written. *)
Record sorted_queue (h h' : heap) (head : N) (xs ys : list N) : Prop :=
  SortedQueue {
  sq_sorted : sorted_from (h_value h) xs ys;
  sq_next : cycle (h_next h') head ys;
  sq_prev_head : h_prev h' !! head = Some (List.last ys head);
  sq_prev_rest : lseg (h_prev h')
                      (List.hd head (reverse (removelast ys)))
                      (reverse (removelast ys)) head;
  sq_prev_outside :
    same_outside (head :: removelast ys) (h_prev h) (h_prev h');
  sq_next_outside : same_outside (head :: xs) (h_next h) (h_next h');
  sq_next_dom : dom (h_next h') = dom (h_next h);
  sq_prev_dom : dom (h_prev h') = dom (h_prev h);
  sq_value : h_value h' = h_value h;
  sq_bytes : h_bytes h' = h_bytes h
}.

(** ** Concrete queues *)

(** The store holding the queue built from the given values (anchored at
    [1], elements at [2], [3], ...). *)
Definition the_queue (vs : list string) : heap :=
  default empty_heap (queue_of vs).

(** The result and the final store of an operation on that queue. *)
Definition run_on {A : Type} (m : M A) (vs : list string) : option (A * heap) :=
  m (the_queue vs).

(** Stability as a sort would have it: the nodes whose value compares equal
    to a given one keep their relative order. *)
Definition ties_kept (vl : gmap N string) (xs ys : list N) : Prop :=
  forall v, filter (same_value vl v) ys = filter (same_value vl v) xs.

(** The values, and the nodes, of that queue after an operation. *)
Definition values_after {A : Type} (m : M A) (vs : list string)
  : option (list string) :=
  match run_on m vs with
  | Some (_, h') => q_values (S (length vs)) h' 1
  | None => None
  end.

Definition nodes_after {A : Type} (m : M A) (vs : list string)
  : option (list N) :=
  match run_on m vs with
  | Some (_, h') => q_nodes (S (length vs)) h' 1
  | None => None
  end.

(** What the walk of [q_delete_dup] leaves of the node sequence: a node is
    dropped when its value compares equal to the value of the node that
    follows it. *)
Fixpoint delete_dup_nodes (vl : gmap N string) (xs : list N) : list N :=
  match xs with
  | [] => []
  | x :: xs' =>
      match xs' with
      | [] => [x]
      | y :: _ =>
          if (strcmp (valof vl x) (valof vl y) =? 0)%Z
          then delete_dup_nodes vl xs'
          else x :: delete_dup_nodes vl xs'
      end
  end.

(** ** The copy into the caller's buffer *)

(** The byte of index [i] of the C string [s]: zero from its terminator
    on. *)
Fixpoint c_byte (s : string) (i : nat) : ascii :=
  match s with
  | EmptyString => zero
  | String c s' =>
      if Ascii.eqb c zero then zero
      else match i with
           | O => c
           | S i' => c_byte s' i'
           end
  end.

(** The byte memory after the value [v] has been copied into the buffer of
    [bufsize] bytes at [sp]: the last byte of the buffer is the terminator,
    the bytes before it are those of [v], and no byte outside the buffer is
    written. *)
Definition copied (v : string) (sp bufsize : N) (bytes bytes' : gmap N ascii)
  : Prop :=
  forall a,
    bytes' !! a =
    if decide (sp <= a < sp + bufsize)
    then Some (if decide (a = sp + bufsize - 1) then zero
               else c_byte v (N.to_nat (a - sp)))
    else bytes !! a.

(** ** The remaining operations *)

(** An [int] is 32 bits wide; the result of [len++] is brought back into
    its range. *)
Definition wrap_int (z : Z) : Z :=
  ((z + 2 ^ 31) mod 2 ^ 32 - 2 ^ 31)%Z.

(** [q_size]: the body of [list_for_each (li, head) len++;]. *)
Fixpoint q_size_loop (fuel : nat) (head li : N) (len : Z) : M Z :=
  if li =? head then ret len
  else
    match fuel with
    | O => fault
    | S fuel' =>
        let* li' := load_next li in
        q_size_loop fuel' head li' (wrap_int (len + 1))
    end.

Definition q_size (fuel : nat) (head : N) : M Z :=
  if head =? NULL then ret 0%Z
  else
    let* li := load_next head in
    q_size_loop fuel head li 0%Z.

(** [q_free]: the body of [list_for_each_entry_safe (e, safe, l, list)
    q_release_element(e);], then [free(l)]. *)
Fixpoint q_free_loop (fuel : nat) (head e safe : N) : M unit :=
  if e =? head then ret tt
  else
    match fuel with
    | O => fault
    | S fuel' =>
        q_release_element e ;;;
        let* sn := load_next safe in
        q_free_loop fuel' head safe sn
    end.

Definition q_free (fuel : nat) (l : N) : M unit :=
  if l =? NULL then ret tt
  else
    let* e := load_next l in
    let* safe := load_next e in
    q_free_loop fuel l e safe ;;;
    free_node l.

(** [q_swap]: [for (l = head->next; (l != head) && (l->next != head);
    l = l->next) list_move(l, l->next);]. *)
Fixpoint q_swap_loop (fuel : nat) (head l : N) : M unit :=
  if l =? head then ret tt
  else
    let* ln := load_next l in
    if ln =? head then ret tt
    else
      match fuel with
      | O => fault
      | S fuel' =>
          let* after := load_next l in
          list_move l after ;;;
          let* l' := load_next l in
          q_swap_loop fuel' head l'
      end.

Definition q_swap (fuel : nat) (head : N) : M unit :=
  if head =? NULL then ret tt
  else
    let* l := load_next head in
    q_swap_loop fuel head l.

(** Adjacent pairs exchanged, from the front; an odd last node stays. *)
Fixpoint swap_pairs (xs : list N) : list N :=
  match xs with
  | x :: y :: xs' => y :: x :: swap_pairs xs'
  | _ => xs
  end.

(** Insertions at the tail, one for each value; the allocator hands out the
    addresses [ms] in turn and every [strdup] succeeds.  The result tells
    whether all of them returned true. *)
Fixpoint insert_all (head : N) (ms : list N) (vs : list string) : M bool :=
  match ms, vs with
  | m :: ms', v :: vs' =>
      let* ok := q_insert_tail m true head v in
      if ok then insert_all head ms' vs' else ret false
  | _, _ => ret true
  end.

(** The store once the nodes [l] and the strings of the elements [xs] are
    released. *)
Record all_released (l xs : list N) (h h' : heap) : Prop := AllReleased {
  ar_next : forall k, h_next h' !! k
                      = if decide (k ∈ l) then None else h_next h !! k;
  ar_prev : forall k, h_prev h' !! k
                      = if decide (k ∈ l) then None else h_prev h !! k;
  ar_value : forall k, h_value h' !! k
                       = if decide (k ∈ xs) then None else h_value h !! k;
  ar_bytes : h_bytes h' = h_bytes h
}.

(** Strictly ascending values. *)
Definition value_lt (vl : gmap N string) (x y : N) : Prop :=
  (strcmp (valof vl x) (valof vl y) < 0)%Z.

(** What the operations that only follow [next] need of a queue: the
    forward ring. *)
Record forward (h : heap) (head : N) (xs : list N) : Prop := Forward {
  fw_nodup : NoDup (head :: xs);
  fw_nonnull : head <> NULL;
  fw_next : cycle (h_next h) head xs
}.

(** No element has the value of the element that follows it. *)
Fixpoint distinct_neighbours (vl : gmap N string) (xs : list N) : Prop :=
  match xs with
  | x :: (y :: _) as rest =>
      strcmp (valof vl x) (valof vl y) <> 0%Z /\ distinct_neighbours vl rest
  | _ => True
  end.

(** Two stores for the chain operations: the ring a, c, b, d cut into the
    chains a, c and b, d; the ring b, a, c cut open after its last node. *)
Definition two_chains : heap :=
  set_next 5 NULL
    (set_next 3 NULL (the_queue ["a"; "c"; "b"; "d"]%string)).

Definition one_chain : heap :=
  set_next 4 NULL (the_queue ["b"; "a"; "c"]%string).

(** The store [h] is the store [hr] but for what the [prev] field of the
    node [l] holds. *)
Record prev_off (l : N) (h hr : heap) : Prop := PrevOff {
  po_next : h_next h = h_next hr;
  po_prev : forall k, k <> l -> h_prev h !! k = h_prev hr !! k;
  po_prev_at : is_Some (h_prev h !! l);
  po_value : h_value h = h_value hr;
  po_bytes : h_bytes h = h_bytes hr
}.
(** ** Lemmas on segments *)

Section Segments.
Implicit Types (m : gmap N N) (xs ys : list N) (p q x : N).

Lemma lseg_hd m p xs q : lseg m p xs q -> p = List.hd q xs.
Proof. destruct xs; simpl; [done | tauto]. Qed.

Lemma lseg_app m p xs ys q :
  lseg m p (xs ++ ys) q <-> exists r, lseg m p xs r /\ lseg m r ys q.
Proof.
  revert p. induction xs as [|x xs IH]; intros p; simpl.
  - split; [eauto | intros (r & -> & H); done].
  - split.
    + intros (-> & n & Hn & H). apply IH in H as (r & H1 & H2).
      exists r. eauto 6.
    + intros (r & (-> & n & Hn & H1) & H2). split; [done|].
      exists n. split; [done|]. apply IH. eauto.
Qed.

Lemma lseg_snoc m p xs x q :
  lseg m p (xs ++ [x]) q <-> lseg m p xs x /\ m !! x = Some q.
Proof.
  rewrite lseg_app. simpl. split.
  - intros (r & H & -> & n & Hn & ->). done.
  - intros [H Hx]. exists x. eauto 6.
Qed.

Lemma lseg_frame m m' p xs q :
  (forall k, k ∈ xs -> m' !! k = m !! k) ->
  lseg m p xs q -> lseg m' p xs q.
Proof.
  revert p. induction xs as [|x xs IH]; intros p Hk; simpl; [done|].
  intros (-> & n & Hn & H). split; [done|]. exists n. split.
  - rewrite Hk; [done | left].
  - apply IH; [|done]. intros k Hin. apply Hk. by right.
Qed.

Lemma lseg_insert m p xs q k v :
  k ∉ xs -> lseg m p xs q -> lseg (<[k := v]> m) p xs q.
Proof.
  intros Hk. apply lseg_frame. intros j Hj.
  apply lookup_insert_ne. intros ->. done.
Qed.

Lemma lseg_is_Some m p xs q k : lseg m p xs q -> k ∈ xs -> is_Some (m !! k).
Proof.
  revert p. induction xs as [|x xs IH]; intros p; simpl.
  - intros _ Hk. by apply elem_of_nil in Hk.
  - intros (-> & n & Hn & H) Hk. apply elem_of_cons in Hk as [->|Hk]; eauto.
Qed.

(** The field of a node inside a segment holds the node that follows. *)
Lemma lseg_mid m p xs x ys q :
  lseg m p (xs ++ x :: ys) q -> m !! x = Some (List.hd q ys).
Proof.
  rewrite lseg_app. intros (r & _ & -> & n & Hn & H).
  by rewrite <- (lseg_hd _ _ _ _ H).
Qed.

(** A segment fixes the field of each of its nodes. *)
Lemma lseg_agree m m' p xs q k :
  lseg m p xs q -> lseg m' p xs q -> k ∈ xs -> m' !! k = m !! k.
Proof.
  revert p. induction xs as [|x xs IH]; intros p; simpl.
  - intros _ _ Hk. by apply elem_of_nil in Hk.
  - intros (-> & n & Hn & H) (_ & n' & Hn' & H') Hk.
    pose proof (lseg_hd _ _ _ _ H) as E.
    pose proof (lseg_hd _ _ _ _ H') as E'. subst n n'.
    apply elem_of_cons in Hk as [->|Hk]; [congruence | eauto].
Qed.

Lemma lseg_nth m p xs q i :
  lseg m p xs q -> (i < length xs)%nat ->
  m !! (nth i xs q) = Some (nth (S i) xs q).
Proof.
  revert p i. induction xs as [|x xs IH]; intros p i; simpl; [lia|].
  intros (-> & n & Hn & H) Hi. destruct i as [|i].
  - rewrite Hn. f_equal. rewrite (lseg_hd _ _ _ _ H). by destruct xs.
  - apply (IH n); [done | lia].
Qed.

(** Unlinking [x]: the node before it is made to point to the node after
    it. *)
Lemma lseg_unlink m p xs a x ys q :
  NoDup (xs ++ a :: x :: ys) ->
  lseg m p (xs ++ a :: x :: ys) q ->
  lseg (<[a := List.hd q ys]> m) p (xs ++ a :: ys) q.
Proof.
  intros Hnd. rewrite !lseg_app.
  intros (r & H1 & -> & n & Hn & -> & n' & Hn' & H2).
  apply NoDup_app in Hnd as (_ & Hd & Hnd).
  apply NoDup_cons in Hnd as [Ha Hnd].
  exists a. split.
  - apply lseg_insert; [|done]. intros Hin. apply (Hd _ Hin). left.
  - simpl. split; [done|]. exists (List.hd q ys). split.
    + by rewrite lookup_insert_eq.
    + rewrite <- (lseg_hd _ _ _ _ H2). apply lseg_insert; [|done].
      intros Hin. apply Ha. by right.
Qed.
End Segments.

(** ** Lemmas on cycles *)

Section Cycles.
Implicit Types (m : gmap N N) (xs ys pre post : list N) (head x : N).

Lemma hd_rev_last (d : N) xs : List.hd d (reverse xs) = List.last xs d.
Proof.
  induction xs as [|x xs IH] using rev_ind; [done|].
  rewrite reverse_snoc, last_last. done.
Qed.

Lemma last_rev_hd (d : N) xs : List.last (reverse xs) d = List.hd d xs.
Proof. rewrite <- hd_rev_last, reverse_involutive. done. Qed.

(** The sentinel followed by [xs], seen as whatever precedes its last
    node, and that last node. *)
Lemma cons_as_snoc head xs :
  exists A, head :: xs = A ++ [List.last xs head].
Proof.
  induction xs as [|x xs _] using rev_ind.
  - by exists [].
  - exists (head :: xs). by rewrite last_last.
Qed.

Lemma cycle_head m head xs :
  cycle m head xs -> m !! head = Some (List.hd head xs).
Proof. intros H. apply (lseg_mid m head [] head xs head H). Qed.

Lemma cycle_mid m head pre x post :
  cycle m head (pre ++ x :: post) -> m !! x = Some (List.hd head post).
Proof. intros H. apply (lseg_mid m head (head :: pre) x post head H). Qed.

Lemma cycle_last m head xs :
  cycle m head xs -> m !! (List.last xs head) = Some head.
Proof.
  unfold cycle. destruct (cons_as_snoc head xs) as [A ->].
  rewrite lseg_snoc. tauto.
Qed.

Lemma cycle_is_Some m head xs k :
  cycle m head xs -> k ∈ head :: xs -> is_Some (m !! k).
Proof. apply lseg_is_Some. Qed.

Lemma cycle_agree m m' head xs k :
  cycle m head xs -> cycle m' head xs -> k ∈ head :: xs ->
  m' !! k = m !! k.
Proof. apply lseg_agree. Qed.

Lemma cycle_del m head pre x post :
  NoDup (head :: pre ++ x :: post) ->
  cycle m head (pre ++ x :: post) ->
  cycle (<[List.last pre head := List.hd head post]> m) head (pre ++ post).
Proof.
  unfold cycle. rewrite !app_comm_cons.
  destruct (cons_as_snoc head pre) as [A ->].
  rewrite <- !app_assoc. simpl. apply lseg_unlink.
Qed.

Lemma cycle_add_front m head ys x :
  x ∉ head :: ys -> NoDup (head :: ys) ->
  cycle m head ys ->
  cycle (<[head := x]> (<[x := List.hd head ys]> m)) head (x :: ys).
Proof.
  unfold cycle. simpl. intros Hx Hnd (_ & n & Hn & H).
  apply not_elem_of_cons in Hx as [Hxh Hxy].
  apply NoDup_cons in Hnd as [Hh _].
  split; [done|]. exists x. split; [by rewrite lookup_insert_eq|].
  split; [done|]. exists (List.hd head ys). split.
  - rewrite lookup_insert_ne by done. by rewrite lookup_insert_eq.
  - rewrite <- (lseg_hd _ _ _ _ H). by do 2 (apply lseg_insert; [done|]).
Qed.

Lemma cycle_add_back m head ys x :
  x ∉ head :: ys -> NoDup (head :: ys) ->
  cycle m head ys ->
  cycle (<[x := head]> (<[List.last ys head := x]> m)) head (ys ++ [x]).
Proof.
  unfold cycle. rewrite app_comm_cons.
  destruct (cons_as_snoc head ys) as [A E]. rewrite E.
  set (a := List.last ys head). intros Hx Hnd.
  rewrite !lseg_snoc. intros [H Ha].
  apply NoDup_app in Hnd as (_ & Hd & _).
  assert (a ∉ A) by (intros Hin; apply (Hd _ Hin); left).
  assert (x ≠ a) by (intros ->; apply Hx, elem_of_app; right; left).
  assert (x ∉ A) by (intros Hin; apply Hx, elem_of_app; by left).
  split; [split|].
  - by do 2 (apply lseg_insert; [done|]).
  - rewrite lookup_insert_ne by done. by rewrite lookup_insert_eq.
  - by rewrite lookup_insert_eq.
Qed.
End Cycles.

(** ** Running the primitives *)

Section Runs.
Implicit Types (h : heap) (p q head node : N).

Lemma run_load_next {A} p q (k : N -> M A) h :
  h_next h !! p = Some q -> bind (load_next p) k h = k q h.
Proof. intros H. unfold bind, load_next. by rewrite H. Qed.

Lemma run_load_prev {A} p q (k : N -> M A) h :
  h_prev h !! p = Some q -> bind (load_prev p) k h = k q h.
Proof. intros H. unfold bind, load_prev. by rewrite H. Qed.

Lemma run_load_value {A} p v (k : string -> M A) h :
  h_value h !! p = Some v -> bind (load_value p) k h = k v h.
Proof. intros H. unfold bind, load_value. by rewrite H. Qed.

Lemma run_store_next {A} p q (k : unit -> M A) h :
  is_Some (h_next h !! p) ->
  bind (store_next p q) k h = k tt (set_next p q h).
Proof. intros [? H]. unfold bind, store_next. by rewrite H. Qed.

Lemma run_store_prev {A} p q (k : unit -> M A) h :
  is_Some (h_prev h !! p) ->
  bind (store_prev p q) k h = k tt (set_prev p q h).
Proof. intros [? H]. unfold bind, store_prev. by rewrite H. Qed.

Lemma run_ret {A B} (a : A) (k : A -> M B) h : bind (ret a) k h = k a h.
Proof. done. Qed.

Lemma bind_assoc_run {A B C} (m : M A) (f : A -> M B) (g : B -> M C) h :
  bind (bind m f) g h = bind m (fun a => bind (f a) g) h.
Proof. unfold bind. destruct (m h) as [[a h']|]; done. Qed.

Lemma run_bind {A B} (m : M A) (k : A -> M B) h a h' :
  m h = Some (a, h') -> bind m k h = k a h'.
Proof. intros H. unfold bind. by rewrite H. Qed.

Lemma list_del_run h node nxt prv :
  h_next h !! node = Some nxt -> h_prev h !! node = Some prv ->
  is_Some (h_prev h !! nxt) -> is_Some (h_next h !! prv) ->
  list_del node h = Some (tt, set_next prv nxt (set_prev nxt prv h)).
Proof.
  intros Hn Hp Hpn Hnp. unfold list_del.
  rewrite (run_load_next _ _ _ _ Hn), (run_load_prev _ _ _ _ Hp).
  rewrite run_store_prev by done.
  unfold store_next. simpl. destruct Hnp as [? ->]. done.
Qed.

Lemma list_add_run h node head nxt :
  h_next h !! head = Some nxt -> is_Some (h_prev h !! nxt) ->
  is_Some (h_next h !! node) -> is_Some (h_prev h !! node) ->
  list_add node head h =
  Some (tt, set_next head node (set_prev node head
              (set_next node nxt (set_prev nxt node h)))).
Proof.
  intros Hn Hpn Hnn Hnp. unfold list_add.
  rewrite (run_load_next _ _ _ _ Hn).
  rewrite run_store_prev by done.
  rewrite run_store_next by done.
  rewrite run_store_prev
    by (simpl; apply lookup_insert_is_Some'; by right).
  unfold store_next. simpl.
  destruct (lookup_insert_is_Some' (h_next h) node head nxt) as [_ [? ->]];
    [right; by eexists | done].
Qed.

Lemma list_add_tail_run h node head prv :
  h_prev h !! head = Some prv -> is_Some (h_next h !! prv) ->
  is_Some (h_next h !! node) -> is_Some (h_prev h !! node) ->
  list_add_tail node head h =
  Some (tt, set_prev head node (set_prev node prv
              (set_next node head (set_next prv node h)))).
Proof.
  intros Hp Hnp Hnn Hpn. unfold list_add_tail.
  rewrite (run_load_prev _ _ _ _ Hp).
  rewrite run_store_next by done.
  rewrite run_store_next
    by (simpl; apply lookup_insert_is_Some'; by right).
  rewrite run_store_prev by done.
  unfold store_prev. simpl.
  destruct (lookup_insert_is_Some' (h_prev h) node head prv) as [_ [? ->]];
    [right; by eexists | done].
Qed.
End Runs.

(** ** Relinking *)

Section Relinked.
Implicit Types (h : heap) (l : list N).

Lemma relinked_refl l h : relinked l h h.
Proof. by split. Qed.

Lemma relinked_trans l h1 h2 h3 :
  relinked l h1 h2 -> relinked l h2 h3 -> relinked l h1 h3.
Proof.
  intros [a1 b1 c1 d1 e1 f1] [a2 b2 c2 d2 e2 f2]. split; try congruence.
  - intros k Hk. by rewrite a2, a1.
  - intros k Hk. by rewrite b2, b1.
Qed.

Lemma relinked_mono l l' h h' :
  (forall k, k ∈ l -> k ∈ l') -> relinked l h h' -> relinked l' h h'.
Proof.
  intros Hsub [a b c d e f]. split; try done.
  - intros k Hk. apply a. eauto.
  - intros k Hk. apply b. eauto.
Qed.

Lemma relinked_set_next l h p q :
  p ∈ l -> is_Some (h_next h !! p) -> relinked l h (set_next p q h).
Proof.
  intros Hp [v Hv]. split; simpl; try done.
  - intros k Hk. apply lookup_insert_ne. by intros ->.
  - apply dom_insert_lookup_L. by eexists.
Qed.

Lemma relinked_set_prev l h p q :
  p ∈ l -> is_Some (h_prev h !! p) -> relinked l h (set_prev p q h).
Proof.
  intros Hp [v Hv]. split; simpl; try done.
  - intros k Hk. apply lookup_insert_ne. by intros ->.
  - apply dom_insert_lookup_L. by eexists.
Qed.

Lemma relinked_step_next l h h' p q :
  relinked l h h' -> p ∈ l -> is_Some (h_next h' !! p) ->
  relinked l h (set_next p q h').
Proof.
  intros R Hp Hs. eapply relinked_trans; [exact R|].
  by apply relinked_set_next.
Qed.

Lemma relinked_step_prev l h h' p q :
  relinked l h h' -> p ∈ l -> is_Some (h_prev h' !! p) ->
  relinked l h (set_prev p q h').
Proof.
  intros R Hp Hs. eapply relinked_trans; [exact R|].
  by apply relinked_set_prev.
Qed.

Lemma relinked_is_Some_next l h h' k :
  relinked l h h' -> is_Some (h_next h !! k) -> is_Some (h_next h' !! k).
Proof.
  intros R. rewrite <- !elem_of_dom. by rewrite (rl_next_dom _ _ _ R).
Qed.

Lemma relinked_is_Some_prev l h h' k :
  relinked l h h' -> is_Some (h_prev h !! k) -> is_Some (h_prev h' !! k).
Proof.
  intros R. rewrite <- !elem_of_dom. by rewrite (rl_prev_dom _ _ _ R).
Qed.
End Relinked.

(** ** The primitives on a valid queue *)

Section Primitives.
Implicit Types (h : heap) (head x : N) (xs pre post : list N).

Lemma last_elem_of head xs : List.last xs head ∈ head :: xs.
Proof.
  destruct (cons_as_snoc head xs) as [A E]. rewrite E.
  apply elem_of_app. right. left.
Qed.

Lemma hd_elem_of head xs : List.hd head xs ∈ head :: xs.
Proof. destruct xs; simpl; [left | right; left]. Qed.

Lemma NoDup_rev_cons head xs : NoDup (head :: xs) -> NoDup (head :: reverse xs).
Proof.
  rewrite !NoDup_cons, elem_of_reverse. intros [H1 H2].
  split; [done | by rewrite reverse_Permutation].
Qed.

Lemma queue_next_is_Some h head xs k :
  queue h head xs -> k ∈ head :: xs -> is_Some (h_next h !! k).
Proof. intros Q. apply cycle_is_Some, Q. Qed.

Lemma queue_prev_is_Some h head xs k :
  queue h head xs -> k ∈ head :: xs -> is_Some (h_prev h !! k).
Proof.
  intros Q Hk. apply (cycle_is_Some _ head (reverse xs)); [apply Q|].
  apply elem_of_cons in Hk as [->|Hk]; [left | right].
  by apply elem_of_reverse.
Qed.

(** A queue is fixed by its node sequence, up to what lies outside. *)
Lemma queue_unique h h' head xs :
  queue h head xs -> queue h' head xs ->
  relinked (head :: xs) h h' -> h' = h.
Proof.
  intros Q Q' R. destruct h as [nx pv vl by_], h' as [nx' pv' vl' by'].
  destruct R as [Rn Rp _ _ Rv Rb]. simpl in *. subst. f_equal.
  - apply map_eq. intros k. destruct (decide (k ∈ head :: xs)) as [Hk|Hk].
    + apply (cycle_agree _ _ head xs); [apply Q | apply Q' | done].
    + by apply Rn.
  - apply map_eq. intros k. destruct (decide (k ∈ head :: xs)) as [Hk|Hk].
    + apply (cycle_agree _ _ head (reverse xs)); [apply Q | apply Q' |].
      apply elem_of_cons in Hk as [->|Hk]; [left | right].
      by apply elem_of_reverse.
    + by apply Rp.
Qed.

Lemma queue_list_del h head pre x post :
  queue h head (pre ++ x :: post) ->
  exists h',
    list_del x h = Some (tt, h') /\
    queue h' head (pre ++ post) /\
    relinked (head :: pre ++ post) h h'.
Proof.
  intros Q.
  pose proof (q_nodup _ _ _ Q) as Hnd.
  pose proof (cycle_mid _ _ _ _ _ (q_next _ _ _ Q)) as Hn.
  pose proof (q_prev _ _ _ Q) as Hpv.
  rewrite reverse_app, reverse_cons, <- app_assoc in Hpv. simpl in Hpv.
  pose proof (cycle_mid _ _ _ _ _ Hpv) as Hp. rewrite hd_rev_last in Hp.
  pose proof (hd_elem_of head post) as Hnxt.
  pose proof (last_elem_of head pre) as Hprv.
  revert Hn Hp Hnxt Hprv.
  generalize (List.hd head post) as nxt.
  generalize (List.last pre head) as prv.
  intros prv nxt Hn Hp Hnxt Hprv.
  assert (Hnxt' : nxt ∈ head :: pre ++ post) by set_solver.
  assert (Hprv' : prv ∈ head :: pre ++ post) by set_solver.
  assert (Hsub : forall k, k ∈ head :: pre ++ post ->
                           k ∈ head :: pre ++ x :: post) by set_solver.
  exists (set_next prv nxt (set_prev nxt prv h)). split; [|split].
  - apply list_del_run; try done.
    + eapply queue_prev_is_Some; eauto.
    + eapply queue_next_is_Some; eauto.
  - revert Hn Hp. intros Hn Hp.
    rewrite (cycle_mid _ _ _ _ _ (q_next _ _ _ Q)) in Hn.
    rewrite (cycle_mid _ _ _ _ _ Hpv), hd_rev_last in Hp.
    injection Hn as <-. injection Hp as <-.
    split; simpl.
    + apply NoDup_cons in Hnd as [Hh Hnd]. apply NoDup_cons.
      apply NoDup_app in Hnd as (H1 & H2 & H3).
      apply NoDup_cons in H3 as [H3 H4].
      split; [set_solver|]. apply NoDup_app. set_solver.
    + pose proof (q_nonnull _ _ _ Q). set_solver.
    + apply (cycle_del _ _ _ x); [done | apply Q].
    + rewrite reverse_app.
      rewrite <- (last_rev_hd head post), <- (hd_rev_last head pre).
      apply (cycle_del _ _ _ x); [|done].
      apply NoDup_rev_cons in Hnd.
      by rewrite reverse_app, reverse_cons, <- app_assoc in Hnd.
    + pose proof (q_vals _ _ _ Q) as Hv.
      rewrite Forall_app, Forall_cons in Hv. rewrite Forall_app. tauto.
  - apply relinked_step_next; [apply relinked_step_prev|..];
      [apply relinked_refl|done| |done|].
    + eapply queue_prev_is_Some; eauto.
    + simpl. eapply queue_next_is_Some; eauto.
Qed.

Lemma queue_list_add h head xs x :
  queue h head xs -> detached h head xs x ->
  exists h',
    list_add x head h = Some (tt, h') /\
    queue h' head (x :: xs) /\
    relinked (x :: head :: xs) h h'.
Proof.
  intros Q (Hx & Hnull & Hxn & Hxp & Hxv).
  pose proof (q_nodup _ _ _ Q) as Hnd.
  pose proof (cycle_head _ _ _ (q_next _ _ _ Q)) as Hn.
  pose proof (hd_elem_of head xs) as Hnxt.
  assert (Hnp : is_Some (h_prev h !! List.hd head xs))
    by (eapply queue_prev_is_Some; eauto).
  eexists. split; [by apply list_add_run|]. split.
  - split; simpl.
    + apply NoDup_cons in Hnd as [Hh Hnd].
      apply NoDup_cons. split; [set_solver|].
      apply NoDup_cons. split; [set_solver | done].
    + pose proof (q_nonnull _ _ _ Q). set_solver.
    + apply cycle_add_front; [done | done | apply Q].
    + rewrite reverse_cons, <- (last_rev_hd head xs).
      apply cycle_add_back; [| by apply NoDup_rev_cons | apply Q].
      rewrite not_elem_of_cons, elem_of_reverse. set_solver.
    + constructor; [done | apply Q].
  - apply relinked_step_next; [apply relinked_step_prev;
      [apply relinked_step_next; [apply relinked_step_prev|..]|..]|..];
      simpl; [apply relinked_refl|set_solver|done|set_solver|done
             |set_solver| |set_solver|].
    + apply lookup_insert_is_Some'. by right.
    + apply lookup_insert_is_Some'. right. by eexists.
Qed.

Lemma queue_list_add_tail h head xs x :
  queue h head xs -> detached h head xs x ->
  exists h',
    list_add_tail x head h = Some (tt, h') /\
    queue h' head (xs ++ [x]) /\
    relinked (x :: head :: xs) h h'.
Proof.
  intros Q (Hx & Hnull & Hxn & Hxp & Hxv).
  pose proof (q_nodup _ _ _ Q) as Hnd.
  pose proof (cycle_head _ _ _ (q_prev _ _ _ Q)) as Hp.
  rewrite hd_rev_last in Hp.
  pose proof (last_elem_of head xs) as Hprv.
  assert (Hpn : is_Some (h_next h !! List.last xs head))
    by (eapply queue_next_is_Some; eauto).
  eexists. split; [by apply list_add_tail_run|]. split.
  - split; simpl.
    + apply NoDup_cons in Hnd as [Hh Hnd].
      apply NoDup_cons. split; [set_solver|].
      apply NoDup_app. split; [done|]. split; [set_solver|].
      apply NoDup_singleton.
    + pose proof (q_nonnull _ _ _ Q). set_solver.
    + apply cycle_add_back; [done | done | apply Q].
    + rewrite reverse_snoc, <- (hd_rev_last head xs).
      apply cycle_add_front; [| by apply NoDup_rev_cons | apply Q].
      rewrite not_elem_of_cons, elem_of_reverse. set_solver.
    + apply Forall_app. split; [apply Q | by constructor].
  - apply relinked_step_prev; [apply relinked_step_prev;
      [apply relinked_step_next; [apply relinked_step_next|..]|..]|..];
      simpl; [apply relinked_refl|set_solver|done|set_solver|
             |set_solver|done|set_solver|].
    + apply lookup_insert_is_Some'. by right.
    + apply lookup_insert_is_Some'. right. by eexists.
Qed.
End Primitives.

(** ** Deciding the shapes, for concrete stores *)

Lemma lseg_b_sound m p xs q : lseg_b m p xs q = true -> lseg m p xs q.
Proof.
  revert p. induction xs as [|x xs IH]; intros p; simpl.
  - by intros ?%N.eqb_eq.
  - intros [?%N.eqb_eq H]%andb_prop. split; [done|].
    destruct (m !! x) as [n|]; [|done]. exists n. auto.
Qed.

Lemma queue_b_sound h head xs : queue_b h head xs = true -> queue h head xs.
Proof.
  unfold queue_b. rewrite !andb_true_iff.
  intros [[[[H1 H2] H3] H4] H5]. split.
  - by apply bool_decide_eq_true in H1.
  - by apply bool_decide_eq_true in H2.
  - by apply lseg_b_sound.
  - by apply lseg_b_sound.
  - apply Forall_forall. intros x Hx. rewrite forallb_forall in H5.
    apply list_elem_of_In in Hx. apply H5 in Hx.
    by apply bool_decide_eq_true in Hx.
Qed.

(** ** Insertion *)

Section Insertion.
Implicit Types (h : heap) (head m : N) (xs : list N) (s : string).

Lemma queue_frame h h' head xs :
  queue h head xs ->
  (forall k, k ∈ head :: xs -> h_next h' !! k = h_next h !! k) ->
  (forall k, k ∈ head :: xs -> h_prev h' !! k = h_prev h !! k) ->
  (forall k, k ∈ xs -> h_value h' !! k = h_value h !! k) ->
  queue h' head xs.
Proof.
  intros Q Hn Hp Hv. split; try apply Q.
  - eapply lseg_frame; [|apply Q]. done.
  - eapply lseg_frame; [|apply Q]. intros k Hk. apply Hp.
    rewrite elem_of_cons, elem_of_reverse in Hk. by apply elem_of_cons.
  - pose proof (q_vals _ _ _ Q) as H. rewrite Forall_forall in *.
    intros x Hx. rewrite Hv by done. auto.
Qed.

Lemma fresh_not_linked h head xs m :
  queue h head xs -> fresh h m -> m ∉ head :: xs.
Proof.
  intros Q (Hm & _) Hin.
  destruct (queue_next_is_Some _ _ _ _ Q Hin) as [? E]. congruence.
Qed.

Lemma with_element_queue h head xs m s :
  queue h head xs -> fresh h m -> m <> NULL ->
  queue (with_element h m s) head xs /\
  detached (with_element h m s) head xs m.
Proof.
  intros Q F Hm. pose proof (fresh_not_linked _ _ _ _ Q F) as Hnl.
  split.
  - apply (queue_frame h); [done|..]; simpl; intros k Hk;
      apply lookup_insert_ne; intros ->; apply Hnl; [done|done|by right].
  - repeat split; simpl; try done; rewrite lookup_insert_eq; by eexists.
Qed.

Lemma gained_of_relinked h h' head xs m s :
  relinked (m :: head :: xs) (with_element h m s) h' ->
  gained h h' head xs m s.
Proof.
  intros [Rn Rp Dn Dp Rv Rb]. simpl in *. split.
  - done.
  - by rewrite Dn, dom_insert_L.
  - by rewrite Dp, dom_insert_L.
  - intros k Hk. rewrite Rn by done. apply lookup_insert_ne.
    intros ->. apply Hk. left.
  - intros k Hk. rewrite Rp by done. apply lookup_insert_ne.
    intros ->. apply Hk. left.
  - done.
Qed.

Lemma malloc_free_id h m :
  fresh h m ->
  {| h_next := delete m (<[m := NULL]> (h_next h));
     h_prev := delete m (<[m := NULL]> (h_prev h));
     h_value := h_value h; h_bytes := h_bytes h |} = h.
Proof.
  intros (Hn & Hp & _). destruct h; simpl in *.
  by rewrite !delete_insert_id.
Qed.

Lemma q_insert_head_fails h head m ok s :
  (m <> NULL -> fresh h m) ->
  head = NULL \/ m = NULL \/ ok = false ->
  q_insert_head m ok head s h = Some (false, h).
Proof.
  intros F Hc. unfold q_insert_head.
  destruct (N.eqb_spec head NULL) as [|Hh]; [done|].
  unfold bind at 1, malloc_node.
  destruct (N.eqb_spec m NULL) as [|Hm]; [by subst|].
  destruct (N.eqb_spec m NULL) as [|_]; [done|].
  destruct Hc as [?|[?| ->]]; [done..|]. simpl.
  unfold bind, free_node, ret. simpl. rewrite lookup_insert_eq.
  by rewrite (malloc_free_id h m (F Hm)).
Qed.

Lemma q_insert_tail_fails h head m ok s :
  (m <> NULL -> fresh h m) ->
  head = NULL \/ m = NULL \/ ok = false ->
  q_insert_tail m ok head s h = Some (false, h).
Proof.
  intros F Hc. unfold q_insert_tail.
  destruct (N.eqb_spec head NULL) as [|Hh]; [done|].
  unfold bind at 1, malloc_node.
  destruct (N.eqb_spec m NULL) as [|Hm]; [by subst|].
  destruct (N.eqb_spec m NULL) as [|_]; [done|].
  destruct Hc as [?|[?| ->]]; [done..|]. simpl.
  unfold bind, free_node, ret. simpl. rewrite lookup_insert_eq.
  by rewrite (malloc_free_id h m (F Hm)).
Qed.

Lemma q_insert_head_succeeds h head xs m s :
  queue h head xs -> fresh h m -> m <> NULL ->
  exists h', q_insert_head m true head s h = Some (true, h') /\
             queue h' head (m :: xs) /\ gained h h' head xs m s.
Proof.
  intros Q F Hm.
  destruct (with_element_queue _ _ _ _ s Q F Hm) as [Q0 D0].
  destruct (queue_list_add _ _ _ _ Q0 D0) as (h' & Hrun & Q' & R).
  exists h'. split; [|split; [done | by apply gained_of_relinked]].
  unfold q_insert_head.
  assert (head <> NULL) as Hh.
  { intros ->. apply (q_nonnull _ _ _ Q). left. }
  destruct (N.eqb_spec head NULL) as [|_]; [done|].
  unfold bind at 1, malloc_node.
  destruct (N.eqb_spec m NULL) as [|_]; [done|].
  destruct (N.eqb_spec m NULL) as [|_]; [done|]. simpl.
  unfold bind at 1, store_value. simpl. rewrite lookup_insert_eq.
  unfold set_value. simpl. unfold with_element in *. simpl.
  by rewrite (run_bind _ _ _ _ _ Hrun).
Qed.

Lemma q_insert_tail_succeeds h head xs m s :
  queue h head xs -> fresh h m -> m <> NULL ->
  exists h', q_insert_tail m true head s h = Some (true, h') /\
             queue h' head (xs ++ [m]) /\ gained h h' head xs m s.
Proof.
  intros Q F Hm.
  destruct (with_element_queue _ _ _ _ s Q F Hm) as [Q0 D0].
  destruct (queue_list_add_tail _ _ _ _ Q0 D0) as (h' & Hrun & Q' & R).
  exists h'. split; [|split; [done | by apply gained_of_relinked]].
  unfold q_insert_tail.
  assert (head <> NULL) as Hh.
  { intros ->. apply (q_nonnull _ _ _ Q). left. }
  destruct (N.eqb_spec head NULL) as [|_]; [done|].
  unfold bind at 1, malloc_node.
  destruct (N.eqb_spec m NULL) as [|_]; [done|].
  destruct (N.eqb_spec m NULL) as [|_]; [done|]. simpl.
  unfold bind at 1, store_value. simpl. rewrite lookup_insert_eq.
  unfold set_value. simpl. unfold with_element in *. simpl.
  by rewrite (run_bind _ _ _ _ _ Hrun).
Qed.
End Insertion.

(** ** Removal *)

Section Removal.
Implicit Types (h : heap) (head x sp bufsize : N) (xs : list N).

Lemma strncpy_links n dst src h :
  exists h', strncpy n dst src h = Some (tt, h') /\
             h_next h' = h_next h /\ h_prev h' = h_prev h /\
             h_value h' = h_value h.
Proof.
  revert dst src h. induction n as [|n IH]; intros dst src h; simpl.
  - by exists h.
  - destruct src as [|c src]; unfold bind, store_byte.
    + destruct (IH ((dst + 1) mod SIZE_MOD) EmptyString (set_byte dst zero h))
        as (h' & -> & ? & ? & ?). by exists h'.
    + destruct (IH ((dst + 1) mod SIZE_MOD)
                   (if Ascii.eqb c zero then EmptyString else src)
                   (set_byte dst c h))
        as (h' & -> & ? & ? & ?). by exists h'.
Qed.

Lemma copy_out_links e sp bufsize h :
  is_Some (h_value h !! e) ->
  exists h', copy_out e sp bufsize h = Some (tt, h') /\
             h_next h' = h_next h /\ h_prev h' = h_prev h /\
             h_value h' = h_value h.
Proof.
  intros [v Hv]. unfold copy_out. rewrite (run_load_value _ _ _ _ Hv).
  destruct (strncpy_links (N.to_nat bufsize) sp v h)
    as (h' & Hrun & ? & ? & ?).
  rewrite (run_bind _ _ _ _ _ Hrun). unfold store_byte.
  eexists. split; [done|]. by simpl.
Qed.

Lemma queue_head_nonnull h head xs : queue h head xs -> head <> NULL.
Proof. intros Q ->. apply (q_nonnull _ _ _ Q). left. Qed.

Lemma list_empty_run h head xs :
  queue h head xs ->
  list_empty head h = Some (bool_decide (xs = []), h).
Proof.
  intros Q. unfold list_empty.
  rewrite (run_load_next _ _ _ _ (cycle_head _ _ _ (q_next _ _ _ Q))).
  unfold ret. do 2 f_equal. destruct xs as [|x xs]; simpl.
  - by rewrite N.eqb_refl.
  - apply N.eqb_neq. intros ->.
    pose proof (q_nodup _ _ _ Q) as Hnd. apply NoDup_cons in Hnd as [H _].
    apply H. left.
Qed.

Lemma kept_of_relinked l h h1 h' :
  relinked l h h1 ->
  h_next h' = h_next h1 -> h_prev h' = h_prev h1 ->
  h_value h' = h_value h1 -> kept h h'.
Proof.
  intros [_ _ Dn Dp Rv _] En Ep Ev. split; congruence.
Qed.

Lemma q_remove_head_empty h head sp bufsize :
  head = NULL \/ queue h head [] ->
  q_remove_head head sp bufsize h = Some (NULL, h).
Proof.
  unfold q_remove_head. intros [->|Q]; [done|].
  pose proof (queue_head_nonnull _ _ _ Q).
  destruct (N.eqb_spec head NULL) as [|_]; [done|].
  by rewrite (run_bind _ _ _ _ _ (list_empty_run _ _ _ Q)).
Qed.

Lemma q_remove_tail_empty h head sp bufsize :
  head = NULL \/ queue h head [] ->
  q_remove_tail head sp bufsize h = Some (NULL, h).
Proof.
  unfold q_remove_tail. intros [->|Q]; [done|].
  pose proof (queue_head_nonnull _ _ _ Q).
  destruct (N.eqb_spec head NULL) as [|_]; [done|].
  by rewrite (run_bind _ _ _ _ _ (list_empty_run _ _ _ Q)).
Qed.

Lemma strncpy_bytes n :
  forall dst src h,
    dst + N.of_nat n <= SIZE_MOD ->
    exists h',
      strncpy n dst src h = Some (tt, h') /\
      forall a,
        h_bytes h' !! a =
        if decide (dst <= a < dst + N.of_nat n)
        then Some (c_byte src (N.to_nat (a - dst)))
        else h_bytes h !! a.
Proof.
  induction n as [|n IH]; intros dst src h Hfit.
  - exists h. split; [done|]. intros a.
    destruct (decide (dst <= a < dst + N.of_nat 0)); [lia | done].
  - assert (n = 0%nat \/ (dst + 1) mod SIZE_MOD = dst + 1) as Hcase.
    { destruct n; [by left | right]. apply N.mod_small. lia. }
    assert (exists src' c,
               strncpy (S n) dst src
               = bind (store_byte dst c)
                      (fun _ => strncpy n ((dst + 1) mod SIZE_MOD) src') /\
               c = c_byte src 0 /\
               forall i, c_byte src' i = c_byte src (S i))
      as (src' & c & -> & Ec & Es).
    { destruct src as [|c src].
      - exists EmptyString, zero. done.
      - exists (if Ascii.eqb c zero then EmptyString else src), c.
        split; [done|]. simpl.
        destruct (Ascii.eqb_spec c zero) as [->|]; done. }
    unfold bind at 1, store_byte.
    destruct (IH ((dst + 1) mod SIZE_MOD) src' (set_byte dst c h))
      as (h' & Hrun & Hb).
    { destruct Hcase as [-> | ->]; [|lia].
      pose proof (N.mod_upper_bound (dst + 1) SIZE_MOD ltac:(done)). lia. }
    exists h'. split; [exact Hrun|]. intros a. rewrite Hb. simpl.
    destruct Hcase as [-> | ->].
    + destruct (decide ((dst + 1) mod SIZE_MOD <= a
                        < (dst + 1) mod SIZE_MOD + N.of_nat 0)); [lia|].
      destruct (decide (dst <= a < dst + N.of_nat 1)) as [Hin|Hout].
      * assert (a = dst) as -> by lia. rewrite lookup_insert_eq.
        by rewrite N.sub_diag, Ec.
      * apply lookup_insert_ne. lia.
    + destruct (decide (dst + 1 <= a < dst + 1 + N.of_nat n)) as [Hin|Hout].
      * rewrite decide_True by lia. f_equal. rewrite Es. f_equal. lia.
      * destruct (decide (dst <= a < dst + N.of_nat (S n))) as [Hin'|Hout'].
        -- assert (a = dst) as -> by lia. rewrite lookup_insert_eq.
           by rewrite N.sub_diag, Ec.
        -- apply lookup_insert_ne. lia.
Qed.

Lemma copy_out_bytes e sp bufsize h v :
  h_value h !! e = Some v ->
  0 < bufsize -> sp + bufsize <= SIZE_MOD ->
  forall h', copy_out e sp bufsize h = Some (tt, h') ->
             copied v sp bufsize (h_bytes h) (h_bytes h').
Proof.
  intros Hv Hpos Hfit h'. unfold copy_out.
  rewrite (run_load_value _ _ _ _ Hv).
  destruct (strncpy_bytes (N.to_nat bufsize) sp v h) as (h1 & Hrun & Hb);
    [lia|].
  rewrite (run_bind _ _ _ _ _ Hrun). unfold store_byte.
  intros [= <-]. intros a. simpl.
  assert ((bufsize + SIZE_MOD - 1) mod SIZE_MOD = bufsize - 1) as ->.
  { replace (bufsize + SIZE_MOD - 1) with (bufsize - 1 + 1 * SIZE_MOD)
      by lia.
    rewrite N.Div0.mod_add. apply N.mod_small. lia. }
  rewrite (N.mod_small (sp + (bufsize - 1))) by lia.
  destruct (decide (a = sp + (bufsize - 1))) as [->|Hne].
  - rewrite lookup_insert_eq, decide_True by lia.
    by rewrite decide_True by lia.
  - rewrite lookup_insert_ne by done. rewrite Hb.
    rewrite N2Nat.id.
    destruct (decide (sp <= a < sp + bufsize)); [|done].
    by rewrite decide_False by lia.
Qed.

(** The part of a removal that follows [list_del]. *)
Lemma copy_then_return h1 head xs x sp bufsize :
  queue h1 head xs -> is_Some (h_value h1 !! x) ->
  exists h',
    bind (if sp =? NULL then ret tt else copy_out x sp bufsize)
         (fun _ => ret x) h1 = Some (x, h') /\
    queue h' head xs /\
    h_next h' = h_next h1 /\ h_prev h' = h_prev h1 /\
    h_value h' = h_value h1 /\
    (sp = NULL -> h_bytes h' = h_bytes h1) /\
    (sp <> NULL -> 0 < bufsize -> sp + bufsize <= SIZE_MOD ->
     copied (valof (h_value h1) x) sp bufsize (h_bytes h1) (h_bytes h')).
Proof.
  intros Q Hv. destruct (N.eqb_spec sp NULL) as [Hsp|Hsp].
  - exists h1. split; [done|]. split; [done|]. by repeat split.
  - destruct (copy_out_links x sp bufsize h1 Hv) as (h' & Hrun & En & Ep & Ev).
    exists h'. rewrite (run_bind _ _ _ _ _ Hrun).
    split; [done|]. split; [|repeat split; try done].
    + apply (queue_frame h1); [done|..]; intros; congruence.
    + intros _ Hpos Hfit. destruct Hv as [v Hv]. unfold valof.
      rewrite Hv. simpl. by eapply copy_out_bytes.
Qed.

Lemma q_remove_head_unlinks h head x xs sp bufsize :
  queue h head (x :: xs) ->
  exists h', q_remove_head head sp bufsize h = Some (x, h') /\
             queue h' head xs /\ kept h h' /\
             (sp = NULL -> h_bytes h' = h_bytes h) /\
             (sp <> NULL -> 0 < bufsize -> sp + bufsize <= SIZE_MOD ->
              copied (valof (h_value h) x) sp bufsize
                     (h_bytes h) (h_bytes h')).
Proof.
  intros Q. unfold q_remove_head.
  pose proof (queue_head_nonnull _ _ _ Q).
  destruct (N.eqb_spec head NULL) as [|_]; [done|].
  rewrite (run_bind _ _ _ _ _ (list_empty_run _ _ _ Q)). simpl.
  pose proof (cycle_head _ _ _ (q_next _ _ _ Q)) as Hn. simpl in Hn.
  rewrite !(run_load_next _ _ _ _ Hn).
  destruct (queue_list_del h head [] x xs Q) as (h1 & Hdel & Q1 & R).
  rewrite (run_bind _ _ _ _ _ Hdel). simpl in Q1.
  assert (Hv : is_Some (h_value h1 !! x)).
  { rewrite (rl_value _ _ _ R).
    pose proof (q_vals _ _ _ Q) as Hv. by apply Forall_cons in Hv as [? _]. }
  destruct (copy_then_return h1 head xs x sp bufsize Q1 Hv)
    as (h' & Hrun & Q' & En & Ep & Ev & Hb0 & Hb).
  rewrite (rl_value _ _ _ R), (rl_bytes _ _ _ R) in Hb.
  rewrite (rl_bytes _ _ _ R) in Hb0.
  exists h'. split; [exact Hrun|]. split; [done|].
  split; [by apply (kept_of_relinked _ _ _ _ R) | done].
Qed.

Lemma q_remove_tail_unlinks h head x xs sp bufsize :
  queue h head (xs ++ [x]) ->
  exists h', q_remove_tail head sp bufsize h = Some (x, h') /\
             queue h' head xs /\ kept h h' /\
             (sp = NULL -> h_bytes h' = h_bytes h) /\
             (sp <> NULL -> 0 < bufsize -> sp + bufsize <= SIZE_MOD ->
              copied (valof (h_value h) x) sp bufsize
                     (h_bytes h) (h_bytes h')).
Proof.
  intros Q. unfold q_remove_tail.
  pose proof (queue_head_nonnull _ _ _ Q).
  destruct (N.eqb_spec head NULL) as [|_]; [done|].
  rewrite (run_bind _ _ _ _ _ (list_empty_run _ _ _ Q)).
  rewrite bool_decide_eq_false_2 by (by destruct xs).
  pose proof (cycle_head _ _ _ (q_prev _ _ _ Q)) as Hp.
  rewrite reverse_snoc in Hp. simpl in Hp.
  rewrite !(run_load_prev _ _ _ _ Hp).
  destruct (queue_list_del h head xs x [] Q) as (h1 & Hdel & Q1 & R).
  rewrite (run_bind _ _ _ _ _ Hdel). rewrite app_nil_r in Q1.
  assert (Hv : is_Some (h_value h1 !! x)).
  { rewrite (rl_value _ _ _ R).
    pose proof (q_vals _ _ _ Q) as Hv.
    apply Forall_app in Hv as [_ Hv]. by apply Forall_cons in Hv as [? _]. }
  destruct (copy_then_return h1 head xs x sp bufsize Q1 Hv)
    as (h' & Hrun & Q' & En & Ep & Ev & Hb0 & Hb).
  rewrite (rl_value _ _ _ R), (rl_bytes _ _ _ R) in Hb.
  rewrite (rl_bytes _ _ _ R) in Hb0.
  exists h'. split; [exact Hrun|]. split; [done|].
  split; [by apply (kept_of_relinked _ _ _ _ R) | done].
Qed.
End Removal.

(** ** Reversal *)

Section Reversal.
Implicit Types (h : heap) (head x : N) (xs pre post : list N).

Lemma queue_list_move h head pre x post :
  queue h head (pre ++ x :: post) ->
  exists h',
    list_move x head h = Some (tt, h') /\
    queue h' head (x :: pre ++ post) /\
    relinked (head :: pre ++ x :: post) h h'.
Proof.
  intros Q. destruct (queue_list_del _ _ _ _ _ Q) as (h1 & Hdel & Q1 & R1).
  pose proof (q_nodup _ _ _ Q) as Hnd.
  pose proof (q_nonnull _ _ _ Q) as Hnn.
  assert (Hin : x ∈ head :: pre ++ x :: post) by set_solver.
  assert (D : detached h1 head (pre ++ post) x).
  { split; [|split; [|split; [|split]]].
    - apply NoDup_cons in Hnd as [Hh Hnd].
      apply NoDup_app in Hnd as (_ & Hd & Hnd).
      apply NoDup_cons in Hnd as [Hx _]. set_solver.
    - intros ->. done.
    - eapply relinked_is_Some_next; [exact R1|].
      eapply queue_next_is_Some; eauto.
    - eapply relinked_is_Some_prev; [exact R1|].
      eapply queue_prev_is_Some; eauto.
    - rewrite (rl_value _ _ _ R1).
      pose proof (q_vals _ _ _ Q) as Hv. rewrite Forall_forall in Hv.
      apply Hv. set_solver. }
  destruct (queue_list_add _ _ _ _ Q1 D) as (h' & Hadd & Q' & R').
  exists h'. split; [|split; [done|]].
  - unfold list_move. by rewrite (run_bind _ _ _ _ _ Hdel).
  - eapply relinked_trans; (eapply relinked_mono; [|eassumption]);
      set_solver.
Qed.

Lemma q_reverse_loop_spec head rest :
  forall done h safe fuel,
    queue h head (done ++ rest) ->
    h_next h !! List.hd head rest = Some safe ->
    (length rest <= fuel)%nat ->
    exists h',
      q_reverse_loop fuel head (List.hd head rest) safe h = Some (tt, h') /\
      queue h' head (reverse rest ++ done) /\
      relinked (head :: done ++ rest) h h'.
Proof.
  induction rest as [|x rest IH]; intros done h safe fuel Q Hsafe Hfuel.
  - exists h. rewrite app_nil_r in *. simpl.
    split; [|split; [done | apply relinked_refl]].
    destruct fuel; simpl; by rewrite N.eqb_refl.
  - simpl in *. destruct fuel as [|fuel]; [lia|]. simpl.
    pose proof (q_nodup _ _ _ Q) as Hnd.
    assert (x <> head) as Hxh.
    { intros ->. apply NoDup_cons in Hnd as [Hh _]. set_solver. }
    destruct (N.eqb_spec x head) as [|_]; [done|].
    rewrite (cycle_mid _ _ _ _ _ (q_next _ _ _ Q)) in Hsafe.
    injection Hsafe as <-.
    destruct (queue_list_move _ _ _ _ _ Q) as (h1 & Hmove & Q1 & R1).
    rewrite (run_bind _ _ _ _ _ Hmove).
    destruct (queue_next_is_Some h1 head (x :: done ++ rest)
                (List.hd head rest) Q1) as [sn Hsn].
    { pose proof (hd_elem_of head rest). set_solver. }
    rewrite (run_load_next _ _ _ _ Hsn).
    destruct (IH (x :: done) h1 sn fuel Q1 Hsn ltac:(lia))
      as (h' & Hrun & Q' & R').
    exists h'. split; [done|]. split.
    + by rewrite reverse_cons, <- app_assoc.
    + eapply relinked_trans; [exact R1|].
      eapply relinked_mono; [|exact R']. set_solver.
Qed.

Lemma q_reverse_spec h head xs fuel :
  queue h head xs -> (length xs <= fuel)%nat ->
  exists h',
    q_reverse fuel head h = Some (tt, h') /\
    queue h' head (reverse xs) /\
    relinked (head :: xs) h h'.
Proof.
  intros Q Hfuel. unfold q_reverse.
  pose proof (queue_head_nonnull _ _ _ Q).
  destruct (N.eqb_spec head NULL) as [|_]; [done|].
  rewrite (run_bind _ _ _ _ _ (list_empty_run _ _ _ Q)).
  destruct xs as [|x xs].
  - exists h. simpl. split; [done|]. split; [done | apply relinked_refl].
  - rewrite bool_decide_eq_false_2 by done.
    pose proof (cycle_head _ _ _ (q_next _ _ _ Q)) as Hn. simpl in Hn.
    rewrite (run_load_next _ _ _ _ Hn).
    destruct (queue_next_is_Some h head (x :: xs) x Q) as [safe Hsafe];
      [set_solver|].
    rewrite (run_load_next _ _ _ _ Hsafe).
    destruct (q_reverse_loop_spec head (x :: xs) [] h safe fuel Q Hsafe Hfuel)
      as (h' & Hrun & Q' & R').
    exists h'. rewrite app_nil_r in Q'. done.
Qed.

Lemma q_reverse_twice h head xs fuel :
  queue h head xs -> (length xs <= fuel)%nat ->
  exists h',
    q_reverse fuel head h = Some (tt, h') /\
    q_reverse fuel head h' = Some (tt, h).
Proof.
  intros Q Hfuel.
  destruct (q_reverse_spec _ _ _ _ Q Hfuel) as (h1 & Hrun1 & Q1 & R1).
  destruct (q_reverse_spec h1 head (reverse xs) fuel Q1)
    as (h2 & Hrun2 & Q2 & R2); [by rewrite length_reverse|].
  rewrite reverse_involutive in Q2.
  exists h1. split; [done|]. rewrite Hrun2. do 2 f_equal.
  apply (queue_unique _ _ head xs); [done..|].
  eapply relinked_trans; [exact R1|].
  eapply relinked_mono; [|exact R2].
  intros k. rewrite !elem_of_cons, elem_of_reverse. done.
Qed.
End Reversal.

(** ** Deleting the middle node *)

Section DeleteMid.
Implicit Types (h : heap) (head x : N) (xs : list N).

Lemma nth_sentinel head xs i :
  NoDup (head :: xs) ->
  nth i (head :: xs) head = head <-> i = 0%nat \/ (length xs < i)%nat.
Proof.
  intros Hnd. apply NoDup_cons in Hnd as [Hh _]. split.
  - intros E. destruct i as [|i]; [by left | right]. simpl in E.
    destruct (nth_lookup_or_length xs i head) as [Hl|Hl]; [|lia].
    apply list_elem_of_lookup_2 in Hl. rewrite E in Hl. done.
  - intros [->|Hi]; [done|]. apply nth_overflow. simpl. lia.
Qed.

Lemma q_delete_mid_loop_eq fuel head fast idir :
  q_delete_mid_loop fuel head fast idir =
  if fast =? head then ret idir
  else
    bind (load_next fast) (fun fn =>
      if fn =? head then ret idir
      else
        match fuel with
        | O => fault
        | S fuel' =>
            bind (load_next idir) (fun idir' =>
              bind (load_next fn) (fun fnn =>
                q_delete_mid_loop fuel' head fnn idir'))
        end).
Proof. by destruct fuel. Qed.

Lemma half_spec (n k : nat) :
  (2 * k <= n)%nat -> (n <= 2 * k + 1)%nat -> (n / 2 = k)%nat.
Proof.
  intros H1 H2. pose proof (Nat.div_mod_eq n 2).
  pose proof (Nat.mod_upper_bound n 2). lia.
Qed.

Lemma half_lower (n k : nat) : (2 * k <= n)%nat -> (k <= n / 2)%nat.
Proof.
  intros H1. pose proof (Nat.div_mod_eq n 2).
  pose proof (Nat.mod_upper_bound n 2). lia.
Qed.

Lemma q_delete_mid_loop_spec h head xs :
  queue h head xs ->
  forall fuel k,
    (2 * k <= length xs)%nat -> (length xs / 2 <= k + fuel)%nat ->
    q_delete_mid_loop fuel head (nth (2 * k + 1) (head :: xs) head)
                      (nth k (head :: xs) head) h
    = Some (nth (length xs / 2) (head :: xs) head, h).
Proof.
  intros Q. pose proof (q_nodup _ _ _ Q) as Hnd.
  pose proof (q_next _ _ _ Q) as Hc. unfold cycle in Hc.
  assert (HL : length (head :: xs) = S (length xs)) by done.
  induction fuel as [|fuel IH]; intros k Hk Hfuel;
    rewrite q_delete_mid_loop_eq;
    (destruct (N.eqb_spec (nth (2 * k + 1) (head :: xs) head) head)
      as [E|Hne];
     [apply nth_sentinel in E as [E|E]; [lia| |done];
      rewrite (half_spec (length xs) k) by lia; done|]);
    (assert (2 * k + 1 < length (head :: xs))%nat as Hlt
       by (apply Nat.nle_gt; intros Hle; apply Hne; by apply nth_overflow));
    rewrite (run_load_next _ _ _ _ (lseg_nth _ _ _ _ _ Hc Hlt));
    (destruct (N.eqb_spec (nth (S (2 * k + 1)) (head :: xs) head) head)
      as [E|Hne'];
     [apply nth_sentinel in E as [E|E]; [lia| |done];
      rewrite (half_spec (length xs) k) by lia; done|]);
    (assert (S (2 * k + 1) < length (head :: xs))%nat as Hlt'
       by (apply Nat.nle_gt; intros Hle; apply Hne'; by apply nth_overflow)).
  - pose proof (half_lower (length xs) (S k)). lia.
  - rewrite (run_load_next _ _ _ _ (lseg_nth _ _ _ _ k Hc ltac:(lia))).
    rewrite (run_load_next _ _ _ _ (lseg_nth _ _ _ _ _ Hc Hlt')).
    replace (S (S (2 * k + 1))) with (2 * S k + 1)%nat by lia.
    apply IH; lia.
Qed.

Lemma q_release_element_run h x :
  is_Some (h_value h !! x) -> is_Some (h_next h !! x) ->
  q_release_element x h =
  Some (tt, {| h_next := delete x (h_next h);
               h_prev := delete x (h_prev h);
               h_value := delete x (h_value h);
               h_bytes := h_bytes h |}).
Proof.
  intros [v Hv] [n Hn]. unfold q_release_element, bind, free_value, free_node.
  rewrite Hv. simpl. by rewrite Hn.
Qed.

(** Unlinking a node of the queue and releasing it. *)
Lemma queue_delete_node h head pre x post :
  queue h head (pre ++ x :: post) ->
  exists h',
    bind (list_del x) (fun _ => q_release_element x) h = Some (tt, h') /\
    queue h' head (pre ++ post) /\ released h h' x.
Proof.
  intros Q. destruct (queue_list_del _ _ _ _ _ Q) as (h1 & Hdel & Q1 & R1).
  pose proof (q_nodup _ _ _ Q) as Hnd.
  assert (Hin : x ∈ head :: pre ++ x :: post) by set_solver.
  assert (Hx : x ∉ head :: pre ++ post).
  { apply NoDup_cons in Hnd as [Hh Hnd].
    apply NoDup_app in Hnd as (_ & Hd & Hnd).
    apply NoDup_cons in Hnd as [Hx _]. set_solver. }
  rewrite (run_bind _ _ _ _ _ Hdel).
  rewrite q_release_element_run.
  - eexists. split; [done|]. split.
    + apply (queue_frame h1); [done|..]; simpl; intros k Hk;
        apply lookup_delete_ne; intros ->; apply Hx; set_solver.
    + destruct R1 as [_ _ Dn Dp Rv Rb]. split; simpl.
      * by rewrite Rv.
      * by rewrite dom_delete_L, Dn.
      * by rewrite dom_delete_L, Dp.
      * done.
  - rewrite (rl_value _ _ _ R1).
    pose proof (q_vals _ _ _ Q) as Hv. rewrite Forall_forall in Hv.
    apply Hv. set_solver.
  - eapply relinked_is_Some_next; [exact R1|].
    eapply queue_next_is_Some; eauto.
Qed.

Lemma q_delete_mid_spec h head xs fuel :
  queue h head xs -> xs <> [] -> (length xs / 2 <= fuel)%nat ->
  exists h' x,
    xs !! (length xs / 2)%nat = Some x /\
    q_delete_mid fuel head h = Some (true, h') /\
    queue h' head (delete (length xs / 2)%nat xs) /\
    released h h' x.
Proof.
  intros Q Hne Hfuel.
  assert (length xs / 2 < length xs)%nat as Hlt.
  { destruct xs; [done|]. apply Nat.div_lt; simpl; lia. }
  destruct (lookup_lt_is_Some_2 xs _ Hlt) as [x Hx].
  pose proof (take_drop_middle _ _ _ Hx) as E.
  rewrite <- E in Q.
  destruct (queue_delete_node _ _ _ _ _ Q) as (h' & Hrun & Q' & Rel).
  rewrite E in Q. exists h', x. split; [done|].
  split; [|split; [by rewrite delete_take_drop | done]].
  unfold q_delete_mid.
  pose proof (queue_head_nonnull _ _ _ Q).
  destruct (N.eqb_spec head NULL) as [|_]; [done|].
  rewrite (run_bind _ _ _ _ _ (list_empty_run _ _ _ Q)).
  rewrite bool_decide_eq_false_2 by done.
  pose proof (q_next _ _ _ Q) as Hc. unfold cycle in Hc.
  rewrite (run_load_next _ _ _ _
             (lseg_nth _ _ _ _ 0 Hc ltac:(simpl; lia))).
  rewrite (run_bind _ _ _ _ _
             (q_delete_mid_loop_spec h head xs Q fuel 0
                ltac:(lia) ltac:(lia))).
  assert (length xs / 2 < length (head :: xs))%nat as Hlt2
    by (change (length (head :: xs)) with (S (length xs)); lia).
  rewrite !(run_load_next _ _ _ _ (lseg_nth _ _ _ _ _ Hc Hlt2)).
  simpl nth. rewrite (nth_lookup_Some _ _ _ _ Hx).
  rewrite <- bind_assoc_run. by rewrite (run_bind _ _ _ _ _ Hrun).
Qed.

Lemma q_delete_mid_empty h head fuel :
  head = NULL \/ queue h head [] ->
  q_delete_mid fuel head h = Some (false, h).
Proof.
  unfold q_delete_mid. intros [->|Q]; [done|].
  pose proof (queue_head_nonnull _ _ _ Q).
  destruct (N.eqb_spec head NULL) as [|_]; [done|].
  by rewrite (run_bind _ _ _ _ _ (list_empty_run _ _ _ Q)).
Qed.
End DeleteMid.

(** ** The order of [strcmp] *)

Section Strcmp.
Implicit Types (a b c : string).

Lemma strcmp_antisym a b : strcmp b a = (- strcmp a b)%Z.
Proof.
  revert b. induction a as [|x a IH]; intros [|y b]; simpl; try lia.
  rewrite (N.eqb_sym (N_of_ascii y)).
  destruct (N.eqb_spec (N_of_ascii x) (N_of_ascii y)) as [E|E].
  - rewrite E. destruct (N_of_ascii y =? 0); [done | apply IH].
  - lia.
Qed.

Lemma strcmp_refl a : strcmp a a = 0%Z.
Proof. pose proof (strcmp_antisym a a). lia. Qed.

Lemma strcmp_le_trans a b c :
  (strcmp a b <= 0)%Z -> (strcmp b c <= 0)%Z -> (strcmp a c <= 0)%Z.
Proof.
  revert b c. induction a as [|x a IH]; intros [|y b] [|z c]; simpl;
    try lia;
    repeat match goal with
           | |- context [N.eqb ?u ?v] => destruct (N.eqb_spec u v)
           end; try lia.
  apply IH.
Qed.
End Strcmp.

(** ** The order of the merge, on node sequences *)

Section MergeNodes.
Context (vl : gmap N string).
Implicit Types (a b x y : N) (l : list N).

Lemma merge_nodes_nil_l l2 : merge_nodes vl [] l2 = l2.
Proof. by destruct l2. Qed.

Lemma merge_nodes_nil_r l1 : merge_nodes vl l1 [] = l1.
Proof. by destruct l1. Qed.

Lemma merge_nodes_cons a l1 b l2 :
  merge_nodes vl (a :: l1) (b :: l2) =
  if (strcmp (valof vl a) (valof vl b) <? 0)%Z
  then a :: merge_nodes vl l1 (b :: l2)
  else b :: merge_nodes vl (a :: l1) l2.
Proof. done. Qed.

(** Induction along the merge. *)
Lemma merge_nodes_ind (P : list N -> list N -> list N -> Prop) :
  (forall l2, P [] l2 l2) ->
  (forall l1, P l1 [] l1) ->
  (forall a l1 b l2,
      (strcmp (valof vl a) (valof vl b) < 0)%Z ->
      P l1 (b :: l2) (merge_nodes vl l1 (b :: l2)) ->
      P (a :: l1) (b :: l2) (a :: merge_nodes vl l1 (b :: l2))) ->
  (forall a l1 b l2,
      (strcmp (valof vl b) (valof vl a) <= 0)%Z ->
      P (a :: l1) l2 (merge_nodes vl (a :: l1) l2) ->
      P (a :: l1) (b :: l2) (b :: merge_nodes vl (a :: l1) l2)) ->
  forall l1 l2, P l1 l2 (merge_nodes vl l1 l2).
Proof.
  intros Hl Hr Hlt Hge. induction l1 as [|a l1 IH1].
  - intros l2. rewrite merge_nodes_nil_l. apply Hl.
  - induction l2 as [|b l2 IH2].
    + apply Hr.
    + rewrite merge_nodes_cons.
      destruct (Z.ltb_spec (strcmp (valof vl a) (valof vl b)) 0) as [H|H].
      * apply Hlt; [done | apply IH1].
      * apply Hge; [|apply IH2]. rewrite strcmp_antisym. lia.
Qed.

Lemma merge_nodes_perm l1 l2 : merge_nodes vl l1 l2 ≡ₚ l1 ++ l2.
Proof.
  apply (merge_nodes_ind (fun l1 l2 r => r ≡ₚ l1 ++ l2)).
  - done.
  - intros l. by rewrite app_nil_r.
  - intros a k1 b k2 _ IH. simpl. by rewrite IH.
  - intros a k1 b k2 _ IH. rewrite IH. simpl.
    exact (Permutation_middle (a :: k1) k2 b).
Qed.

Lemma value_le_refl x : value_le vl x x.
Proof. unfold value_le. by rewrite strcmp_refl. Qed.

Lemma value_le_trans x y z :
  value_le vl x y -> value_le vl y z -> value_le vl x z.
Proof. apply strcmp_le_trans. Qed.

Lemma merge_nodes_sorted l1 l2 :
  StronglySorted (value_le vl) l1 -> StronglySorted (value_le vl) l2 ->
  StronglySorted (value_le vl) (merge_nodes vl l1 l2).
Proof.
  apply (merge_nodes_ind (fun l1 l2 r =>
    StronglySorted (value_le vl) l1 -> StronglySorted (value_le vl) l2 ->
    StronglySorted (value_le vl) r)); try done.
  - intros a k1 b k2 Hab IH S1 S2.
    apply StronglySorted_inv in S1 as [S1 F1].
    pose proof (StronglySorted_inv S2) as [_ F2].
    constructor; [by apply IH|].
    rewrite merge_nodes_perm. apply Forall_app. split; [done|].
    assert (value_le vl a b) as Hle by (unfold value_le; lia).
    constructor; [done|]. eapply Forall_impl; [exact F2|].
    intros y Hy. by eapply value_le_trans.
  - intros a k1 b k2 Hba IH S1 S2.
    apply StronglySorted_inv in S2 as [S2 F2].
    pose proof (StronglySorted_inv S1) as [_ F1].
    constructor; [by apply IH|].
    rewrite merge_nodes_perm. apply Forall_app. split; [|done].
    constructor; [done|]. eapply Forall_impl; [exact F1|].
    intros y Hy. by eapply value_le_trans.
Qed.

Lemma filter_same_value_none v l :
  Forall (fun x => ~ same_value vl v x) l ->
  filter (same_value vl v) l = [].
Proof.
  induction 1 as [|x l Hx _ IH]; [done|].
  rewrite filter_cons. by destruct (decide (same_value vl v x)).
Qed.

(** On a tie the second chain goes first: the nodes of the second chain
    that compare equal to [v] all come before those of the first. *)
Lemma merge_nodes_ties v l1 l2 :
  StronglySorted (value_le vl) l2 ->
  filter (same_value vl v) (merge_nodes vl l1 l2) =
  filter (same_value vl v) l2 ++ filter (same_value vl v) l1.
Proof.
  apply (merge_nodes_ind (fun l1 l2 r =>
    StronglySorted (value_le vl) l2 ->
    filter (same_value vl v) r =
    filter (same_value vl v) l2 ++ filter (same_value vl v) l1)).
  - intros l _. by rewrite app_nil_r.
  - done.
  - intros a k1 b k2 Hab IH S2. rewrite !(filter_cons _ a).
    destruct (decide (same_value vl v a)) as [Ha|Ha]; [|by apply IH].
    rewrite IH by done.
    assert (filter (same_value vl v) (b :: k2) = []) as ->; [|done].
    apply filter_same_value_none.
    apply StronglySorted_inv in S2 as [_ F2].
    assert (Forall (value_le vl b) (b :: k2)) as F.
    { constructor; [apply value_le_refl | done]. }
    eapply Forall_impl; [exact F|]. intros y Hby Hy.
    unfold same_value, value_le in *.
    (* a = v, y = v, b <= y, a < b *)
    assert (strcmp (valof vl y) (valof vl a) <= 0)%Z as Hya.
    { apply (strcmp_le_trans _ v); [lia|].
      rewrite strcmp_antisym. lia. }
    pose proof (strcmp_le_trans _ _ _ Hby Hya) as Hba.
    rewrite strcmp_antisym in Hba. lia.
  - intros a k1 b k2 Hba IH S2. apply StronglySorted_inv in S2 as [S2 _].
    rewrite !(filter_cons _ b).
    destruct (decide (same_value vl v b)); rewrite IH by done; done.
Qed.
End MergeNodes.

(** ** Writing [next] fields only *)

Section NextOnly.
Implicit Types (h : heap) (l : list N).

Lemma next_only_refl l h : next_only l h h.
Proof. by split. Qed.

Lemma next_only_trans l h1 h2 h3 :
  next_only l h1 h2 -> next_only l h2 h3 -> next_only l h1 h3.
Proof.
  intros [a1 b1 c1 d1 e1] [a2 b2 c2 d2 e2]. split; try congruence.
  intros k Hk. by rewrite a2, a1.
Qed.

Lemma next_only_mono l l' h h' :
  (forall k, k ∈ l -> k ∈ l') -> next_only l h h' -> next_only l' h h'.
Proof.
  intros Hsub [a b c d e]. split; try done.
  intros k Hk. apply a. eauto.
Qed.

Lemma next_only_set_next l h p q :
  p ∈ l -> is_Some (h_next h !! p) -> next_only l h (set_next p q h).
Proof.
  intros Hp [v Hv]. split; simpl; try done.
  - intros k Hk. apply lookup_insert_ne. by intros ->.
  - apply dom_insert_lookup_L. by eexists.
Qed.

Lemma next_only_is_Some l h h' k :
  next_only l h h' -> is_Some (h_next h !! k) -> is_Some (h_next h' !! k).
Proof.
  intros R. rewrite <- !elem_of_dom. by rewrite (no_next_dom _ _ _ R).
Qed.

End NextOnly.

(** ** Merging two chains *)

Section Merge.
Implicit Types (h : heap) (head p a b : N) (xs ys : list N) (ptr : indirect).

Lemma mergeTwoLists_loop_eq fuel head ptr l1 l2 :
  mergeTwoLists_loop fuel head ptr l1 l2 =
  if (l1 =? NULL) || (l2 =? NULL)
  then store_indirect ptr (N.lor l1 l2) head
  else
    match fuel with
    | O => fault
    | S fuel' =>
        bind (load_value l1) (fun v1 =>
        bind (load_value l2) (fun v2 =>
          let node_is_l1 := (strcmp v1 v2 <? 0)%Z in
          let node := if node_is_l1 then l1 else l2 in
          bind (store_indirect ptr node head) (fun head' =>
          bind (load_indirect ptr head') (fun cur =>
          bind (load_next node) (fun nn =>
            if node_is_l1
            then mergeTwoLists_loop fuel' head' (AddrNext cur) nn l2
            else mergeTwoLists_loop fuel' head' (AddrNext cur) l1 nn)))))
    end.
Proof. by destruct fuel. Qed.

Lemma store_indirect_run h ptr v head l :
  cursor_ok (h_next h) ptr l ->
  exists h' head',
    store_indirect ptr v head h = Some (head', h') /\
    load_indirect ptr head' h' = Some (v, h') /\
    cursor_reads (h_next h') ptr head' head v /\
    next_only (cursor_nodes ptr) h h' /\
    (forall k, k ∈ l -> h_next h' !! k = h_next h !! k).
Proof.
  destruct ptr as [|p]; simpl.
  - intros _. exists h, v. repeat split; try done.
  - intros [Hp Hs]. exists (set_next p v h), head.
    unfold bind, store_next, load_next. destruct Hs as [w Hw].
    rewrite Hw. simpl. rewrite lookup_insert_eq.
    repeat split; try done.
    + intros k Hk. apply lookup_insert_ne. intros ->. set_solver.
    + apply dom_insert_lookup_L. by eexists.
    + intros k Hk. apply lookup_insert_ne. by intros ->.
Qed.

Lemma NoDup_drop_mid xs b ys :
  NoDup (xs ++ b :: ys) -> (b ∉ xs ++ ys) /\ NoDup (xs ++ ys).
Proof.
  intros H. rewrite <- Permutation_middle in H.
  by apply NoDup_cons in H.
Qed.

(** The exit of the loop: one chain is empty and the other one is appended
    as a whole. *)
Lemma mergeTwoLists_loop_exit fuel h head ptr l1 l2 xs :
  (l1 = NULL /\ lseg (h_next h) l2 xs NULL) \/
  (l2 = NULL /\ lseg (h_next h) l1 xs NULL) ->
  cursor_ok (h_next h) ptr xs ->
  exists h' head',
    mergeTwoLists_loop fuel head ptr l1 l2 h = Some (head', h') /\
    lseg (h_next h') (List.hd NULL xs) xs NULL /\
    cursor_reads (h_next h') ptr head' head (List.hd NULL xs) /\
    next_only (cursor_nodes ptr ++ xs) h h'.
Proof.
  intros Hx Hc. rewrite mergeTwoLists_loop_eq.
  assert (((l1 =? NULL) || (l2 =? NULL) = true) /\
          lseg (h_next h) (N.lor l1 l2) xs NULL) as [-> Hseg].
  { destruct Hx as [[-> H]|[-> H]].
    - by rewrite N.lor_0_l.
    - by rewrite N.lor_0_r, orb_true_r. }
  pose proof (lseg_hd _ _ _ _ Hseg) as E. rewrite E in *. clear E.
  destruct (store_indirect_run h ptr (List.hd NULL xs) head _ Hc)
    as (h' & head' & Hrun & _ & Hr & Hno & Hk).
  exists h', head'. split; [exact Hrun|]. split; [|split; [done|]].
  - eapply lseg_frame; [|exact Hseg]. done.
  - eapply next_only_mono; [|exact Hno]. set_solver.
Qed.

Lemma mergeTwoLists_loop_spec fuel :
  forall xs1 xs2 h head ptr l1 l2,
    (length xs1 + length xs2 <= fuel)%nat ->
    lseg (h_next h) l1 xs1 NULL -> lseg (h_next h) l2 xs2 NULL ->
    NoDup (xs1 ++ xs2) -> NULL ∉ xs1 ++ xs2 ->
    Forall (fun x => is_Some (h_value h !! x)) (xs1 ++ xs2) ->
    cursor_ok (h_next h) ptr (xs1 ++ xs2) ->
    exists h' head',
      mergeTwoLists_loop fuel head ptr l1 l2 h = Some (head', h') /\
      lseg (h_next h') (List.hd NULL (merge_nodes (h_value h) xs1 xs2))
           (merge_nodes (h_value h) xs1 xs2) NULL /\
      cursor_reads (h_next h') ptr head' head
                   (List.hd NULL (merge_nodes (h_value h) xs1 xs2)) /\
      next_only (cursor_nodes ptr ++ xs1 ++ xs2) h h'.
Proof.
  induction fuel as [|fuel IH];
    intros xs1 xs2 h head ptr l1 l2 Hlen H1 H2 Hnd Hnn Hv Hc;
    pose proof (lseg_hd _ _ _ _ H1) as E1;
    pose proof (lseg_hd _ _ _ _ H2) as E2;
    (destruct xs1 as [|a xs1];
     [rewrite merge_nodes_nil_l; apply mergeTwoLists_loop_exit;
      [left; by split | done]|]);
    (destruct xs2 as [|b xs2];
     [rewrite merge_nodes_nil_r; rewrite app_nil_r in *;
      apply mergeTwoLists_loop_exit; [right; by split | done]|]);
    rewrite mergeTwoLists_loop_eq.
  - simpl in Hlen. lia.
  - simpl in E1, E2. subst l1 l2.
    assert (a <> NULL) as Ha by (intros ->; set_solver).
    assert (b <> NULL) as Hb by (intros ->; set_solver).
    destruct (N.eqb_spec a NULL) as [|_]; [done|].
    destruct (N.eqb_spec b NULL) as [|_]; [done|]. cbn [orb].
    pose proof Hv as Hv'. rewrite Forall_forall in Hv'.
    destruct (Hv' a ltac:(set_solver)) as [va Hva].
    destruct (Hv' b ltac:(set_solver)) as [vb Hvb].
    rewrite (run_load_value _ _ _ _ Hva), (run_load_value _ _ _ _ Hvb).
    assert (valof (h_value h) a = va) as Eva
        by (unfold valof; by rewrite Hva).
    assert (valof (h_value h) b = vb) as Evb
        by (unfold valof; by rewrite Hvb).
    rewrite merge_nodes_cons, Eva, Evb. cbv zeta.
    simpl in H1, H2.
    destruct H1 as (_ & na & Hna & H1). destruct H2 as (_ & nb & Hnb & H2).
    pose proof Hnd as Hnd'. simpl in Hnd'.
    apply NoDup_cons in Hnd' as [Ha1 Hnd1].
    destruct (NoDup_drop_mid (a :: xs1) b xs2 Hnd) as [Hb2 Hnd2].
    destruct (Z.ltb_spec (strcmp va vb) 0) as [Hlt|Hge].
    + destruct (store_indirect_run h ptr a head _ Hc)
        as (h1 & head1 & Hrun & Hload & Hr & Hno & Hk).
      rewrite (run_bind _ _ _ _ _ Hrun), (run_bind _ _ _ _ _ Hload).
      assert (h_next h1 !! a = Some na) as Hna1
          by (rewrite Hk; [done | set_solver]).
      rewrite (run_load_next _ _ _ _ Hna1).
      destruct (IH xs1 (b :: xs2) h1 head1 (AddrNext a) na b) as
          (h' & head' & Hrun' & Hseg & [-> Hra] & Hno').
      * simpl in *. lia.
      * eapply lseg_frame; [|exact H1]. intros k Hk'. apply Hk. set_solver.
      * eapply lseg_frame; [|split; [done|]; exists nb; split; eassumption].
        intros k Hk'. apply Hk. set_solver.
      * done.
      * set_solver.
      * rewrite (no_value _ _ _ Hno). rewrite Forall_forall.
        intros k Hk'. apply Hv'. set_solver.
      * split; [done | by eexists].
      * rewrite (no_value _ _ _ Hno) in *.
        exists h', head1. split; [exact Hrun'|]. split; [|split].
        -- simpl. split; [done|]. by exists
             (List.hd NULL (merge_nodes (h_value h) xs1 (b :: xs2))).
        -- destruct ptr as [|p]; simpl in *; [done|].
           destruct Hr as [-> Hp]. split; [done|].
           rewrite (no_next _ _ _ Hno'); [done|].
           destruct Hc as [Hc _]. set_solver.
        -- eapply next_only_trans;
             (eapply next_only_mono; [|eassumption]); set_solver.
    + destruct (store_indirect_run h ptr b head _ Hc)
        as (h1 & head1 & Hrun & Hload & Hr & Hno & Hk).
      rewrite (run_bind _ _ _ _ _ Hrun), (run_bind _ _ _ _ _ Hload).
      assert (h_next h1 !! b = Some nb) as Hnb1
          by (rewrite Hk; [done | set_solver]).
      rewrite (run_load_next _ _ _ _ Hnb1).
      destruct (IH (a :: xs1) xs2 h1 head1 (AddrNext b) a nb) as
          (h' & head' & Hrun' & Hseg & [-> Hrb] & Hno').
      * simpl in *. lia.
      * eapply lseg_frame; [|split; [done|]; exists na; split; eassumption].
        intros k Hk'. apply Hk. set_solver.
      * eapply lseg_frame; [|exact H2]. intros k Hk'. apply Hk. set_solver.
      * done.
      * set_solver.
      * rewrite (no_value _ _ _ Hno). rewrite Forall_forall.
        intros k Hk'. apply Hv'. set_solver.
      * split; [done | by eexists].
      * rewrite (no_value _ _ _ Hno) in *.
        exists h', head1. split; [exact Hrun'|]. split; [|split].
        -- simpl. split; [done|]. by exists
             (List.hd NULL (merge_nodes (h_value h) (a :: xs1) xs2)).
        -- destruct ptr as [|p]; simpl in *; [done|].
           destruct Hr as [-> Hp]. split; [done|].
           rewrite (no_next _ _ _ Hno'); [done|].
           destruct Hc as [Hc _]. set_solver.
        -- eapply next_only_trans;
             (eapply next_only_mono; [|eassumption]); set_solver.
Qed.
End Merge.

(** ** Merge sort of a chain *)

Section MergeSort.
Implicit Types (h : heap) (p x : N) (xs ys : list N).

Lemma mergeTwoLists_spec fuel xs1 xs2 h l1 l2 :
  (length xs1 + length xs2 <= fuel)%nat ->
  lseg (h_next h) l1 xs1 NULL -> lseg (h_next h) l2 xs2 NULL ->
  NoDup (xs1 ++ xs2) -> NULL ∉ xs1 ++ xs2 ->
  Forall (fun x => is_Some (h_value h !! x)) (xs1 ++ xs2) ->
  exists h',
    mergeTwoLists fuel l1 l2 h
    = Some (List.hd NULL (merge_nodes (h_value h) xs1 xs2), h') /\
    lseg (h_next h') (List.hd NULL (merge_nodes (h_value h) xs1 xs2))
         (merge_nodes (h_value h) xs1 xs2) NULL /\
    next_only (xs1 ++ xs2) h h'.
Proof.
  intros Hlen H1 H2 Hnd Hnn Hv.
  destruct (mergeTwoLists_loop_spec fuel xs1 xs2 h NULL AddrLocal l1 l2)
    as (h' & head' & Hrun & Hseg & Hr & Hno); try done.
  simpl in Hr. subst head'. by exists h'.
Qed.

Lemma nth_null_iff xs i :
  NULL ∉ xs -> nth i xs NULL = NULL <-> (length xs <= i)%nat.
Proof.
  intros Hnn. split.
  - intros E. destruct (nth_lookup_or_length xs i NULL) as [Hl|Hl]; [|done].
    apply list_elem_of_lookup_2 in Hl. rewrite E in Hl. done.
  - apply nth_overflow.
Qed.

Lemma mergesort_split_eq fuel slow fast :
  mergesort_split fuel slow fast =
  if fast =? NULL then ret slow
  else
    bind (load_next fast) (fun fn =>
      if fn =? NULL then ret slow
      else
        match fuel with
        | O => fault
        | S fuel' =>
            bind (load_next slow) (fun slow' =>
              bind (load_next fn) (fun fnn =>
                mergesort_split fuel' slow' fnn))
        end).
Proof. by destruct fuel. Qed.

(** The slow pointer stops on the node of index [(n - 1) / 2]. *)
Lemma mergesort_split_spec h p xs :
  lseg (h_next h) p xs NULL -> NULL ∉ xs ->
  forall fuel k,
    (2 * k + 1 <= length xs)%nat ->
    ((length xs - 1) / 2 <= k + fuel)%nat ->
    mergesort_split fuel (nth k xs NULL) (nth (2 * k + 1) xs NULL) h
    = Some (nth ((length xs - 1) / 2) xs NULL, h).
Proof.
  intros Hc Hnn.
  induction fuel as [|fuel IH]; intros k Hk Hfuel;
    rewrite mergesort_split_eq;
    (destruct (N.eqb_spec (nth (2 * k + 1) xs NULL) NULL) as [E|Hne];
     [apply nth_null_iff in E; [|done];
      rewrite (half_spec (length xs - 1) k) by lia; done|]);
    (assert (2 * k + 1 < length xs)%nat as Hlt
       by (apply Nat.nle_gt; intros Hle; apply Hne; by apply nth_overflow));
    rewrite (run_load_next _ _ _ _ (lseg_nth _ _ _ _ _ Hc Hlt));
    (destruct (N.eqb_spec (nth (S (2 * k + 1)) xs NULL) NULL) as [E|Hne'];
     [apply nth_null_iff in E; [|done];
      rewrite (half_spec (length xs - 1) k) by lia; done|]);
    (assert (S (2 * k + 1) < length xs)%nat as Hlt'
       by (apply Nat.nle_gt; intros Hle; apply Hne'; by apply nth_overflow)).
  - pose proof (half_lower (length xs - 1) (S k)). lia.
  - rewrite (run_load_next _ _ _ _ (lseg_nth _ _ _ _ k Hc ltac:(lia))).
    rewrite (run_load_next _ _ _ _ (lseg_nth _ _ _ _ _ Hc Hlt')).
    replace (S (S (2 * k + 1))) with (2 * S k + 1)%nat by lia.
    apply IH; lia.
Qed.

(** Severing the link after [x] cuts a segment in two. *)
Lemma lseg_cut (nx : gmap N N) p l1 x l2 q :
  NoDup (l1 ++ x :: l2) ->
  lseg nx p (l1 ++ x :: l2) q ->
  nx !! x = Some (List.hd q l2) /\
  lseg (<[x := NULL]> nx) p (l1 ++ [x]) NULL /\
  lseg (<[x := NULL]> nx) (List.hd q l2) l2 q.
Proof.
  intros Hnd H. pose proof (lseg_mid _ _ _ _ _ _ H) as Hx.
  destruct (NoDup_drop_mid _ _ _ Hnd) as [Hx' _].
  apply lseg_app in H as (r & H1 & -> & n & Hn & H2).
  rewrite Hx in Hn. injection Hn as <-.
  split; [done|]. split.
  - apply lseg_snoc. split; [|by rewrite lookup_insert_eq].
    apply lseg_insert; [set_solver | done].
  - apply lseg_insert; [set_solver | done].
Qed.

Lemma hd_drop (d : N) xs i : List.hd d (drop i xs) = nth i xs d.
Proof.
  revert i. induction xs as [|x xs IH]; intros [|i]; simpl; auto.
Qed.

Lemma mergesort_eq fuel head :
  mergesort (S fuel) head =
  if head =? NULL then ret head
  else
    bind (load_next head) (fun hn =>
      if hn =? NULL then ret head
      else
        bind (load_next head) (fun fast =>
        bind (mergesort_split fuel head fast) (fun slow =>
        bind (load_next slow) (fun right =>
        bind (store_next slow NULL) (fun _ =>
        bind (mergesort fuel head) (fun left =>
        bind (mergesort fuel right) (fun right' =>
          mergeTwoLists fuel left right'))))))).
Proof. done. Qed.

Lemma sorted_from_short (vl : gmap N string) xs :
  (length xs <= 1)%nat -> sorted_from vl xs xs.
Proof.
  intros Hl. destruct xs as [|x [|y xs]]; [| |simpl in Hl; lia].
  - split; [done | constructor | done].
  - split; [done | by repeat constructor |].
    intros v. rewrite !filter_cons, filter_nil.
    by destruct (decide (same_value vl v x)).
Qed.

Lemma sorted_from_merge (vl : gmap N string) l r ysl ysr :
  sorted_from vl l ysl -> sorted_from vl r ysr ->
  sorted_from vl (l ++ r) (merge_nodes vl ysl ysr).
Proof.
  intros [Pl Sl Tl] [Pr Sr Tr]. split.
  - by rewrite merge_nodes_perm, Pl, Pr.
  - by apply merge_nodes_sorted.
  - intros v. rewrite merge_nodes_ties by done.
    by rewrite Tl, Tr, filter_app, reverse_app.
Qed.

Lemma mergesort_spec fuel :
  forall xs h p,
    (length xs < fuel)%nat ->
    lseg (h_next h) p xs NULL -> NoDup xs -> NULL ∉ xs ->
    Forall (fun x => is_Some (h_value h !! x)) xs ->
    exists h' ys,
      mergesort fuel p h = Some (List.hd NULL ys, h') /\
      lseg (h_next h') (List.hd NULL ys) ys NULL /\
      sorted_from (h_value h) xs ys /\
      next_only xs h h'.
Proof.
  induction fuel as [|fuel IH]; intros xs h p Hlen Hc Hnd Hnn Hv; [lia|].
  rewrite mergesort_eq.
  destruct (decide (length xs <= 1)%nat) as [Hshort|Hlong].
  { exists h, xs. split; [|split; [|split]].
    - rewrite (lseg_hd _ _ _ _ Hc).
      destruct xs as [|x [|y xs]]; [done| |simpl in Hshort; lia]. simpl.
      destruct Hc as (_ & n & Hn & ->).
      assert (x <> NULL) by (intros ->; set_solver).
      destruct (N.eqb_spec x NULL) as [|_]; [done|].
      by rewrite (run_load_next _ _ _ _ Hn).
    - by rewrite <- (lseg_hd _ _ _ _ Hc).
    - by apply sorted_from_short.
    - apply next_only_refl. }
  set (n := length xs) in *.
  set (k := ((n - 1) / 2)%nat).
  assert (k + 1 < n)%nat as Hk.
  { subst k. pose proof (Nat.div_mod_eq (n - 1) 2).
    pose proof (Nat.mod_upper_bound (n - 1) 2). lia. }
  pose proof (lseg_hd _ _ _ _ Hc) as Ep.
  assert (p = nth 0 xs NULL) as E0 by (rewrite Ep; by destruct xs).
  assert (p <> NULL) as Hp.
  { rewrite E0. intros E. apply nth_null_iff in E; [lia | done]. }
  destruct (N.eqb_spec p NULL) as [|_]; [done|].
  pose proof (lseg_nth _ _ _ _ 0 Hc ltac:(lia)) as Hn0. rewrite <- E0 in Hn0.
  rewrite (run_load_next _ _ _ _ Hn0).
  destruct (N.eqb_spec (nth 1 xs NULL) NULL) as [E|_].
  { apply nth_null_iff in E; [lia | done]. }
  rewrite (run_load_next _ _ _ _ Hn0).
  pose proof (mergesort_split_spec h p xs Hc Hnn fuel 0
                ltac:(lia) ltac:(fold n; fold k; lia)) as Hsplit.
  fold n in Hsplit. fold k in Hsplit. rewrite <- E0 in Hsplit.
  rewrite (run_bind _ _ _ _ _ Hsplit).
  destruct (lookup_lt_is_Some_2 xs k ltac:(lia)) as [slow Hslow].
  rewrite (nth_lookup_Some _ _ _ _ Hslow).
  pose proof (take_drop_middle _ _ _ Hslow) as Exs.
  set (L := take k xs ++ [slow]). set (R := drop (S k) xs).
  assert (xs = L ++ R) as EX
      by (subst L R; by rewrite <- app_assoc).
  rewrite <- Exs in Hc, Hnd.
  destruct (lseg_cut _ _ _ _ _ _ Hnd Hc) as (Hright & HL & HR).
  rewrite Exs in Hnd. fold L in HL. fold R in HR, Hright.
  rewrite (run_load_next _ _ _ _ Hright).
  rewrite run_store_next by by eexists.
  set (h1 := set_next slow NULL h).
  assert (length L = S k) as HlenL.
  { subst L. rewrite length_app, length_take. simpl. lia. }
  assert (length R = (n - S k)%nat) as HlenR.
  { subst R. by rewrite length_drop. }
  assert (NoDup L /\ NoDup R /\ forall y, y ∈ L -> y ∉ R)
    as (HndL & HndR & Hdisj).
  { rewrite EX in Hnd. apply NoDup_app in Hnd. tauto. }
  assert (Hsub : forall y, y ∈ L ++ R <-> y ∈ xs) by (by rewrite EX).
  assert (HvL : forall hh, h_value hh = h_value h ->
              Forall (fun x => is_Some (h_value hh !! x)) L).
  { intros hh ->. rewrite Forall_forall in *. intros y Hy.
    apply Hv, Hsub. set_solver. }
  assert (HvR : forall hh, h_value hh = h_value h ->
              Forall (fun x => is_Some (h_value hh !! x)) R).
  { intros hh ->. rewrite Forall_forall in *. intros y Hy.
    apply Hv, Hsub. set_solver. }
  (* the left half *)
  destruct (IH L h1 p ltac:(lia) HL HndL) as (h2 & ysl & Hrun2 & Hc2 & S2 & N2).
  { intros Hin. apply Hnn, Hsub. set_solver. }
  { by apply HvL. }
  rewrite (run_bind _ _ _ _ _ Hrun2).
  (* the right half *)
  destruct (IH R h2 (List.hd NULL R) ltac:(lia)) as
      (h3 & ysr & Hrun3 & Hc3 & S3 & N3).
  { eapply lseg_frame; [|exact HR]. intros y Hy.
    apply (no_next _ _ _ N2). intros Hin. by apply (Hdisj y). }
  { done. }
  { intros Hin. apply Hnn, Hsub. set_solver. }
  { apply HvR. by rewrite (no_value _ _ _ N2). }
  rewrite (run_bind _ _ _ _ _ Hrun3).
  rewrite (no_value _ _ _ N2) in S3. simpl in S2, S3.
  pose proof (sf_perm _ _ _ S2) as P2. pose proof (sf_perm _ _ _ S3) as P3.
  (* the merge *)
  destruct (mergeTwoLists_spec fuel ysl ysr h3
              (List.hd NULL ysl) (List.hd NULL ysr))
    as (h4 & Hrun4 & Hc4 & N4).
  { rewrite P2, P3. lia. }
  { eapply lseg_frame; [|exact Hc2]. intros y Hy.
    apply (no_next _ _ _ N3). rewrite P2 in Hy. by apply Hdisj. }
  { done. }
  { by rewrite P2, P3, <- EX. }
  { rewrite P2, P3, <- EX. done. }
  { rewrite Forall_forall. intros y Hy. rewrite P2, P3 in Hy.
    rewrite (no_value _ _ _ N3), (no_value _ _ _ N2). simpl.
    rewrite Forall_forall in Hv. by apply Hv, Hsub. }
  rewrite (no_value _ _ _ N3), (no_value _ _ _ N2) in Hrun4, Hc4.
  simpl in Hrun4, Hc4.
  exists h4, (merge_nodes (h_value h) ysl ysr).
  split; [exact Hrun4|]. split; [exact Hc4|]. split.
  - rewrite EX. by apply sorted_from_merge.
  - eapply next_only_trans; [|eapply next_only_trans;
                               [|eapply next_only_trans]].
    + apply (next_only_set_next xs h slow NULL); [|by eexists].
      apply Hsub. subst L. set_solver.
    + eapply next_only_mono; [|exact N2]. intros y Hy. apply Hsub.
      set_solver.
    + eapply next_only_mono; [|exact N3]. intros y Hy. apply Hsub.
      set_solver.
    + eapply next_only_mono; [|exact N4]. intros y Hy. apply Hsub.
      by rewrite P2, P3 in Hy.
Qed.
End MergeSort.

(** ** Sorting a queue *)

Section Sort.
Implicit Types (h : heap) (head l prev x : N) (xs ys : list N).

Lemma q_sort_rethread_eq fuel l prev :
  q_sort_rethread fuel l prev =
  bind (load_next l) (fun ln =>
    if ln =? NULL then ret l
    else
      match fuel with
      | O => fault
      | S fuel' =>
          bind (store_prev l prev) (fun _ =>
            bind (load_next l) (fun l' => q_sort_rethread fuel' l' l))
      end).
Proof. by destruct fuel. Qed.

Lemma q_sort_rethread_spec ys :
  forall fuel h l prev,
    lseg (h_next h) l ys NULL -> ys <> [] -> NoDup ys -> NULL ∉ ys ->
    Forall (fun y => is_Some (h_prev h !! y)) ys ->
    (length ys <= S fuel)%nat ->
    exists h',
      q_sort_rethread fuel l prev h = Some (List.last ys NULL, h') /\
      h_next h' = h_next h /\ h_value h' = h_value h /\
      h_bytes h' = h_bytes h /\
      dom (h_prev h') = dom (h_prev h) /\
      same_outside (removelast ys) (h_prev h) (h_prev h') /\
      lseg (h_prev h') (List.hd prev (reverse (removelast ys)))
           (reverse (removelast ys)) prev.
Proof.
  induction ys as [|y ys IH]; intros fuel h l prev Hc Hne Hnd Hnn Hp Hlen;
    [done|].
  rewrite q_sort_rethread_eq. destruct Hc as (-> & n & Hn & Hc).
  rewrite (run_load_next _ _ _ _ Hn).
  destruct ys as [|y2 ys].
  - simpl in Hc. subst n. simpl. exists h. repeat split; try done.
  - pose proof (lseg_hd _ _ _ _ Hc) as E. simpl in E. subst n.
    assert (y2 <> NULL) as Hy2 by (intros ->; set_solver).
    destruct (N.eqb_spec y2 NULL) as [|_]; [done|].
    destruct fuel as [|fuel]; [simpl in Hlen; lia|].
    apply Forall_cons in Hp as [Hpy Hp].
    apply NoDup_cons in Hnd as [Hy Hnd].
    rewrite run_store_prev by done.
    rewrite (run_load_next (A := N) y y2) by done.
    destruct (IH fuel (set_prev y prev h) y2 y) as
        (h' & Hrun & En & Ev & Eb & Dp & Ho & Hs); try done.
    + set_solver.
    + eapply Forall_impl; [exact Hp|]. intros k Hk. simpl.
      apply lookup_insert_is_Some'. by right.
    + simpl in *. lia.
    + exists h'. split; [exact Hrun|].
      change (removelast (y :: y2 :: ys))
        with (y :: removelast (y2 :: ys)).
      assert (y ∉ removelast (y2 :: ys)) as Hyr.
      { intros Hin. apply Hy.
        destruct (exists_last (l := y2 :: ys) ltac:(done))
          as (B & z & EB).
        rewrite EB, removelast_last in Hin. rewrite EB. set_solver. }
      split; [exact En|]. split; [exact Ev|]. split; [exact Eb|].
      split; [|split].
      * rewrite Dp. simpl. by apply dom_insert_lookup_L.
      * intros k Hk. rewrite Ho by set_solver. simpl.
        apply lookup_insert_ne. set_solver.
      * rewrite reverse_cons.
        assert (h_prev h' !! y = Some prev) as Hy'.
        { rewrite Ho by done. simpl. by rewrite lookup_insert_eq. }
        apply lseg_snoc. split; [|done].
        by destruct (reverse (removelast (y2 :: ys))).
Qed.

Lemma last_neq_hd (d : N) xs :
  NoDup xs -> (2 <= length xs)%nat -> List.last xs d <> List.hd d xs.
Proof.
  destruct xs as [|x [|y xs]]; [simpl; lia..|]. intros Hnd _ E.
  apply NoDup_cons in Hnd as [Hx _]. apply Hx.
  change (List.last (x :: y :: xs) d) with (List.last (y :: xs) d) in E.
  change (List.hd d (x :: y :: xs)) with x in E. rewrite <- E.
  destruct (exists_last (l := y :: xs) ltac:(done)) as (B & z & ->).
  rewrite last_last. set_solver.
Qed.

Lemma last_default (d d' : N) xs :
  xs <> [] -> List.last xs d = List.last xs d'.
Proof.
  intros H. destruct (exists_last H) as (B & z & ->). by rewrite !last_last.
Qed.

Lemma list_is_singular_run h head xs :
  queue h head xs ->
  list_is_singular head h = Some (bool_decide (length xs = 1%nat), h).
Proof.
  intros Q. unfold list_is_singular.
  rewrite (run_bind _ _ _ _ _ (list_empty_run _ _ _ Q)).
  destruct xs as [|x xs]; [done|].
  rewrite bool_decide_eq_false_2 by done.
  pose proof (cycle_head _ _ _ (q_prev _ _ _ Q)) as Hp.
  rewrite hd_rev_last in Hp.
  pose proof (cycle_head _ _ _ (q_next _ _ _ Q)) as Hn.
  rewrite (run_load_prev _ _ _ _ Hp), (run_load_next _ _ _ _ Hn).
  unfold ret. do 2 f_equal.
  pose proof (q_nodup _ _ _ Q) as Hnd. apply NoDup_cons in Hnd as [_ Hnd].
  destruct xs as [|y xs].
  - simpl. by rewrite N.eqb_refl.
  - rewrite bool_decide_eq_false_2 by (simpl; lia).
    apply N.eqb_neq. apply last_neq_hd; [done | simpl; lia].
Qed.

Lemma q_sort_short h head xs fuel :
  head = NULL \/ (queue h head xs /\ (length xs <= 1)%nat) ->
  q_sort fuel head h = Some (tt, h).
Proof.
  unfold q_sort. intros [->|[Q Hlen]]; [done|].
  pose proof (queue_head_nonnull _ _ _ Q).
  destruct (N.eqb_spec head NULL) as [|_]; [done|].
  rewrite (run_bind _ _ _ _ _ (list_empty_run _ _ _ Q)).
  destruct xs as [|x xs]; [done|].
  rewrite bool_decide_eq_false_2 by done.
  rewrite (run_bind _ _ _ _ _ (list_is_singular_run _ _ _ Q)).
  rewrite bool_decide_eq_true_2; [done|].
  destruct xs; [done | simpl in Hlen; lia].
Qed.
Lemma q_sort_spec h head xs fuel :
  queue h head xs -> (2 <= length xs)%nat -> (length xs < fuel)%nat ->
  exists h' ys,
    q_sort fuel head h = Some (tt, h') /\ sorted_queue h h' head xs ys.
Proof.
  intros Q Hlen Hfuel. unfold q_sort.
  pose proof (queue_head_nonnull _ _ _ Q) as Hh.
  pose proof (q_nodup _ _ _ Q) as Hnd.
  pose proof (q_nonnull _ _ _ Q) as Hnn.
  apply NoDup_cons in Hnd as [Hhx Hndx].
  assert (xs <> []) as Hne by (intros ->; simpl in Hlen; lia).
  destruct (N.eqb_spec head NULL) as [|_]; [done|].
  rewrite (run_bind _ _ _ _ _ (list_empty_run _ _ _ Q)).
  rewrite bool_decide_eq_false_2 by done.
  rewrite (run_bind _ _ _ _ _ (list_is_singular_run _ _ _ Q)).
  rewrite bool_decide_eq_false_2 by lia.
  pose proof (cycle_head _ _ _ (q_prev _ _ _ Q)) as Hp.
  rewrite hd_rev_last in Hp. rewrite (run_load_prev _ _ _ _ Hp).
  (* the ring is opened after its last node *)
  pose proof (app_removelast_last head Hne) as Exs.
  pose proof (last_elem_of head xs) as Hz.
  revert Hp Exs Hz. generalize (List.last xs head) as z.
  intros z Hp Exs Hz.
  assert (z ∈ xs) as Hzx by (rewrite Exs; set_solver).
  pose proof (q_next _ _ _ Q) as Hc. unfold cycle in Hc.
  rewrite Exs, app_comm_cons in Hc.
  destruct (lseg_cut _ _ _ _ _ _ ltac:(
              rewrite <- app_comm_cons, <- Exs; by apply NoDup_cons) Hc)
    as (Hzn & Hc1 & _).
  rewrite <- app_comm_cons, <- Exs in Hc1.
  destruct Hc1 as (_ & first & Hfirst & Hc1).
  rewrite run_store_next by by eexists.
  set (h1 := set_next z NULL h) in *.
  rewrite (run_load_next (A := unit) head first) by exact Hfirst.
  (* the chain is sorted *)
  destruct (mergesort_spec fuel xs h1 first Hfuel Hc1 Hndx
              ltac:(set_solver) (q_vals _ _ _ Q))
    as (h2 & ys & Hrun2 & Hc2 & S2 & N2).
  rewrite (run_bind _ _ _ _ _ Hrun2).
  pose proof (sf_perm _ _ _ S2) as P2.
  assert (Hsub : forall k, k ∈ ys <-> k ∈ xs) by (intros k; by rewrite P2).
  assert (NoDup ys) as Hndy by (by rewrite P2).
  assert (ys <> []) as Hney.
  { intros ->. apply Permutation_nil_l in P2. done. }
  assert (is_Some (h_next h2 !! head)) as Hh2.
  { eapply next_only_is_Some; [exact N2|]. by eexists. }
  rewrite run_store_next by done.
  set (r := List.hd NULL ys) in *.
  set (h3 := set_next head r h2).
  rewrite (run_load_next (A := unit) head r)
    by (simpl; by rewrite lookup_insert_eq).
  (* the prev pointers are rebuilt *)
  destruct (q_sort_rethread_spec ys fuel h3 r head) as
      (h4 & Hrun4 & En4 & Ev4 & Eb4 & Dp4 & Ho4 & Hs4); try done.
  { simpl. apply lseg_insert; [|done]. rewrite Hsub. done. }
  { rewrite Hsub. set_solver. }
  { rewrite Forall_forall. intros k Hk. simpl.
    rewrite (no_prev _ _ _ N2). simpl.
    eapply queue_prev_is_Some; [exact Q|]. right. by apply Hsub. }
  { rewrite P2. lia. }
  (* the ring is closed *)
  pose proof (app_removelast_last NULL Hney) as Eys.
  rewrite (last_default NULL head ys Hney) in Hrun4, Eys.
  remember (List.last ys head) as l eqn:El.
  rewrite (run_bind _ _ _ _ _ Hrun4).
  assert (l ∈ ys) as Hly by (rewrite Eys; set_solver).
  assert (l <> head) as Hlh by (intros ->; apply Hhx; by apply Hsub).
  assert (is_Some (h_next h4 !! l)) as Hl4.
  { rewrite En4. simpl. apply lookup_insert_is_Some'. right.
    eapply lseg_is_Some; [exact Hc2 | done]. }
  rewrite run_store_next by done.
  assert (is_Some (h_prev h4 !! head)) as Hp4.
  { apply elem_of_dom. rewrite Dp4. simpl. rewrite (no_prev _ _ _ N2).
    simpl. apply elem_of_dom. by eexists. }
  unfold store_prev. simpl. destruct Hp4 as [w ->].
  eexists _, ys. split; [reflexivity|].
  split; simpl.
  - exact S2.
  - rewrite En4. simpl. unfold cycle. simpl. split; [done|].
    exists r. split.
    + rewrite lookup_insert_ne by done. by rewrite lookup_insert_eq.
    + rewrite Eys in Hc2 |- *. rewrite Eys in Hndy.
      apply NoDup_app in Hndy as (_ & Hdis & _).
      apply lseg_snoc in Hc2 as [Hc2 _]. apply lseg_snoc.
      split; [|by rewrite lookup_insert_eq].
      apply lseg_insert; [intros Hin; apply (Hdis _ Hin); left|].
      apply lseg_insert; [|done].
      intros Hin. apply Hhx, Hsub. rewrite Eys. set_solver.
  - by rewrite lookup_insert_eq, El.
  - assert (head ∉ removelast ys) as Hhr.
    { intros Hin. apply Hhx, Hsub. rewrite Eys. set_solver. }
    apply lseg_insert; [by rewrite elem_of_reverse | done].
  - intros k Hk. rewrite lookup_insert_ne by set_solver.
    rewrite Ho4 by set_solver. simpl. by rewrite (no_prev _ _ _ N2).
  - intros k Hk. rewrite lookup_insert_ne
      by (intros ->; apply Hk; right; by apply Hsub).
    rewrite En4. simpl. rewrite lookup_insert_ne by set_solver.
    rewrite (no_next _ _ _ N2) by set_solver. simpl.
    apply lookup_insert_ne. set_solver.
  - rewrite dom_insert_lookup_L by done. rewrite En4. simpl.
    rewrite dom_insert_lookup_L by done.
    rewrite (no_next_dom _ _ _ N2). simpl.
    apply dom_insert_lookup_L. by eexists.
  - rewrite dom_insert_lookup_L.
    + rewrite Dp4. simpl. by rewrite (no_prev _ _ _ N2).
    + apply elem_of_dom. rewrite Dp4. simpl. rewrite (no_prev _ _ _ N2).
      simpl. apply elem_of_dom. by eexists.
  - rewrite Ev4. simpl. by rewrite (no_value _ _ _ N2).
  - rewrite Eb4. simpl. by rewrite (no_bytes _ _ _ N2).
Qed.
End Sort.

(** ** Deleting duplicates *)

Section DeleteDup.
Implicit Types (h : heap) (head x : N) (xs rest : list N).

Lemma q_delete_dup_loop_eq fuel head e safe :
  q_delete_dup_loop fuel head e safe =
  if e =? head then ret tt
  else
    match fuel with
    | O => fault
    | S fuel' =>
        bind (load_next e) (fun en =>
          if en =? head then ret tt
          else
            bind (load_value e) (fun ve =>
            bind (load_value safe) (fun vs =>
            bind (if (strcmp ve vs =? 0)%Z
                  then bind (list_del e) (fun _ => q_release_element e)
                  else ret tt) (fun _ =>
            bind (load_next safe) (fun sn =>
              q_delete_dup_loop fuel' head safe sn)))))
    end.
Proof. by destruct fuel. Qed.

Lemma delete_dup_nodes_ext (vl vl' : gmap N string) xs :
  (forall k, k ∈ xs -> vl' !! k = vl !! k) ->
  delete_dup_nodes vl' xs = delete_dup_nodes vl xs.
Proof.
  induction xs as [|x xs IH]; intros Hk; [done|].
  destruct xs as [|y xs]; [done|].
  change (delete_dup_nodes vl' (x :: y :: xs)) with
    (if (strcmp (valof vl' x) (valof vl' y) =? 0)%Z
     then delete_dup_nodes vl' (y :: xs)
     else x :: delete_dup_nodes vl' (y :: xs)).
  change (delete_dup_nodes vl (x :: y :: xs)) with
    (if (strcmp (valof vl x) (valof vl y) =? 0)%Z
     then delete_dup_nodes vl (y :: xs)
     else x :: delete_dup_nodes vl (y :: xs)).
  unfold valof. rewrite (Hk x), (Hk y) by set_solver.
  rewrite IH; [done|]. intros k Hin. apply Hk. set_solver.
Qed.

Lemma delete_dup_nodes_sub (vl : gmap N string) xs k :
  k ∈ delete_dup_nodes vl xs -> k ∈ xs.
Proof.
  induction xs as [|x xs IH]; [done|].
  destruct xs as [|y xs]; [done|].
  change (delete_dup_nodes vl (x :: y :: xs)) with
    (if (strcmp (valof vl x) (valof vl y) =? 0)%Z
     then delete_dup_nodes vl (y :: xs)
     else x :: delete_dup_nodes vl (y :: xs)).
  destruct (strcmp (valof vl x) (valof vl y) =? 0)%Z; set_solver.
Qed.

Lemma q_delete_dup_loop_spec head rest :
  forall done h safe fuel,
    queue h head (done ++ rest) ->
    h_next h !! List.hd head rest = Some safe ->
    (length rest <= fuel)%nat ->
    exists h',
      q_delete_dup_loop fuel head (List.hd head rest) safe h
      = Some (tt, h') /\
      queue h' head (done ++ delete_dup_nodes (h_value h) rest) /\
      (forall k, k ∈ done ++ delete_dup_nodes (h_value h) rest ->
                 h_value h' !! k = h_value h !! k) /\
      h_bytes h' = h_bytes h.
Proof.
  induction rest as [|x rest IH]; intros done h safe fuel Q Hsafe Hfuel;
    rewrite q_delete_dup_loop_eq.
  - simpl. rewrite N.eqb_refl. by exists h.
  - change (List.hd head (x :: rest)) with x in *.
    destruct fuel as [|fuel]; [simpl in Hfuel; lia|].
    pose proof (q_nodup _ _ _ Q) as Hnd.
    assert (x <> head) as Hxh.
    { intros ->. apply NoDup_cons in Hnd as [Hh _]. set_solver. }
    destruct (N.eqb_spec x head) as [|_]; [done|].
    pose proof (cycle_mid _ _ _ _ _ (q_next _ _ _ Q)) as Hx.
    rewrite Hx in Hsafe. injection Hsafe as <-.
    rewrite (run_load_next _ _ _ _ Hx).
    destruct rest as [|y rest].
    { simpl. rewrite N.eqb_refl. by exists h. }
    change (List.hd head (y :: rest)) with y in *.
    assert (y <> head) as Hyh.
    { intros ->. apply NoDup_cons in Hnd as [Hh _]. set_solver. }
    destruct (N.eqb_spec y head) as [|_]; [done|].
    pose proof (q_vals _ _ _ Q) as Hv. rewrite Forall_forall in Hv.
    destruct (Hv x ltac:(set_solver)) as [vx Hvx].
    destruct (Hv y ltac:(set_solver)) as [vy Hvy].
    rewrite (run_load_value _ _ _ _ Hvx), (run_load_value _ _ _ _ Hvy).
    change (delete_dup_nodes (h_value h) (x :: y :: rest)) with
      (if (strcmp (valof (h_value h) x) (valof (h_value h) y) =? 0)%Z
       then delete_dup_nodes (h_value h) (y :: rest)
       else x :: delete_dup_nodes (h_value h) (y :: rest)).
    unfold valof at 1 2 3 4. rewrite Hvx, Hvy. simpl default.
    destruct (strcmp vx vy =? 0)%Z.
    + destruct (queue_delete_node _ _ _ _ _ Q) as (h1 & Hrun1 & Q1 & Rel).
      rewrite (run_bind _ _ _ _ _ Hrun1).
      destruct (queue_next_is_Some h1 head (done ++ y :: rest) y Q1)
        as [sn Hsn]; [set_solver|].
      rewrite (run_load_next _ _ _ _ Hsn).
      destruct (IH done h1 sn fuel Q1 Hsn ltac:(simpl in *; lia))
        as (h' & Hrun & Q' & Hval & Hb).
      assert (x ∉ done ++ y :: rest) as Hxn.
      { apply NoDup_cons in Hnd as [_ Hnd].
        apply NoDup_drop_mid in Hnd as [Hnd _]. done. }
      assert (delete_dup_nodes (h_value h1) (y :: rest)
              = delete_dup_nodes (h_value h) (y :: rest)) as E.
      { apply delete_dup_nodes_ext. intros k Hk.
        rewrite (r_value _ _ _ Rel). apply lookup_delete_ne.
        intros ->. set_solver. }
      rewrite E in *. exists h'. split; [exact Hrun|]. split; [done|].
      split; [|by rewrite Hb, (r_bytes _ _ _ Rel)].
      intros k Hk. rewrite Hval by done. rewrite (r_value _ _ _ Rel).
      apply lookup_delete_ne. intros ->. apply Hxn.
      apply elem_of_app in Hk as [Hk|Hk]; [set_solver|].
      apply delete_dup_nodes_sub in Hk. set_solver.
    + rewrite run_ret.
      destruct (queue_next_is_Some h head (done ++ x :: y :: rest) y Q)
        as [sn Hsn]; [set_solver|].
      rewrite (run_load_next _ _ _ _ Hsn).
      assert (queue h head ((done ++ [x]) ++ y :: rest)) as Q0
          by (by rewrite <- app_assoc).
      destruct (IH (done ++ [x]) h sn fuel Q0 Hsn ltac:(simpl in *; lia))
        as (h' & Hrun & Q' & Hval & Hb).
      rewrite <- app_assoc in Q', Hval. by exists h'.
Qed.

Lemma q_delete_dup_spec h head xs fuel :
  queue h head xs -> (length xs <= fuel)%nat ->
  exists h',
    q_delete_dup fuel head h = Some (true, h') /\
    queue h' head (delete_dup_nodes (h_value h) xs) /\
    (forall k, k ∈ delete_dup_nodes (h_value h) xs ->
               h_value h' !! k = h_value h !! k) /\
    h_bytes h' = h_bytes h.
Proof.
  intros Q Hfuel. unfold q_delete_dup.
  pose proof (queue_head_nonnull _ _ _ Q).
  destruct (N.eqb_spec head NULL) as [|_]; [done|].
  pose proof (cycle_head _ _ _ (q_next _ _ _ Q)) as Hn.
  rewrite (run_load_next _ _ _ _ Hn).
  destruct (queue_next_is_Some h head xs (List.hd head xs) Q)
    as [safe Hsafe]; [apply hd_elem_of|].
  rewrite (run_load_next _ _ _ _ Hsafe).
  destruct (q_delete_dup_loop_spec head xs [] h safe fuel Q Hsafe Hfuel)
    as (h' & Hrun & Q' & Hval & Hb).
  rewrite (run_bind _ _ _ _ _ Hrun). by exists h'.
Qed.
End DeleteDup.

(** ** The ring invariant *)

Section Ring.
Implicit Types (h : heap) (head n : N) (xs ys : list N).

Lemma ring_ok_at_intro h n s p :
  h_next h !! n = Some s -> h_prev h !! n = Some p ->
  h_prev h !! s = Some n -> h_next h !! p = Some n ->
  ring_ok_at h n = true.
Proof.
  intros H1 H2 H3 H4. unfold ring_ok_at.
  by rewrite H1, H2, H3, H4, N.eqb_refl.
Qed.

(** In a valid queue the invariant of the spec holds at every node, the
    sentinel included. *)
Lemma queue_ring_ok h head xs n :
  queue h head xs -> n ∈ head :: xs -> ring_ok_at h n = true.
Proof.
  intros Q Hn. pose proof (q_next _ _ _ Q) as Hnx.
  pose proof (q_prev _ _ _ Q) as Hpv.
  apply elem_of_cons in Hn as [->|Hn].
  - apply (ring_ok_at_intro h head (List.hd head xs) (List.last xs head)).
    + by apply cycle_head.
    + rewrite <- hd_rev_last. by apply cycle_head.
    + rewrite <- last_rev_hd. by apply cycle_last.
    + by apply cycle_last.
  - apply list_elem_of_split in Hn as (pre & post & ->).
    pose proof Hpv as Hpv'.
    rewrite reverse_app, reverse_cons, <- app_assoc in Hpv'. simpl in Hpv'.
    apply (ring_ok_at_intro h n (List.hd head post) (List.last pre head)).
    + by apply (cycle_mid _ _ pre).
    + rewrite <- hd_rev_last. by apply (cycle_mid _ _ (reverse post)).
    + destruct post as [|s post]; simpl.
      * rewrite (cycle_head _ _ _ Hpv), hd_rev_last. f_equal.
        apply last_last.
      * rewrite reverse_cons, <- app_assoc in Hpv'. simpl in Hpv'.
        by rewrite (cycle_mid _ _ _ _ _ Hpv').
    + destruct pre as [|p pre _] using rev_ind.
      * simpl. by rewrite (cycle_head _ _ _ Hnx).
      * rewrite last_last. rewrite <- app_assoc in Hnx. simpl in Hnx.
        by rewrite (cycle_mid _ _ _ _ _ Hnx).
Qed.

(** [q_sort] never writes the [prev] field of the last node of the sorted
    ring: it is what it was before the sort. *)
Lemma sorted_queue_last_prev h h' head xs ys :
  queue h head xs -> xs <> [] -> sorted_queue h h' head xs ys ->
  h_prev h' !! List.last ys head = h_prev h !! List.last ys head.
Proof.
  intros Q Hne SQ.
  pose proof (sf_perm _ _ _ (sq_sorted _ _ _ _ _ SQ)) as P.
  pose proof (q_nodup _ _ _ Q) as Hnd. rewrite <- P in Hnd.
  destruct ys as [|y ys _] using rev_ind.
  - apply Permutation_nil_l in P. by subst xs.
  - rewrite last_last. apply (sq_prev_outside _ _ _ _ _ SQ).
    rewrite removelast_last.
    apply NoDup_cons in Hnd as [Hh Hnd].
    apply NoDup_app in Hnd as (_ & Hdis & _).
    intros [->|Hin]%elem_of_cons.
    + apply Hh. set_solver.
    + apply (Hdis _ Hin). left.
Qed.

Lemma lseg_lookup (m : gmap N N) p l q i a :
  lseg m p l q -> l !! i = Some a -> m !! a = (l ++ [q]) !! S i.
Proof.
  revert p i. induction l as [|x l IH]; intros p i; [done|].
  intros (-> & n & Hn & H) Hi. destruct i as [|i].
  - injection Hi as ->. rewrite Hn. rewrite (lseg_hd _ _ _ _ H).
    by destruct l.
  - by apply (IH n).
Qed.

(** Along a cycle without repetition no two nodes have the same
    successor. *)
Lemma cycle_next_inj (m : gmap N N) head ys a b c :
  cycle m head ys -> NoDup (head :: ys) ->
  a ∈ head :: ys -> b ∈ head :: ys ->
  m !! a = Some c -> m !! b = Some c -> a = b.
Proof.
  intros Hc Hnd [i Hi]%list_elem_of_lookup [j Hj]%list_elem_of_lookup Ha Hb.
  rewrite (lseg_lookup _ _ _ _ _ _ Hc Hi) in Ha.
  rewrite (lseg_lookup _ _ _ _ _ _ Hc Hj) in Hb.
  simpl in Ha, Hb.
  assert (NoDup (ys ++ [head])) as Hnd'.
  { by rewrite <- Permutation_cons_append. }
  pose proof (NoDup_lookup _ _ _ _ Hnd' Ha Hb) as ->. congruence.
Qed.

(** After [q_sort] the invariant holds at the last node only if the node
    that preceded it before the sort is the one that precedes it now. *)
Lemma sorted_queue_last_ring h h' head xs ys :
  queue h head xs -> xs <> [] -> sorted_queue h h' head xs ys ->
  ring_ok_at h' (List.last ys head) = true ->
  h_prev h !! List.last ys head
  = Some (List.last (removelast ys) head).
Proof.
  intros Q Hne SQ Hok.
  pose proof (sorted_queue_last_prev _ _ _ _ _ Q Hne SQ) as Hstale.
  pose proof (sf_perm _ _ _ (sq_sorted _ _ _ _ _ SQ)) as P.
  pose proof (q_nodup _ _ _ Q) as Hnd.
  assert (NoDup (head :: ys)) as Hndy by (by rewrite P).
  pose proof (sq_next _ _ _ _ _ SQ) as Hc.
  destruct ys as [|l ys _] using rev_ind.
  { apply Permutation_nil_l in P. by subst xs. }
  rewrite last_last in *. rewrite removelast_last.
  (* the old predecessor of the last node is a node of the ring *)
  assert (l ∈ xs) as Hlx by (rewrite <- P; set_solver).
  apply list_elem_of_split in Hlx as (pre & post & ->).
  pose proof (q_prev _ _ _ Q) as Hpv.
  rewrite reverse_app, reverse_cons, <- app_assoc in Hpv. simpl in Hpv.
  pose proof (cycle_mid _ _ _ _ _ Hpv) as Hold. rewrite hd_rev_last in Hold.
  rewrite Hold in Hstale |- *. f_equal.
  assert (List.last pre head ∈ head :: ys ++ [l]) as Hin.
  { pose proof (last_elem_of head pre) as Hin.
    apply elem_of_cons in Hin as [->|Hin]; [left | right].
    rewrite P. set_solver. }
  (* and its successor in the sorted ring is the last node *)
  unfold ring_ok_at in Hok. rewrite Hstale in Hok.
  destruct (h_next h' !! l) as [s|]; [|done].
  destruct (h_prev h' !! s) as [t|]; [|done].
  destruct (h_next h' !! List.last pre head) as [u|] eqn:Hu; [|done].
  apply andb_prop in Hok as [_ ->%N.eqb_eq].
  apply (cycle_next_inj _ _ _ _ _ l Hc Hndy Hin); [|done|].
  - pose proof (last_elem_of head ys). set_solver.
  - pose proof Hc as Hc'. unfold cycle in Hc'.
    rewrite app_comm_cons in Hc'.
    destruct (cons_as_snoc head ys) as [A EA]. rewrite EA in Hc'.
    rewrite <- app_assoc in Hc'. simpl in Hc'.
    by rewrite (lseg_mid _ _ _ _ _ _ Hc').
Qed.
End Ring.

(** ** Creation and size *)

Section NewSize.
Implicit Types (h : heap) (head m : N) (xs rest : list N).

Lemma q_new_fails h : q_new NULL h = Some (NULL, h).
Proof. done. Qed.

Lemma q_new_succeeds h m :
  m <> NULL -> fresh h m ->
  q_new m h
  = Some (m, {| h_next := <[m := m]> (h_next h);
                h_prev := <[m := m]> (h_prev h);
                h_value := h_value h; h_bytes := h_bytes h |}) /\
  queue {| h_next := <[m := m]> (h_next h);
           h_prev := <[m := m]> (h_prev h);
           h_value := h_value h; h_bytes := h_bytes h |} m [].
Proof.
  intros Hm (Fn & Fp & Fv). split.
  - unfold q_new, bind, malloc_node.
    destruct (N.eqb_spec m NULL) as [|_]; [done|].
    destruct (N.eqb_spec m NULL) as [|_]; [done|].
    unfold INIT_LIST_HEAD, bind, store_next, store_prev, ret. simpl.
    rewrite lookup_insert_eq. simpl. rewrite lookup_insert_eq.
    unfold set_prev, set_next. simpl.
    by rewrite !insert_insert_eq.
  - split; simpl.
    + apply NoDup_singleton.
    + intros H%list_elem_of_singleton. by apply Hm.
    + unfold cycle. simpl. split; [done|]. exists m.
      by rewrite lookup_insert_eq.
    + unfold cycle. simpl. split; [done|]. exists m.
      by rewrite lookup_insert_eq.
    + constructor.
Qed.

Lemma queue_forward h head xs : queue h head xs -> forward h head xs.
Proof.
  intros Q. split; [apply Q | | apply Q].
  intros ->. apply (q_nonnull _ _ _ Q). left.
Qed.

Lemma wrap_int_small (z : Z) :
  (- 2 ^ 31 <= z < 2 ^ 31)%Z -> wrap_int z = z.
Proof.
  intros Hz. unfold wrap_int. rewrite Z.mod_small; lia.
Qed.

Lemma q_size_loop_spec head rest :
  forall fuel h li len,
    lseg (h_next h) li rest head -> head ∉ rest ->
    (length rest <= fuel)%nat ->
    (0 <= len)%Z -> (len + Z.of_nat (length rest) < 2 ^ 31)%Z ->
    q_size_loop fuel head li len h
    = Some ((len + Z.of_nat (length rest))%Z, h).
Proof.
  induction rest as [|x rest IH]; intros fuel h li len Hc Hh Hfuel H0 Hlen.
  - simpl in Hc. subst li. destruct fuel; simpl; rewrite N.eqb_refl;
      unfold ret; do 2 f_equal; lia.
  - destruct Hc as (-> & n & Hn & Hc).
    destruct fuel as [|fuel]; [simpl in Hfuel; lia|]. simpl q_size_loop.
    assert (x <> head) as Hx by (intros ->; apply Hh; left).
    destruct (N.eqb_spec x head) as [|_]; [done|].
    rewrite (run_load_next _ _ _ _ Hn).
    simpl length in *.
    rewrite wrap_int_small by lia.
    rewrite (IH fuel h n (len + 1)%Z); try done; try lia.
    + do 2 f_equal. lia.
    + intros Hin. apply Hh. by right.
Qed.

Lemma q_size_spec h head xs fuel :
  forward h head xs -> (length xs <= fuel)%nat ->
  (Z.of_nat (length xs) < 2 ^ 31)%Z ->
  q_size fuel head h = Some (Z.of_nat (length xs), h).
Proof.
  intros [Hnd Hh Hc] Hfuel Hlen. unfold q_size.
  destruct (N.eqb_spec head NULL) as [|_]; [done|].
  destruct Hc as (_ & n & Hn & Hc).
  rewrite (run_load_next _ _ _ _ Hn).
  apply NoDup_cons in Hnd as [Hhx _].
  by rewrite (q_size_loop_spec head xs fuel h n 0%Z).
Qed.
End NewSize.

(** ** Freeing a queue *)

Section Free.
Implicit Types (h : heap) (head x : N) (xs rest : list N).

Lemma q_free_loop_eq fuel head e safe :
  q_free_loop fuel head e safe =
  if e =? head then ret tt
  else
    match fuel with
    | O => fault
    | S fuel' =>
        bind (q_release_element e) (fun _ =>
          bind (load_next safe) (fun sn => q_free_loop fuel' head safe sn))
    end.
Proof. by destruct fuel. Qed.

Lemma q_free_loop_spec head rest :
  forall fuel h safe,
    lseg (h_next h) (List.hd head rest) rest head ->
    NoDup (head :: rest) ->
    Forall (fun x => is_Some (h_value h !! x)) rest ->
    h_next h !! List.hd head rest = Some safe ->
    is_Some (h_next h !! head) ->
    (length rest <= fuel)%nat ->
    exists h',
      q_free_loop fuel head (List.hd head rest) safe h = Some (tt, h') /\
      all_released rest rest h h'.
Proof.
  induction rest as [|x rest IH];
    intros fuel h safe Hc Hnd Hv Hsafe Hhd Hfuel; rewrite q_free_loop_eq.
  - simpl. rewrite N.eqb_refl. exists h. split; [done|].
    split; try done; intros k; by rewrite decide_False by apply not_elem_of_nil.
  - change (List.hd head (x :: rest)) with x in *.
    destruct Hc as (_ & n & Hn & Hc).
    rewrite Hn in Hsafe. injection Hsafe as <-.
    pose proof (lseg_hd _ _ _ _ Hc) as En.
    apply NoDup_cons in Hnd as [Hh Hnd].
    pose proof Hnd as Hnd'. apply NoDup_cons in Hnd' as [Hx _].
    assert (x <> head) as Hxh by (intros ->; apply Hh; left).
    destruct (N.eqb_spec x head) as [|_]; [done|].
    destruct fuel as [|fuel]; [simpl in Hfuel; lia|].
    apply Forall_cons in Hv as [Hvx Hv].
    rewrite (run_bind _ _ _ _ _
               (q_release_element_run h x Hvx ltac:(by eexists))).
    set (h1 := {| h_next := delete x (h_next h);
                  h_prev := delete x (h_prev h);
                  h_value := delete x (h_value h);
                  h_bytes := h_bytes h |}).
    assert (Hc1 : lseg (h_next h1) (List.hd head rest) rest head).
    { rewrite <- En. eapply lseg_frame; [|exact Hc]. intros k Hk. simpl.
      apply lookup_delete_ne. by intros ->. }
    assert (n <> x) as Hnx.
    { rewrite En. destruct rest as [|y rest]; simpl; [done|].
      intros ->. apply Hx. left. }
    assert (is_Some (h_next h1 !! n)) as [sn Hsn].
    { simpl. rewrite lookup_delete_ne by done. rewrite En.
      destruct rest as [|y rest]; [done|]. simpl.
      eapply lseg_is_Some; [exact Hc | left]. }
    rewrite (run_load_next _ _ _ _ Hsn). rewrite En in Hsn |- *.
    assert (NoDup (head :: rest)) as Hnd1.
    { apply NoDup_cons. split; [|by apply NoDup_cons in Hnd as [_ ?]].
      intros Hin. apply Hh. by right. }
    assert (Forall (fun k => is_Some (h_value h1 !! k)) rest) as Hv1.
    { rewrite Forall_forall in Hv |- *. intros k Hk. simpl.
      rewrite lookup_delete_ne; [auto|]. by intros ->. }
    assert (is_Some (h_next h1 !! head)) as Hhd1.
    { simpl. by rewrite lookup_delete_ne. }
    destruct (IH fuel h1 sn Hc1 Hnd1 Hv1 Hsn Hhd1 ltac:(simpl in Hfuel; lia))
      as (h' & Hrun & R).
    { exists h'. split; [exact Hrun|]. destruct R as [Rn Rp Rv Rb].
      split; [| | |done].
      * intros k. rewrite Rn. simpl.
        destruct (decide (k ∈ rest)) as [Hk|Hk].
        -- by rewrite decide_True by (by right).
        -- destruct (decide (k = x)) as [->|Hkx].
           ++ rewrite decide_True by left. apply lookup_delete_eq.
           ++ rewrite decide_False by set_solver.
              by apply lookup_delete_ne.
      * intros k. rewrite Rp. simpl.
        destruct (decide (k ∈ rest)) as [Hk|Hk].
        -- by rewrite decide_True by (by right).
        -- destruct (decide (k = x)) as [->|Hkx].
           ++ rewrite decide_True by left. apply lookup_delete_eq.
           ++ rewrite decide_False by set_solver.
              by apply lookup_delete_ne.
      * intros k. rewrite Rv. simpl.
        destruct (decide (k ∈ rest)) as [Hk|Hk].
        -- by rewrite decide_True by (by right).
        -- destruct (decide (k = x)) as [->|Hkx].
           ++ rewrite decide_True by left. apply lookup_delete_eq.
           ++ rewrite decide_False by set_solver.
              by apply lookup_delete_ne. }
Qed.

(** [q_free] releases the node and the string of every element, then the
    sentinel; nothing else in the store changes. *)
Lemma q_free_forward h head xs fuel :
  forward h head xs -> Forall (fun x => is_Some (h_value h !! x)) xs ->
  (length xs <= fuel)%nat ->
  exists h',
    q_free fuel head h = Some (tt, h') /\
    all_released (head :: xs) xs h h'.
Proof.
  intros Q Hvals Hfuel. unfold q_free.
  pose proof (fw_nonnull _ _ _ Q).
  destruct (N.eqb_spec head NULL) as [|_]; [done|].
  pose proof (fw_next _ _ _ Q) as (_ & n & Hn & Hc).
  pose proof (lseg_hd _ _ _ _ Hc) as En. subst n.
  rewrite (run_load_next _ _ _ _ Hn).
  destruct (cycle_is_Some (h_next h) head xs (List.hd head xs)
              (fw_next _ _ _ Q)) as [safe Hsafe]; [apply hd_elem_of|].
  rewrite (run_load_next _ _ _ _ Hsafe).
  destruct (q_free_loop_spec head xs fuel h safe Hc (fw_nodup _ _ _ Q)
              Hvals Hsafe ltac:(by eexists) Hfuel)
    as (h1 & Hrun & [Rn Rp Rv Rb]).
  rewrite (run_bind _ _ _ _ _ Hrun).
  pose proof (fw_nodup _ _ _ Q) as Hnd. apply NoDup_cons in Hnd as [Hh _].
  unfold free_node. rewrite Rn, decide_False, Hn by done.
  eexists. split; [reflexivity|]. split; simpl; [| |done|done].
  - intros k. destruct (decide (k = head)) as [->|Hk].
    + rewrite decide_True by left. apply lookup_delete_eq.
    + rewrite lookup_delete_ne by done. rewrite Rn.
      destruct (decide (k ∈ xs)).
      * by rewrite decide_True by (by right).
      * by rewrite decide_False by set_solver.
  - intros k. destruct (decide (k = head)) as [->|Hk].
    + rewrite decide_True by left. apply lookup_delete_eq.
    + rewrite lookup_delete_ne by done. rewrite Rp.
      destruct (decide (k ∈ xs)).
      * by rewrite decide_True by (by right).
      * by rewrite decide_False by set_solver.
Qed.

Lemma q_free_spec h head xs fuel :
  queue h head xs -> (length xs <= fuel)%nat ->
  exists h',
    q_free fuel head h = Some (tt, h') /\
    all_released (head :: xs) xs h h'.
Proof.
  intros Q Hfuel.
  apply q_free_forward; [by apply queue_forward | apply Q | done].
Qed.
End Free.

(** ** Building a queue, and giving it back *)

Section Build.
Implicit Types (h : heap) (head m : N) (xs ms : list N) (vs : list string).

(** Two valid queues of the same nodes that agree outside the ring are the
    same store. *)
Lemma queue_store_eq h h' head xs :
  queue h head xs -> queue h' head xs ->
  same_outside (head :: xs) (h_next h) (h_next h') ->
  same_outside (head :: xs) (h_prev h) (h_prev h') ->
  h_value h' = h_value h -> h_bytes h' = h_bytes h ->
  h' = h.
Proof.
  intros Q Q' Rn Rp Rv Rb.
  destruct h as [nx pv vl by_], h' as [nx' pv' vl' by']. simpl in *.
  subst. f_equal.
  - apply map_eq. intros k. destruct (decide (k ∈ head :: xs)) as [Hk|Hk].
    + apply (cycle_agree _ _ head xs); [apply Q | apply Q' | done].
    + by apply Rn.
  - apply map_eq. intros k. destruct (decide (k ∈ head :: xs)) as [Hk|Hk].
    + apply (cycle_agree _ _ head (reverse xs)); [apply Q | apply Q' |].
      apply elem_of_cons in Hk as [->|Hk]; [left | right].
      by apply elem_of_reverse.
    + by apply Rp.
Qed.

Lemma fresh_after_gain h h' head xs m s k :
  queue h head xs -> gained h h' head xs m s ->
  fresh h k -> k <> m -> fresh h' k.
Proof.
  intros Q [Gv _ _ Gn Gp _] F Hk.
  pose proof (fresh_not_linked _ _ _ _ Q F) as Hnl.
  destruct F as (Fn & Fp & Fv).
  assert (k ∉ m :: head :: xs) as Hout by set_solver.
  split; [|split].
  - by rewrite Gn.
  - by rewrite Gp.
  - rewrite Gv. by rewrite lookup_insert_ne.
Qed.

Lemma insert_all_spec ms :
  forall vs h head xs,
    queue h head xs -> length ms = length vs ->
    NoDup ms -> NULL ∉ ms -> Forall (fresh h) ms ->
    exists h',
      insert_all head ms vs h = Some (true, h') /\
      queue h' head (xs ++ ms) /\
      Forall2 (fun m v => h_value h' !! m = Some v) ms vs /\
      same_outside (ms ++ head :: xs) (h_next h) (h_next h') /\
      same_outside (ms ++ head :: xs) (h_prev h) (h_prev h') /\
      (forall k, k ∉ ms -> h_value h' !! k = h_value h !! k) /\
      h_bytes h' = h_bytes h.
Proof.
  induction ms as [|m ms IH]; intros vs h head xs Q Hlen Hnd Hnn Hf.
  - destruct vs; [|done]. exists h. rewrite app_nil_r.
    split; [done|]. split; [done|]. split; [constructor|].
    by repeat split.
  - destruct vs as [|v vs]; [done|]. simpl in Hlen.
    apply NoDup_cons in Hnd as [Hm Hnd].
    apply Forall_cons in Hf as [Fm Hf].
    assert (m <> NULL) as Hmn by (intros ->; apply Hnn; left).
    destruct (q_insert_tail_succeeds h head xs m v Q Fm Hmn)
      as (h1 & Hrun1 & Q1 & G).
    assert (Forall (fresh h1) ms) as Hf1.
    { rewrite Forall_forall in Hf |- *. intros k Hk.
      apply (fresh_after_gain h h1 head xs m v); auto.
      by intros ->. }
    destruct (IH vs h1 head (xs ++ [m]) Q1 ltac:(lia) Hnd
                ltac:(set_solver) Hf1)
      as (h' & Hrun & Q' & Hv & Rn & Rp & Rv & Rb).
    exists h'. simpl insert_all. rewrite (run_bind _ _ _ _ _ Hrun1).
    split; [exact Hrun|]. split; [by rewrite <- app_assoc in Q'|].
    destruct G as [Gv _ _ Gn Gp Gb].
    split; [|split; [|split; [|split]]].
    + constructor; [|done]. rewrite Rv by done. rewrite Gv.
      by rewrite lookup_insert_eq.
    + intros k Hk. rewrite Rn by set_solver. apply Gn. set_solver.
    + intros k Hk. rewrite Rp by set_solver. apply Gp. set_solver.
    + intros k Hk. rewrite Rv by set_solver. rewrite Gv.
      apply lookup_insert_ne. set_solver.
    + by rewrite Rb.
Qed.
End Build.

(** ** Removal without a buffer *)

Section RemoveNull.
Implicit Types (h : heap) (head x : N) (xs : list N).

Lemma q_remove_head_relinks h head x xs bufsize :
  queue h head (x :: xs) ->
  exists h', q_remove_head head NULL bufsize h = Some (x, h') /\
             queue h' head xs /\ relinked (head :: xs) h h'.
Proof.
  intros Q. unfold q_remove_head.
  pose proof (queue_head_nonnull _ _ _ Q).
  destruct (N.eqb_spec head NULL) as [|_]; [done|].
  rewrite (run_bind _ _ _ _ _ (list_empty_run _ _ _ Q)). simpl.
  pose proof (cycle_head _ _ _ (q_next _ _ _ Q)) as Hn. simpl in Hn.
  rewrite !(run_load_next _ _ _ _ Hn).
  destruct (queue_list_del h head [] x xs Q) as (h1 & Hdel & Q1 & R).
  rewrite (run_bind _ _ _ _ _ Hdel). by exists h1.
Qed.

Lemma q_remove_tail_relinks h head x xs bufsize :
  queue h head (xs ++ [x]) ->
  exists h', q_remove_tail head NULL bufsize h = Some (x, h') /\
             queue h' head xs /\ relinked (head :: xs) h h'.
Proof.
  intros Q. unfold q_remove_tail.
  pose proof (queue_head_nonnull _ _ _ Q).
  destruct (N.eqb_spec head NULL) as [|_]; [done|].
  rewrite (run_bind _ _ _ _ _ (list_empty_run _ _ _ Q)).
  rewrite bool_decide_eq_false_2 by (by destruct xs).
  pose proof (cycle_head _ _ _ (q_prev _ _ _ Q)) as Hp.
  rewrite reverse_snoc in Hp. simpl in Hp.
  rewrite !(run_load_prev _ _ _ _ Hp).
  destruct (queue_list_del h head xs x [] Q) as (h1 & Hdel & Q1 & R).
  rewrite (run_bind _ _ _ _ _ Hdel). rewrite app_nil_r in Q1, R.
  by exists h1.
Qed.

(** Releasing an element that was inserted and then removed gives back the
    store in which it did not exist. *)
Lemma release_after_remove h h1 h2 head xs m s :
  queue h head xs -> fresh h m ->
  gained h h1 head xs m s ->
  queue h2 head xs -> relinked (head :: xs) h1 h2 ->
  q_release_element m h2 = Some (tt, h).
Proof.
  intros Q F G Q2 R.
  pose proof (fresh_not_linked _ _ _ _ Q F) as Hnl.
  destruct G as [Gv Gnd Gpd Gn Gp Gb].
  destruct R as [Rn Rp Rnd Rpd Rv Rb].
  destruct F as (Fn & Fp & Fv).
  rewrite q_release_element_run.
  - do 2 f_equal. symmetry. apply (queue_store_eq _ _ head xs); simpl.
    + apply (queue_frame h2); [done|..]; simpl; intros k Hk;
        apply lookup_delete_ne; intros ->; apply Hnl; set_solver.
    + done.
    + intros k Hk. symmetry. destruct (decide (k = m)) as [->|Hkm].
      * by rewrite lookup_delete_eq.
      * rewrite lookup_delete_ne by done. rewrite Rn by done.
        apply Gn. set_solver.
    + intros k Hk. symmetry. destruct (decide (k = m)) as [->|Hkm].
      * by rewrite lookup_delete_eq.
      * rewrite lookup_delete_ne by done. rewrite Rp by done.
        apply Gp. set_solver.
    + rewrite Rv, Gv. by rewrite delete_insert_id.
    + by rewrite Rb, Gb.
  - rewrite Rv, Gv. rewrite lookup_insert_eq. by eexists.
  - apply elem_of_dom. rewrite Rnd, Gnd. set_solver.
Qed.
End RemoveNull.

(** ** Swapping adjacent nodes *)

Section Swap.
Implicit Types (h : heap) (head x y : N) (xs pre post rest : list N).

Lemma lseg_insert_after (m : gmap N N) p A y B q x :
  NoDup (A ++ y :: B) -> x ∉ A ++ y :: B ->
  lseg m p (A ++ y :: B) q ->
  lseg (<[y := x]> (<[x := List.hd q B]> m)) p (A ++ y :: x :: B) q.
Proof.
  intros Hnd Hx. rewrite !lseg_app.
  intros (r & H1 & -> & n & Hn & H2).
  pose proof (lseg_hd _ _ _ _ H2) as ->.
  destruct (NoDup_drop_mid _ _ _ Hnd) as [Hy _].
  assert (x <> y) as Hxy by (intros ->; set_solver).
  exists y. split.
  - apply lseg_insert; [set_solver|]. apply lseg_insert; [set_solver|done].
  - simpl. split; [done|]. exists x. split; [by rewrite lookup_insert_eq|].
    split; [done|]. exists (List.hd q B). split.
    + rewrite lookup_insert_ne by done. by rewrite lookup_insert_eq.
    + apply lseg_insert; [set_solver|].
      apply lseg_insert; [set_solver|done].
Qed.

(** [list_add] after a node of the queue. *)
Lemma queue_list_add_after h head pre y post x :
  queue h head (pre ++ y :: post) ->
  detached h head (pre ++ y :: post) x ->
  exists h',
    list_add x y h = Some (tt, h') /\
    queue h' head (pre ++ y :: x :: post) /\
    relinked (x :: head :: pre ++ y :: post) h h'.
Proof.
  intros Q (Hx & Hnull & Hxn & Hxp & Hxv).
  pose proof (q_nodup _ _ _ Q) as Hnd.
  pose proof (cycle_mid _ _ _ _ _ (q_next _ _ _ Q)) as Hn.
  pose proof (hd_elem_of head post) as Hnxt.
  assert (List.hd head post ∈ head :: pre ++ y :: post) as Hnxt'
      by set_solver.
  assert (Hnp : is_Some (h_prev h !! List.hd head post))
    by (eapply queue_prev_is_Some; eauto).
  assert (x <> List.hd head post) as Hxn' by (intros E; rewrite E in Hx; done).
  eexists. split; [by apply list_add_run|]. split.
  - split; simpl.
    + apply NoDup_cons in Hnd as [Hh Hnd].
      apply NoDup_cons. split; [set_solver|].
      apply NoDup_app in Hnd as (H1 & H2 & H3).
      apply NoDup_cons in H3 as [H3 H4].
      apply NoDup_app. split; [done|]. split; [set_solver|].
      apply NoDup_cons. split; [set_solver|].
      apply NoDup_cons. split; [set_solver|done].
    + pose proof (q_nonnull _ _ _ Q). set_solver.
    + unfold cycle. rewrite app_comm_cons.
      apply lseg_insert_after; [done | done | apply Q].
    + pose proof (q_prev _ _ _ Q) as Hpv. unfold cycle in *.
      rewrite insert_insert_ne by done.
      destruct (cons_as_snoc head (reverse post)) as [A EA].
      rewrite last_rev_hd in EA.
      assert (head :: reverse (pre ++ y :: post)
              = A ++ List.hd head post :: y :: reverse pre) as E1.
      { rewrite reverse_app, reverse_cons, <- app_assoc. simpl.
        by rewrite app_comm_cons, EA, <- app_assoc. }
      assert (head :: reverse (pre ++ y :: x :: post)
              = A ++ List.hd head post :: x :: y :: reverse pre) as E2.
      { rewrite reverse_app, !reverse_cons, <- !app_assoc. simpl.
        by rewrite app_comm_cons, EA, <- app_assoc. }
      rewrite E1 in Hpv. rewrite E2.
      apply (lseg_insert_after _ _ A (List.hd head post)
               (y :: reverse pre) head x); [| |done].
      * rewrite <- E1. by apply NoDup_rev_cons.
      * rewrite <- E1. intros Hin. apply Hx.
        rewrite elem_of_cons, elem_of_reverse in Hin.
        by apply elem_of_cons.
    + pose proof (q_vals _ _ _ Q) as Hv.
      rewrite Forall_app, Forall_cons in Hv.
      rewrite Forall_app, !Forall_cons. tauto.
  - apply relinked_step_next; [apply relinked_step_prev;
      [apply relinked_step_next; [apply relinked_step_prev|..]|..]|..];
      simpl; [apply relinked_refl|set_solver|done|set_solver|done
             |set_solver| |set_solver|].
    + apply lookup_insert_is_Some'. by right.
    + apply lookup_insert_is_Some'. right. by eexists.
Qed.

(** [list_move (x, y)] for two neighbours [x], [y] exchanges them. *)
Lemma queue_swap_pair h head pre x y post :
  queue h head (pre ++ x :: y :: post) ->
  exists h',
    list_move x y h = Some (tt, h') /\
    queue h' head (pre ++ y :: x :: post) /\
    relinked (head :: pre ++ x :: y :: post) h h'.
Proof.
  intros Q. destruct (queue_list_del _ _ _ _ _ Q) as (h1 & Hdel & Q1 & R1).
  pose proof (q_nodup _ _ _ Q) as Hnd.
  pose proof (q_nonnull _ _ _ Q) as Hnn.
  assert (Hin : x ∈ head :: pre ++ x :: y :: post) by set_solver.
  assert (D : detached h1 head (pre ++ y :: post) x).
  { split; [|split; [|split; [|split]]].
    - apply NoDup_cons in Hnd as [Hh Hnd].
      apply NoDup_drop_mid in Hnd as [Hx _]. set_solver.
    - intros ->. done.
    - eapply relinked_is_Some_next; [exact R1|].
      eapply queue_next_is_Some; eauto.
    - eapply relinked_is_Some_prev; [exact R1|].
      eapply queue_prev_is_Some; eauto.
    - rewrite (rl_value _ _ _ R1).
      pose proof (q_vals _ _ _ Q) as Hv. rewrite Forall_forall in Hv.
      apply Hv. set_solver. }
  destruct (queue_list_add_after _ _ _ _ _ _ Q1 D) as (h' & Hadd & Q' & R').
  exists h'. split; [|split; [done|]].
  - unfold list_move. by rewrite (run_bind _ _ _ _ _ Hdel).
  - eapply relinked_trans; (eapply relinked_mono; [|eassumption]);
      set_solver.
Qed.

Lemma q_swap_loop_eq fuel head l :
  q_swap_loop fuel head l =
  if l =? head then ret tt
  else
    bind (load_next l) (fun ln =>
      if ln =? head then ret tt
      else
        match fuel with
        | O => fault
        | S fuel' =>
            bind (load_next l) (fun after =>
              bind (list_move l after) (fun _ =>
                bind (load_next l) (fun l' => q_swap_loop fuel' head l')))
        end).
Proof. by destruct fuel. Qed.

Lemma q_swap_loop_spec head fuel :
  forall rest front h,
    queue h head (front ++ rest) ->
    (length rest <= 2 * fuel + 1)%nat ->
    exists h',
      q_swap_loop fuel head (List.hd head rest) h = Some (tt, h') /\
      queue h' head (front ++ swap_pairs rest) /\
      relinked (head :: front ++ rest) h h'.
Proof.
  induction fuel as [|fuel IH]; intros rest front h Q Hlen;
    rewrite q_swap_loop_eq;
    pose proof (q_nodup _ _ _ Q) as Hnd;
    (destruct rest as [|x rest];
     [simpl; rewrite N.eqb_refl; exists h;
      split; [done|]; split; [done | apply relinked_refl]|]);
    change (List.hd head (x :: rest)) with x;
    (assert (x <> head) as Hxh
       by (intros ->; apply NoDup_cons in Hnd as [Hh _]; set_solver));
    (destruct (N.eqb_spec x head) as [|_]; [done|]);
    pose proof (cycle_mid _ _ _ _ _ (q_next _ _ _ Q)) as Hx;
    rewrite (run_load_next _ _ _ _ Hx);
    (destruct rest as [|y rest];
     [simpl; rewrite N.eqb_refl; exists h;
      split; [done|]; split; [done | apply relinked_refl]|]);
    change (List.hd head (y :: rest)) with y in *;
    (assert (y <> head) as Hyh
       by (intros ->; apply NoDup_cons in Hnd as [Hh _]; set_solver));
    (destruct (N.eqb_spec y head) as [|_]; [done|]).
  - simpl in Hlen. lia.
  - rewrite (run_load_next _ _ _ _ Hx).
    destruct (queue_swap_pair _ _ _ _ _ _ Q) as (h1 & Hmove & Q1 & R1).
    rewrite (run_bind _ _ _ _ _ Hmove).
    assert (queue h1 head ((front ++ [y]) ++ x :: rest)) as Q1'
        by (by rewrite <- app_assoc).
    pose proof (cycle_mid _ _ _ _ _ (q_next _ _ _ Q1')) as Hx1.
    rewrite (run_load_next _ _ _ _ Hx1).
    assert (queue h1 head ((front ++ [y; x]) ++ rest)) as Q1''
        by (by rewrite <- app_assoc).
    destruct (IH rest (front ++ [y; x]) h1 Q1'' ltac:(simpl in Hlen; lia))
      as (h' & Hrun & Q' & R').
    exists h'. split; [exact Hrun|]. split.
    + by rewrite <- app_assoc in Q'.
    + eapply relinked_trans; [exact R1|].
      eapply relinked_mono; [|exact R']. set_solver.
Qed.

Lemma q_swap_spec h head xs fuel :
  queue h head xs -> (length xs <= 2 * fuel + 1)%nat ->
  exists h',
    q_swap fuel head h = Some (tt, h') /\
    queue h' head (swap_pairs xs) /\
    relinked (head :: xs) h h'.
Proof.
  intros Q Hlen. unfold q_swap.
  pose proof (queue_head_nonnull _ _ _ Q).
  destruct (N.eqb_spec head NULL) as [|_]; [done|].
  rewrite (run_load_next _ _ _ _ (cycle_head _ _ _ (q_next _ _ _ Q))).
  exact (q_swap_loop_spec head fuel xs [] h Q Hlen).
Qed.

Lemma swap_pairs_ind (P : list N -> Prop) :
  P [] -> (forall x, P [x]) ->
  (forall x y xs, P xs -> P (x :: y :: xs)) ->
  forall xs, P xs.
Proof.
  intros H0 H1 H2 xs.
  assert (P xs /\ forall x, P (x :: xs)) as [? _]; [|done].
  induction xs as [|y xs [IH1 IH2]]; split; auto.
Qed.

Lemma swap_pairs_involutive xs : swap_pairs (swap_pairs xs) = xs.
Proof.
  induction xs as [| |x y xs IH] using swap_pairs_ind; [done..|].
  simpl. by rewrite IH.
Qed.

Lemma swap_pairs_length xs : length (swap_pairs xs) = length xs.
Proof.
  induction xs as [| |x y xs IH] using swap_pairs_ind; [done..|].
  simpl. by rewrite IH.
Qed.

Lemma swap_pairs_elem_of xs k : k ∈ swap_pairs xs <-> k ∈ xs.
Proof.
  induction xs as [| |x y xs IH] using swap_pairs_ind; [done..|].
  simpl. rewrite !elem_of_cons, IH. tauto.
Qed.
End Swap.

(** ** Duplicates in a sorted queue *)

Section SortedDup.
Context (vl : gmap N string).
Implicit Types (x y z : N) (xs ys : list N).

Lemma strcmp_lt_le_trans (a b c : string) :
  (strcmp a b < 0)%Z -> (strcmp b c <= 0)%Z -> (strcmp a c < 0)%Z.
Proof.
  intros Hab Hbc. apply Z.nle_gt. intros Hac.
  assert (strcmp c a <= 0)%Z as Hca by (rewrite strcmp_antisym; lia).
  pose proof (strcmp_le_trans _ _ _ Hbc Hca) as Hba.
  rewrite strcmp_antisym in Hba. lia.
Qed.

Lemma strcmp_eq_trans (a b c : string) :
  strcmp a b = 0%Z -> strcmp b c = 0%Z -> strcmp a c = 0%Z.
Proof.
  intros Hab Hbc.
  assert (strcmp a c <= 0)%Z by (apply (strcmp_le_trans _ b); lia).
  assert (strcmp c a <= 0)%Z.
  { apply (strcmp_le_trans _ b); rewrite strcmp_antisym; lia. }
  rewrite strcmp_antisym in H0. lia.
Qed.

Lemma delete_dup_nodes_cons x y xs :
  delete_dup_nodes vl (x :: y :: xs) =
  if (strcmp (valof vl x) (valof vl y) =? 0)%Z
  then delete_dup_nodes vl (y :: xs)
  else x :: delete_dup_nodes vl (y :: xs).
Proof. done. Qed.

Lemma delete_dup_nodes_sublist xs : sublist (delete_dup_nodes vl xs) xs.
Proof.
  induction xs as [|x xs IH]; [done|].
  destruct xs as [|y xs]; [done|]. rewrite delete_dup_nodes_cons.
  destruct (strcmp (valof vl x) (valof vl y) =? 0)%Z.
  - by apply sublist_cons.
  - by apply sublist_skip.
Qed.

(** Every value of the sequence is still there. *)
Lemma delete_dup_nodes_covers xs :
  forall x,
    x ∈ xs ->
    exists y, y ∈ delete_dup_nodes vl xs /\
              strcmp (valof vl x) (valof vl y) = 0%Z.
Proof.
  induction xs as [|a xs IH]; intros x; [by intros ?%elem_of_nil|].
  destruct xs as [|b xs].
  { intros ->%list_elem_of_singleton. exists a.
    split; [left | apply strcmp_refl]. }
  rewrite delete_dup_nodes_cons. intros Hx.
  destruct (Z.eqb_spec (strcmp (valof vl a) (valof vl b)) 0) as [E|E].
  - apply elem_of_cons in Hx as [->|Hx]; [|by apply IH].
    destruct (IH b ltac:(left)) as (y & Hy & Hby).
    exists y. split; [done|]. by apply (strcmp_eq_trans _ (valof vl b)).
  - apply elem_of_cons in Hx as [->|Hx].
    + exists a. split; [left | apply strcmp_refl].
    + destruct (IH x Hx) as (y & Hy & Hxy).
      exists y. split; [by right|done].
Qed.

(** On an ascending sequence what is left is strictly ascending. *)
Lemma delete_dup_nodes_strict xs :
  StronglySorted (value_le vl) xs ->
  StronglySorted (value_lt vl) (delete_dup_nodes vl xs).
Proof.
  induction xs as [|a xs IH]; [constructor|].
  destruct xs as [|b xs]; [by repeat constructor|].
  intros S. apply StronglySorted_inv in S as [S Fa].
  rewrite delete_dup_nodes_cons.
  destruct (Z.eqb_spec (strcmp (valof vl a) (valof vl b)) 0) as [E|E];
    [by apply IH|].
  constructor; [by apply IH|].
  apply Forall_forall. intros z Hz.
  assert (z ∈ b :: xs) as Hz'.
  { eapply elem_of_sublist; [done | apply delete_dup_nodes_sublist]. }
  pose proof (Forall_inv Fa) as Hab. unfold value_le in Hab.
  assert (value_lt vl a b) as Hlt by (unfold value_lt; lia).
  apply StronglySorted_inv in S as [_ Fb].
  apply elem_of_cons in Hz' as [->|Hz']; [done|].
  rewrite Forall_forall in Fb.
  apply (strcmp_lt_le_trans _ (valof vl b)); [done | by apply Fb].
Qed.

(** An ascending arrangement of strictly ascending nodes is the
    arrangement itself. *)
Lemma strictly_sorted_unique xs :
  forall ys,
    StronglySorted (value_lt vl) xs -> StronglySorted (value_le vl) ys ->
    ys ≡ₚ xs -> ys = xs.
Proof.
  induction xs as [|x xs IH]; intros ys Sx Sy P.
  - by apply Permutation_nil_r in P.
  - destruct ys as [|y ys]; [by apply Permutation_nil_cons in P|].
    apply StronglySorted_inv in Sx as [Sx Fx].
    apply StronglySorted_inv in Sy as [Sy Fy].
    rewrite Forall_forall in Fx, Fy.
    assert (y = x) as ->.
    { destruct (decide (y = x)) as [|Hne]; [done | exfalso].
      assert (y ∈ xs) as Hy.
      { assert (y ∈ x :: xs) as Hin by (rewrite <- P; left).
        set_solver. }
      assert (x ∈ ys) as Hx.
      { assert (x ∈ y :: ys) as Hin by (rewrite P; left).
        set_solver. }
      pose proof (Fx y Hy) as H1. pose proof (Fy x Hx) as H2.
      unfold value_lt, value_le in *. rewrite strcmp_antisym in H2. lia. }
    f_equal. apply IH; [done | done |].
    by apply Permutation_cons_inv in P.
Qed.
End SortedDup.

(** ** A sorted queue, sorted again *)

Section SortAgain.
Implicit Types (h : heap) (head : N) (xs ys : list N).

Lemma sorted_queue_forward h h' head xs ys :
  queue h head xs -> sorted_queue h h' head xs ys -> forward h' head ys.
Proof.
  intros Q SQ. pose proof (sf_perm _ _ _ (sq_sorted _ _ _ _ _ SQ)) as P.
  split.
  - rewrite P. apply Q.
  - by eapply queue_head_nonnull.
  - apply SQ.
Qed.

(** When the sorted order is the order the queue had, the sort has left the
    store as it was. *)
Lemma sorted_queue_same_order h h' head xs :
  queue h head xs -> xs <> [] -> sorted_queue h h' head xs xs -> h' = h.
Proof.
  intros Q Hne SQ.
  pose proof (sorted_queue_last_prev _ _ _ _ _ Q Hne SQ) as Hstale.
  assert (queue h' head xs) as Q'.
  { split; [apply Q | apply Q | apply SQ | |].
    - pose proof (sq_prev_head _ _ _ _ _ SQ) as Hph.
      pose proof (sq_prev_rest _ _ _ _ _ SQ) as Hpr.
      pose proof (q_prev _ _ _ Q) as Hpv.
      destruct (exists_last Hne) as (B & l & ->).
      rewrite last_last in *. rewrite removelast_last in Hpr.
      rewrite reverse_snoc in *.
      pose proof (cycle_mid _ _ [] _ _ Hpv) as Hl. rewrite <- Hstale in Hl.
      unfold cycle. simpl. split; [done|]. exists l. split; [done|].
      split; [done|]. by exists (List.hd head (reverse B)).
    - rewrite (sq_value _ _ _ _ _ SQ). apply Q. }
  apply (queue_store_eq _ _ head xs); try done; try apply SQ.
  intros k Hk. apply (sq_prev_outside _ _ _ _ _ SQ).
  intros Hin. apply Hk. apply elem_of_cons in Hin as [->|Hin]; [left|right].
  destruct (exists_last Hne) as (B & l & E). rewrite E in Hin |- *.
  rewrite removelast_last in Hin. set_solver.
Qed.
End SortAgain.

(** ** Queues without equal neighbours *)

Section Neighbours.
Implicit Types (h : heap) (head x : N) (xs rest : list N).

Lemma distinct_neighbours_cons vl x y xs :
  distinct_neighbours vl (x :: y :: xs) <->
  strcmp (valof vl x) (valof vl y) <> 0%Z /\
  distinct_neighbours vl (y :: xs).
Proof. done. Qed.

Lemma distinct_neighbours_ext (vl vl' : gmap N string) xs :
  (forall k, k ∈ xs -> vl' !! k = vl !! k) ->
  distinct_neighbours vl xs -> distinct_neighbours vl' xs.
Proof.
  induction xs as [|x xs IH]; [done|]. destruct xs as [|y xs]; [done|].
  intros Hk. rewrite !distinct_neighbours_cons. intros [Hxy D].
  split; [|apply IH; [intros k ?; apply Hk; by right | done]].
  unfold valof. by rewrite (Hk x), (Hk y) by set_solver.
Qed.

(** The walk keeps, for the first node, a node of the same value. *)
Lemma delete_dup_nodes_hd vl xs :
  forall x,
    exists z rest,
      delete_dup_nodes vl (x :: xs) = z :: rest /\
      strcmp (valof vl x) (valof vl z) = 0%Z.
Proof.
  induction xs as [|y xs IH]; intros x.
  - exists x, []. split; [done | apply strcmp_refl].
  - rewrite delete_dup_nodes_cons.
    destruct (Z.eqb_spec (strcmp (valof vl x) (valof vl y)) 0) as [E|E].
    + destruct (IH y) as (z & rest & -> & Hz). exists z, rest.
      split; [done|]. by apply (strcmp_eq_trans _ (valof vl y)).
    + eexists _, _. split; [done | apply strcmp_refl].
Qed.

Lemma delete_dup_nodes_distinct vl xs :
  distinct_neighbours vl (delete_dup_nodes vl xs).
Proof.
  induction xs as [|x xs IH]; [done|]. destruct xs as [|y xs]; [done|].
  rewrite delete_dup_nodes_cons.
  destruct (Z.eqb_spec (strcmp (valof vl x) (valof vl y)) 0) as [E|E];
    [done|].
  destruct (delete_dup_nodes_hd vl xs y) as (z & rest & Ez & Hz).
  rewrite Ez in IH |- *. rewrite distinct_neighbours_cons.
  split; [|done]. intros Hxz. apply E.
  apply (strcmp_eq_trans _ (valof vl z)); [done|].
  rewrite strcmp_antisym. lia.
Qed.

(** Without equal neighbours the walk of [q_delete_dup] writes nothing. *)
Lemma q_delete_dup_loop_fixed head rest :
  forall front h safe fuel,
    queue h head (front ++ rest) ->
    distinct_neighbours (h_value h) rest ->
    h_next h !! List.hd head rest = Some safe ->
    (length rest <= fuel)%nat ->
    q_delete_dup_loop fuel head (List.hd head rest) safe h = Some (tt, h).
Proof.
  induction rest as [|x rest IH]; intros front h safe fuel Q D Hsafe Hfuel;
    rewrite q_delete_dup_loop_eq.
  - simpl. by rewrite N.eqb_refl.
  - change (List.hd head (x :: rest)) with x in *.
    destruct fuel as [|fuel]; [simpl in Hfuel; lia|].
    pose proof (q_nodup _ _ _ Q) as Hnd.
    assert (x <> head) as Hxh.
    { intros ->. apply NoDup_cons in Hnd as [Hh _]. set_solver. }
    destruct (N.eqb_spec x head) as [|_]; [done|].
    pose proof (cycle_mid _ _ _ _ _ (q_next _ _ _ Q)) as Hx.
    rewrite Hx in Hsafe. injection Hsafe as <-.
    rewrite (run_load_next _ _ _ _ Hx).
    destruct rest as [|y rest].
    { simpl. by rewrite N.eqb_refl. }
    change (List.hd head (y :: rest)) with y in *.
    assert (y <> head) as Hyh.
    { intros ->. apply NoDup_cons in Hnd as [Hh _]. set_solver. }
    destruct (N.eqb_spec y head) as [|_]; [done|].
    pose proof (q_vals _ _ _ Q) as Hv. rewrite Forall_forall in Hv.
    destruct (Hv x ltac:(set_solver)) as [vx Hvx].
    destruct (Hv y ltac:(set_solver)) as [vy Hvy].
    rewrite (run_load_value _ _ _ _ Hvx), (run_load_value _ _ _ _ Hvy).
    apply distinct_neighbours_cons in D as [Hxy D].
    unfold valof in Hxy. rewrite Hvx, Hvy in Hxy. simpl in Hxy.
    destruct (Z.eqb_spec (strcmp vx vy) 0) as [|_]; [done|].
    rewrite run_ret.
    destruct (queue_next_is_Some h head (front ++ x :: y :: rest) y Q)
      as [sn Hsn]; [set_solver|].
    rewrite (run_load_next _ _ _ _ Hsn).
    apply (IH (front ++ [x])); [by rewrite <- app_assoc|done|done|].
    simpl in *. lia.
Qed.

Lemma q_delete_dup_fixed h head xs fuel :
  queue h head xs -> distinct_neighbours (h_value h) xs ->
  (length xs <= fuel)%nat ->
  q_delete_dup fuel head h = Some (true, h).
Proof.
  intros Q D Hfuel. unfold q_delete_dup.
  pose proof (queue_head_nonnull _ _ _ Q).
  destruct (N.eqb_spec head NULL) as [|_]; [done|].
  pose proof (cycle_head _ _ _ (q_next _ _ _ Q)) as Hn.
  rewrite (run_load_next _ _ _ _ Hn).
  destruct (queue_next_is_Some h head xs (List.hd head xs) Q)
    as [safe Hsafe]; [apply hd_elem_of|].
  rewrite (run_load_next _ _ _ _ Hsafe).
  by rewrite (run_bind _ _ _ _ _
                (q_delete_dup_loop_fixed head xs [] h safe fuel Q D Hsafe
                   Hfuel)).
Qed.
End Neighbours.

(** ** Stores compared field by field *)

Section Stores.
Implicit Types (h : heap) (head : N) (xs : list N).

Lemma heap_eq h h' :
  (forall k, h_next h' !! k = h_next h !! k) ->
  (forall k, h_prev h' !! k = h_prev h !! k) ->
  (forall k, h_value h' !! k = h_value h !! k) ->
  h_bytes h' = h_bytes h -> h' = h.
Proof.
  destruct h, h'. simpl. intros Hn Hp Hv ->.
  f_equal; by apply map_eq.
Qed.

(** Releasing every node of a ring that was only relinked leaves what
    releasing the ring it came from leaves. *)
Lemma all_released_relinked h h1 h2 l l' xs xs' :
  (forall k, k ∈ l <-> k ∈ l') -> (forall k, k ∈ xs <-> k ∈ xs') ->
  same_outside l (h_next h) (h_next h1) ->
  same_outside l (h_prev h) (h_prev h1) ->
  h_value h1 = h_value h -> h_bytes h1 = h_bytes h ->
  all_released l' xs' h1 h2 -> all_released l xs h h2.
Proof.
  intros Hl Hxs Rn Rp Rv Rb [An Ap Av Ab]. split.
  - intros k. rewrite An. destruct (decide (k ∈ l)) as [Hk|Hk].
    + by rewrite decide_True by (by apply Hl).
    + rewrite decide_False by (by rewrite <- Hl). by apply Rn.
  - intros k. rewrite Ap. destruct (decide (k ∈ l)) as [Hk|Hk].
    + by rewrite decide_True by (by apply Hl).
    + rewrite decide_False by (by rewrite <- Hl). by apply Rp.
  - intros k. rewrite Av, Rv. destruct (decide (k ∈ xs)) as [Hk|Hk].
    + by rewrite decide_True by (by apply Hxs).
    + by rewrite decide_False by (by rewrite <- Hxs).
  - by rewrite Ab.
Qed.

Lemma sorted_queue_relinked h h' head xs ys :
  sorted_queue h h' head xs ys -> relinked (head :: xs) h h'.
Proof.
  intros SQ. pose proof (sf_perm _ _ _ (sq_sorted _ _ _ _ _ SQ)) as P.
  split; try apply SQ.
  intros k Hk. apply (sq_prev_outside _ _ _ _ _ SQ).
  intros Hin. apply Hk. apply elem_of_cons in Hin as [->|Hin]; [left|right].
  rewrite <- P. destruct (decide (ys = [])) as [->|Hne]; [done|].
  destruct (exists_last Hne) as (B & l & E). rewrite E in Hin |- *.
  rewrite removelast_last in Hin. set_solver.
Qed.
End Stores.

(** ** Dropping duplicates after a sort *)

Section AfterSort.
Implicit Types (h hr : heap) (head l x : N) (xs ys rest : list N).

Lemma prev_off_refl l h : is_Some (h_prev h !! l) -> prev_off l h h.
Proof. by split. Qed.

(** Unlinking and releasing a node other than [l] does not read the [prev]
    field of [l]. *)
Lemma delete_node_prev_off l x h hr hr1 :
  prev_off l h hr -> x <> l ->
  bind (list_del x) (fun _ => q_release_element x) hr = Some (tt, hr1) ->
  exists h1,
    bind (list_del x) (fun _ => q_release_element x) h = Some (tt, h1) /\
    prev_off l h1 hr1.
Proof.
  intros [Pn Pp Pl Pv Pb] Hx.
  unfold bind, list_del, q_release_element, bind, load_next, load_prev,
    store_prev, store_next, free_value, free_node.
  rewrite Pn.
  destruct (h_next hr !! x) as [nxt|]; [|done].
  rewrite (Pp x Hx).
  destruct (h_prev hr !! x) as [prv|]; [|done].
  destruct (h_prev hr !! nxt) as [pn|] eqn:Hpn; [|done].
  assert (is_Some (h_prev h !! nxt)) as [? ->].
  { destruct (decide (nxt = l)) as [->|Hne]; [done|].
    rewrite (Pp nxt Hne), Hpn. by eexists. }
  simpl. rewrite Pn.
  destruct (h_next hr !! prv) as [?|]; [|done]. simpl. rewrite Pv.
  destruct (h_value hr !! x) as [?|]; [|done]. simpl. rewrite ?Pn.
  destruct (<[prv:=nxt]> (h_next hr) !! x) as [?|]; [|done].
  intros [= <-]. eexists. split; [reflexivity|].
  split; simpl; [done | | | done | done].
  - intros k Hk. destruct (decide (k = x)) as [->|Hkx].
    + by rewrite !lookup_delete_eq.
    + rewrite !lookup_delete_ne by done.
      destruct (decide (k = nxt)) as [->|Hkn].
      * by rewrite !lookup_insert_eq.
      * rewrite !lookup_insert_ne by done. by apply Pp.
  - rewrite lookup_delete_ne by done.
    apply lookup_insert_is_Some'. by right.
Qed.

Lemma last_skip (d : N) front x y rest :
  List.last (front ++ x :: y :: rest) d = List.last (front ++ y :: rest) d.
Proof.
  induction front as [|a front IH]; [done|].
  change (List.last (a :: (front ++ x :: y :: rest)) d
          = List.last (a :: (front ++ y :: rest)) d).
  destruct front; simpl in *; done.
Qed.

(** The walk of [q_delete_dup] never reads the [prev] field of the last
    node: run on a store that differs from a valid queue in that field
    only, it does what it does on the valid queue. *)
Lemma q_delete_dup_loop_prev_off head rest :
  forall front h hr safe fuel,
    queue hr head (front ++ rest) ->
    prev_off (List.last (front ++ rest) head) h hr ->
    h_next hr !! List.hd head rest = Some safe ->
    (length rest <= fuel)%nat ->
    exists h' hr',
      q_delete_dup_loop fuel head (List.hd head rest) safe h
      = Some (tt, h') /\
      q_delete_dup_loop fuel head (List.hd head rest) safe hr
      = Some (tt, hr') /\
      prev_off (List.last (front ++ rest) head) h' hr'.
Proof.
  induction rest as [|x rest IH]; intros front h hr safe fuel Q P Hsafe Hfuel;
    rewrite !q_delete_dup_loop_eq.
  - simpl. rewrite N.eqb_refl. by exists h, hr.
  - change (List.hd head (x :: rest)) with x in *.
    destruct fuel as [|fuel]; [simpl in Hfuel; lia|].
    pose proof (q_nodup _ _ _ Q) as Hnd.
    assert (x <> head) as Hxh.
    { intros ->. apply NoDup_cons in Hnd as [Hh _]. set_solver. }
    destruct (N.eqb_spec x head) as [|_]; [done|].
    pose proof (cycle_mid _ _ _ _ _ (q_next _ _ _ Q)) as Hx.
    rewrite Hx in Hsafe. injection Hsafe as <-.
    pose proof Hx as Hx'. rewrite <- (po_next _ _ _ P) in Hx'.
    rewrite (run_load_next _ _ _ _ Hx), (run_load_next _ _ _ _ Hx').
    destruct rest as [|y rest].
    { simpl. rewrite N.eqb_refl. by exists h, hr. }
    change (List.hd head (y :: rest)) with y in *.
    assert (y <> head) as Hyh.
    { intros ->. apply NoDup_cons in Hnd as [Hh _]. set_solver. }
    destruct (N.eqb_spec y head) as [|_]; [done|].
    pose proof (q_vals _ _ _ Q) as Hv. rewrite Forall_forall in Hv.
    destruct (Hv x ltac:(set_solver)) as [vx Hvx].
    destruct (Hv y ltac:(set_solver)) as [vy Hvy].
    pose proof Hvx as Hvx'. pose proof Hvy as Hvy'.
    rewrite <- (po_value _ _ _ P) in Hvx', Hvy'.
    rewrite (run_load_value _ _ _ _ Hvx), (run_load_value _ _ _ _ Hvy).
    rewrite (run_load_value _ _ _ _ Hvx'), (run_load_value _ _ _ _ Hvy').
    assert (x <> List.last (front ++ x :: y :: rest) head) as Hxl.
    { intros E. pose proof (cycle_last _ _ _ (q_next _ _ _ Q)) as Hl.
      rewrite <- E, Hx in Hl. by injection Hl. }
    destruct (strcmp vx vy =? 0)%Z.
    + destruct (queue_delete_node _ _ _ _ _ Q) as (hr1 & Hrun1 & Q1 & _).
      destruct (delete_node_prev_off _ _ _ _ _ P Hxl Hrun1)
        as (h1 & Hrun1' & P1).
      rewrite (run_bind _ _ _ _ _ Hrun1), (run_bind _ _ _ _ _ Hrun1').
      destruct (queue_next_is_Some hr1 head (front ++ y :: rest) y Q1)
        as [sn Hsn]; [set_solver|].
      pose proof Hsn as Hsn'. rewrite <- (po_next _ _ _ P1) in Hsn'.
      rewrite (run_load_next _ _ _ _ Hsn), (run_load_next _ _ _ _ Hsn').
      rewrite last_skip in P1 |- *.
      apply (IH front h1 hr1 sn fuel Q1 P1 Hsn). simpl in *. lia.
    + rewrite !run_ret.
      destruct (queue_next_is_Some hr head (front ++ x :: y :: rest) y Q)
        as [sn Hsn]; [set_solver|].
      pose proof Hsn as Hsn'. rewrite <- (po_next _ _ _ P) in Hsn'.
      rewrite (run_load_next _ _ _ _ Hsn), (run_load_next _ _ _ _ Hsn').
      assert (front ++ x :: y :: rest = (front ++ [x]) ++ y :: rest) as E
          by (by rewrite <- app_assoc).
      rewrite E in Q, P |- *.
      apply (IH (front ++ [x]) h hr sn fuel Q P Hsn). simpl in *. lia.
Qed.

Lemma q_delete_dup_prev_off h hr head xs fuel :
  queue hr head xs -> prev_off (List.last xs head) h hr ->
  (length xs <= fuel)%nat ->
  exists h' hr',
    q_delete_dup fuel head h = Some (true, h') /\
    q_delete_dup fuel head hr = Some (true, hr') /\
    prev_off (List.last xs head) h' hr'.
Proof.
  intros Q P Hfuel. unfold q_delete_dup.
  pose proof (queue_head_nonnull _ _ _ Q).
  destruct (N.eqb_spec head NULL) as [|_]; [done|].
  pose proof (cycle_head _ _ _ (q_next _ _ _ Q)) as Hn.
  pose proof Hn as Hn'. rewrite <- (po_next _ _ _ P) in Hn'.
  rewrite (run_load_next _ _ _ _ Hn), (run_load_next _ _ _ _ Hn').
  destruct (queue_next_is_Some hr head xs (List.hd head xs) Q)
    as [safe Hsafe]; [apply hd_elem_of|].
  pose proof Hsafe as Hsafe'. rewrite <- (po_next _ _ _ P) in Hsafe'.
  rewrite (run_load_next _ _ _ _ Hsafe), (run_load_next _ _ _ _ Hsafe').
  destruct (q_delete_dup_loop_prev_off head xs [] h hr safe fuel Q P Hsafe
              Hfuel) as (h' & hr' & Hrun & Hrun' & P').
  rewrite (run_bind _ _ _ _ _ Hrun), (run_bind _ _ _ _ _ Hrun').
  by exists h', hr'.
Qed.

(** The store that [q_sort] leaves is a valid queue but for the [prev]
    field of its last node. *)
Lemma sorted_queue_repair h h1 head xs ys :
  queue h head xs -> xs <> [] -> sorted_queue h h1 head xs ys ->
  exists hr, queue hr head ys /\ prev_off (List.last ys head) h1 hr.
Proof.
  intros Q Hne SQ.
  pose proof (sf_perm _ _ _ (sq_sorted _ _ _ _ _ SQ)) as P.
  pose proof (sorted_queue_last_prev _ _ _ _ _ Q Hne SQ) as Hstale.
  pose proof (sq_prev_head _ _ _ _ _ SQ) as Hph.
  pose proof (sq_prev_rest _ _ _ _ _ SQ) as Hpr.
  pose proof (q_nodup _ _ _ Q) as Hnd. rewrite <- P in Hnd.
  assert (ys <> []) as Hne'.
  { intros ->. by apply Permutation_nil_l in P. }
  destruct (exists_last Hne') as (B & l & ->).
  rewrite last_last in *. rewrite removelast_last in Hpr.
  exists (set_prev l (List.hd head (reverse B)) h1).
  assert (l <> head) as Hlh.
  { intros ->. apply NoDup_cons in Hnd as [Hh _]. set_solver. }
  assert (l ∉ reverse B) as HlB.
  { apply NoDup_cons in Hnd as [_ Hnd].
    apply NoDup_app in Hnd as (_ & Hd & _).
    rewrite elem_of_reverse. intros Hin. apply (Hd _ Hin). left. }
  split; [split|split].
  - done.
  - rewrite P. apply Q.
  - apply SQ.
  - simpl. rewrite reverse_snoc. unfold cycle. simpl.
    split; [done|]. exists l.
    split; [by rewrite lookup_insert_ne|].
    split; [done|]. exists (List.hd head (reverse B)).
    split; [by rewrite lookup_insert_eq|].
    by apply lseg_insert.
  - simpl. rewrite (sq_value _ _ _ _ _ SQ), P. apply Q.
  - done.
  - intros k Hk. simpl. by rewrite lookup_insert_ne.
  - rewrite Hstale.
    apply (queue_prev_is_Some h head xs); [done|].
    right. rewrite <- P. set_solver.
  - done.
  - done.
Qed.
End AfterSort.

(** * The claims *)

Local Open Scope string_scope.
Local Open Scope list_scope.
Local Open Scope N_scope.

(** ** Insertion and removal *)

(** C6: an insertion at the head or at the tail that fails (null queue,
    failed allocation of the node, failed duplication of the string)
    returns false and leaves the whole store as it was, the node allocated
    before a failed duplication being released; an insertion that succeeds
    returns true and the queue gains exactly one element, at the front or at
    the back, that holds a copy of the string. *)
Theorem q_insert_all_or_nothing h head xs m ok s :
  (head <> NULL -> queue h head xs) ->
  (m <> NULL -> fresh h m) ->
  if (head =? NULL) || (m =? NULL) || negb ok
  then q_insert_head m ok head s h = Some (false, h) /\
       q_insert_tail m ok head s h = Some (false, h)
  else (exists h', q_insert_head m ok head s h = Some (true, h') /\
                   queue h' head (m :: xs) /\ gained h h' head xs m s) /\
       (exists h', q_insert_tail m ok head s h = Some (true, h') /\
                   queue h' head (xs ++ [m]) /\ gained h h' head xs m s).
Proof.
  intros Q F.
  destruct (N.eqb_spec head NULL) as [Hh|Hh]; simpl.
  { split; [apply q_insert_head_fails | apply q_insert_tail_fails];
      auto. }
  destruct (N.eqb_spec m NULL) as [Hm|Hm]; simpl.
  { split; [apply q_insert_head_fails | apply q_insert_tail_fails];
      auto. }
  destruct ok; simpl.
  - split; [apply q_insert_head_succeeds | apply q_insert_tail_succeeds];
      auto.
  - split; [apply q_insert_head_fails | apply q_insert_tail_fails];
      auto.
Qed.

Lemma q_insert_all_or_nothing_witness :
  queue (the_queue ["a"]) 1 [2] /\ fresh (the_queue ["a"]) 3 /\
  (exists h', q_insert_head 3 true 1 "b" (the_queue ["a"]) = Some (true, h') /\
              queue h' 1 [3; 2] /\
              gained (the_queue ["a"]) h' 1 [2] 3 "b") /\
  (exists h', q_insert_tail 3 true 1 "b" (the_queue ["a"]) = Some (true, h') /\
              queue h' 1 [2; 3] /\
              gained (the_queue ["a"]) h' 1 [2] 3 "b").
Proof.
  assert (Q : queue (the_queue ["a"]) 1 [2])
    by (apply queue_b_sound; vm_compute; reflexivity).
  assert (F : fresh (the_queue ["a"]) 3)
    by (repeat split; vm_compute; reflexivity).
  split; [exact Q|]. split; [exact F|].
  exact (q_insert_all_or_nothing (the_queue ["a"]) 1 [2] 3 true "b"
           (fun _ => Q) (fun _ => F)).
Defined.

(** C8: a removal at the head or at the tail of a null or empty queue
    returns NULL and leaves the store as it was; on a queue that is not
    empty it returns the boundary element, which is unlinked from the ring
    while its node and its string stay allocated, for the caller to
    release. *)
Theorem q_remove_unlinks_boundary h head xs sp bufsize :
  (head <> NULL -> queue h head xs) ->
  (head = NULL \/ xs = [] ->
   q_remove_head head sp bufsize h = Some (NULL, h) /\
   q_remove_tail head sp bufsize h = Some (NULL, h)) /\
  (head <> NULL -> forall x xs', xs = x :: xs' ->
   exists h', q_remove_head head sp bufsize h = Some (x, h') /\
              queue h' head xs' /\ kept h h') /\
  (head <> NULL -> forall x xs', xs = xs' ++ [x] ->
   exists h', q_remove_tail head sp bufsize h = Some (x, h') /\
              queue h' head xs' /\ kept h h').
Proof.
  intros Q. split; [|split].
  - intros Hc.
    assert (head = NULL \/ queue h head []) as Hc'.
    { destruct (decide (head = NULL)) as [|Hh]; [by left | right].
      destruct Hc as [| ->]; [done | auto]. }
    split; [by apply q_remove_head_empty | by apply q_remove_tail_empty].
  - intros Hh x xs' ->.
    destruct (q_remove_head_unlinks h head x xs' sp bufsize (Q Hh))
      as (h' & ? & ? & ? & _). by exists h'.
  - intros Hh x xs' ->.
    destruct (q_remove_tail_unlinks h head x xs' sp bufsize (Q Hh))
      as (h' & ? & ? & ? & _). by exists h'.
Qed.

Lemma q_remove_unlinks_boundary_witness :
  queue (the_queue ["a"; "b"]) 1 [2; 3] /\
  (exists h', q_remove_head 1 0 0 (the_queue ["a"; "b"]) = Some (2, h') /\
              queue h' 1 [3] /\ kept (the_queue ["a"; "b"]) h') /\
  (exists h', q_remove_tail 1 0 0 (the_queue ["a"; "b"]) = Some (3, h') /\
              queue h' 1 [2] /\ kept (the_queue ["a"; "b"]) h').
Proof.
  assert (Q : queue (the_queue ["a"; "b"]) 1 [2; 3])
    by (apply queue_b_sound; vm_compute; reflexivity).
  assert (H1 : (1 : N) <> NULL) by (vm_compute; discriminate).
  pose proof (q_remove_unlinks_boundary (the_queue ["a"; "b"]) 1 [2; 3] 0 0
                (fun _ => Q)) as (_ & Hhead & Htail).
  split; [exact Q|]. split.
  - exact (Hhead H1 2 [3] eq_refl).
  - exact (Htail H1 3 [2] eq_refl).
Defined.

(** ** Whole-list operations *)

(** C7: on a queue of [n >= 1] elements [q_delete_mid] returns true, and
    unlinks and releases exactly the element of index [n / 2], the other
    elements keeping their order; on a null or empty queue it returns false
    and changes nothing.  On a, b, c, d, e and on a, b, c, d it removes c. *)
Theorem q_delete_mid_removes_middle :
  (forall h head xs fuel,
      queue h head xs -> xs <> [] -> (length xs / 2 <= fuel)%nat ->
      exists h' x,
        xs !! (length xs / 2)%nat = Some x /\
        q_delete_mid fuel head h = Some (true, h') /\
        queue h' head (delete (length xs / 2)%nat xs) /\
        released h h' x) /\
  (forall h head fuel,
      head = NULL \/ queue h head [] ->
      q_delete_mid fuel head h = Some (false, h)) /\
  values_after (q_delete_mid 5 1) ["a"; "b"; "c"; "d"; "e"]
  = Some ["a"; "b"; "d"; "e"] /\
  values_after (q_delete_mid 5 1) ["a"; "b"; "c"; "d"]
  = Some ["a"; "b"; "d"].
Proof.
  split; [|split; [|split]].
  - intros. by apply q_delete_mid_spec.
  - intros. by apply q_delete_mid_empty.
  - vm_compute. reflexivity.
  - vm_compute. reflexivity.
Qed.

Lemma q_delete_mid_removes_middle_witness :
  queue (the_queue ["a"; "b"; "c"; "d"]) 1 [2; 3; 4; 5] /\
  [2; 3; 4; 5] <> ([] : list N) /\ (length [2; 3; 4; 5] / 2 <= 2)%nat /\
  exists h' x,
    [2; 3; 4; 5] !! (length [2; 3; 4; 5] / 2)%nat = Some x /\
    q_delete_mid 2 1 (the_queue ["a"; "b"; "c"; "d"]) = Some (true, h') /\
    queue h' 1 (delete (length [2; 3; 4; 5] / 2)%nat [2; 3; 4; 5]) /\
    released (the_queue ["a"; "b"; "c"; "d"]) h' x.
Proof.
  assert (Q : queue (the_queue ["a"; "b"; "c"; "d"]) 1 [2; 3; 4; 5])
    by (apply queue_b_sound; vm_compute; reflexivity).
  assert (Hne : [2; 3; 4; 5] <> ([] : list N)) by discriminate.
  assert (Hf : (length [2; 3; 4; 5] / 2 <= 2)%nat) by (vm_compute; lia).
  split; [exact Q|]. split; [exact Hne|]. split; [exact Hf|].
  exact (proj1 q_delete_mid_removes_middle _ _ _ _ Q Hne Hf).
Defined.

(** C9: [q_reverse] relinks the nodes of a valid queue into the reversed
    order without allocating or releasing anything (the allocated nodes and
    the values are the same, and nothing outside the ring is written), and
    applying it twice gives back the store it started from, hence the same
    nodes in the same order. *)
Theorem q_reverse_involution h head xs fuel :
  queue h head xs -> (length xs <= fuel)%nat ->
  exists h',
    q_reverse fuel head h = Some (tt, h') /\
    queue h' head (reverse xs) /\
    relinked (head :: xs) h h' /\
    q_reverse fuel head h' = Some (tt, h).
Proof.
  intros Q Hfuel.
  destruct (q_reverse_spec _ _ _ _ Q Hfuel) as (h1 & Hrun1 & Q1 & R1).
  destruct (q_reverse_twice _ _ _ _ Q Hfuel) as (h2 & Hrun2 & Hback).
  assert (h2 = h1) as -> by congruence.
  by exists h1.
Qed.

Lemma q_reverse_involution_witness :
  queue (the_queue ["a"; "b"; "c"]) 1 [2; 3; 4] /\
  (length [2; 3; 4] <= 3)%nat /\
  exists h',
    q_reverse 3 1 (the_queue ["a"; "b"; "c"]) = Some (tt, h') /\
    queue h' 1 (reverse [2; 3; 4]) /\
    relinked (1 :: [2; 3; 4]) (the_queue ["a"; "b"; "c"]) h' /\
    q_reverse 3 1 h' = Some (tt, the_queue ["a"; "b"; "c"]).
Proof.
  assert (Q : queue (the_queue ["a"; "b"; "c"]) 1 [2; 3; 4])
    by (apply queue_b_sound; vm_compute; reflexivity).
  assert (Hf : (length [2; 3; 4] <= 3)%nat) by (simpl; lia).
  split; [exact Q|]. split; [exact Hf|].
  exact (q_reverse_involution _ _ _ _ Q Hf).
Defined.

(** ** Sorting *)

(** C4: [q_sort] arranges the elements of a queue in ascending order of
    their values under [strcmp], a byte-wise, case-sensitive comparison; the
    nodes and their values are the same, so the multiset of elements is
    preserved.  It has no effect on a null, empty or singular queue.
    Inserting b, a, c at the tail of a new queue and sorting gives
    a, b, c. *)
Theorem q_sort_sorts :
  (forall h head xs fuel,
      queue h head xs -> (length xs < fuel)%nat ->
      exists h' ys,
        q_sort fuel head h = Some (tt, h') /\
        cycle (h_next h') head ys /\
        ys ≡ₚ xs /\
        StronglySorted (value_le (h_value h')) ys /\
        h_value h' = h_value h /\
        ((length xs <= 1)%nat -> h' = h)) /\
  (forall h fuel, q_sort fuel NULL h = Some (tt, h)) /\
  values_after (q_sort 4 1) ["b"; "a"; "c"] = Some ["a"; "b"; "c"] /\
  (strcmp "B" "a" < 0)%Z.
Proof.
  split; [|split; [|split]].
  - intros h head xs fuel Q Hfuel.
    destruct (decide (length xs <= 1)%nat) as [Hshort|Hlong].
    + exists h, xs. split; [apply (q_sort_short h head xs); auto|].
      split; [apply Q|]. split; [done|].
      split; [apply sorted_from_short; done | done].
    + destruct (q_sort_spec h head xs fuel Q ltac:(lia) Hfuel)
        as (h' & ys & Hrun & SQ).
      exists h', ys. split; [exact Hrun|].
      split; [apply SQ|]. split; [apply SQ|].
      split; [rewrite (sq_value _ _ _ _ _ SQ); apply SQ|].
      split; [apply SQ | lia].
  - done.
  - vm_compute. reflexivity.
  - vm_compute. reflexivity.
Qed.

Lemma q_sort_sorts_witness :
  queue (the_queue ["b"; "a"; "c"]) 1 [2; 3; 4] /\
  (length [2; 3; 4] < 4)%nat /\
  exists h' ys,
    q_sort 4 1 (the_queue ["b"; "a"; "c"]) = Some (tt, h') /\
    cycle (h_next h') 1 ys /\
    ys ≡ₚ [2; 3; 4] /\
    StronglySorted (value_le (h_value h')) ys /\
    h_value h' = h_value (the_queue ["b"; "a"; "c"]) /\
    ((length [2; 3; 4] <= 1)%nat -> h' = the_queue ["b"; "a"; "c"]).
Proof.
  assert (Q : queue (the_queue ["b"; "a"; "c"]) 1 [2; 3; 4])
    by (apply queue_b_sound; vm_compute; reflexivity).
  assert (Hf : (length [2; 3; 4] < 4)%nat) by (simpl; lia).
  split; [exact Q|]. split; [exact Hf|].
  exact (proj1 q_sort_sorts _ _ _ _ Q Hf).
Defined.

(** C3, as the code has it: in the merge of two chains, when the two head
    values compare equal the element taken is the head of the second chain
    (the head of the first chain is taken only when its value is strictly
    smaller); so [q_sort] is not stable: the elements of equal value appear
    in the sorted queue in the reverse of the order they had. *)
Theorem q_sort_reverses_ties :
  (forall h fuel a xs1 b xs2,
      lseg (h_next h) a (a :: xs1) NULL ->
      lseg (h_next h) b (b :: xs2) NULL ->
      NoDup ((a :: xs1) ++ b :: xs2) -> NULL ∉ (a :: xs1) ++ b :: xs2 ->
      Forall (fun x => is_Some (h_value h !! x)) ((a :: xs1) ++ b :: xs2) ->
      (length (a :: xs1) + length (b :: xs2) <= fuel)%nat ->
      strcmp (valof (h_value h) a) (valof (h_value h) b) = 0%Z ->
      exists h', mergeTwoLists fuel a b h = Some (b, h')) /\
  (forall h head xs fuel,
      queue h head xs -> (length xs < fuel)%nat ->
      exists h' ys,
        q_sort fuel head h = Some (tt, h') /\
        cycle (h_next h') head ys /\
        ys ≡ₚ xs /\
        forall v, filter (same_value (h_value h) v) ys
                  = reverse (filter (same_value (h_value h) v) xs)).
Proof.
  split.
  - intros h fuel a xs1 b xs2 H1 H2 Hnd Hnn Hv Hlen Htie.
    destruct (mergeTwoLists_spec fuel (a :: xs1) (b :: xs2) h a b
                Hlen H1 H2 Hnd Hnn Hv) as (h' & Hrun & _).
    rewrite merge_nodes_cons, Htie in Hrun. by exists h'.
  - intros h head xs fuel Q Hfuel.
    destruct (decide (length xs <= 1)%nat) as [Hshort|Hlong].
    + exists h, xs. split; [apply (q_sort_short h head xs); auto|].
      split; [apply Q|]. split; [done|].
      apply (sorted_from_short (h_value h) xs Hshort).
    + destruct (q_sort_spec h head xs fuel Q ltac:(lia) Hfuel)
        as (h' & ys & Hrun & SQ).
      exists h', ys. split; [exact Hrun|].
      split; [apply SQ|]. split; apply SQ.
Qed.

Lemma q_sort_reverses_ties_witness :
  queue (the_queue ["a"; "a"]) 1 [2; 3] /\
  (length [2; 3] < 3)%nat /\
  exists h' ys,
    q_sort 3 1 (the_queue ["a"; "a"]) = Some (tt, h') /\
    cycle (h_next h') 1 ys /\
    ys ≡ₚ [2; 3] /\
    forall v, filter (same_value (h_value (the_queue ["a"; "a"])) v) ys
              = reverse (filter (same_value (h_value (the_queue ["a"; "a"])) v)
                                [2; 3]).
Proof.
  assert (Q : queue (the_queue ["a"; "a"]) 1 [2; 3])
    by (apply queue_b_sound; vm_compute; reflexivity).
  assert (Hf : (length [2; 3] < 3)%nat) by (simpl; lia).
  split; [exact Q|]. split; [exact Hf|].
  exact (proj2 q_sort_reverses_ties _ _ _ _ Q Hf).
Defined.

(** C3, as the spec has it, fails: sorting the queue of two elements of
    value a, at the nodes 2 and 3 in this order, leaves them in the order
    3, 2. *)
Lemma q_sort_not_stable :
  nodes_after (ret tt) ["a"; "a"] = Some [2; 3] /\
  nodes_after (q_sort 3 1) ["a"; "a"] = Some [3; 2] /\
  h_value (the_queue ["a"; "a"]) !! 2 = Some "a" /\
  h_value (the_queue ["a"; "a"]) !! 3 = Some "a" /\
  ~ ties_kept (h_value (the_queue ["a"; "a"])) [2; 3] [3; 2].
Proof.
  repeat split; try (vm_compute; reflexivity).
  intros H. specialize (H "a"). vm_compute in H. discriminate.
Qed.

(** C10: the merge sort of a chain terminates: with fuel above the length
    of the chain [mergesort] returns; the fast/slow loop returns the node of
    index [k = (n - 1) / 2] of a chain of [n >= 2] nodes, and severing the
    link after it leaves two chains, of [k + 1] and [n - (k + 1)] nodes, both
    non-empty and shorter than [n]; the loop of [mergeTwoLists] returns
    within as many iterations as the two chains have nodes. *)
Theorem mergesort_terminates :
  (forall h p xs fuel,
      chain (h_next h) p xs ->
      Forall (fun x => is_Some (h_value h !! x)) xs ->
      (length xs < fuel)%nat ->
      exists r h', mergesort fuel p h = Some (r, h')) /\
  (forall h p xs fuel,
      chain (h_next h) p xs -> (2 <= length xs)%nat ->
      ((length xs - 1) / 2 <= fuel)%nat ->
      exists slow k,
        mergesort_split fuel p (nth 1 xs NULL) h = Some (slow, h) /\
        xs !! k = Some slow /\
        chain (<[slow := NULL]> (h_next h)) p (take (S k) xs) /\
        chain (<[slow := NULL]> (h_next h)) (nth (S k) xs NULL)
              (drop (S k) xs) /\
        (1 <= length (take (S k) xs) < length xs)%nat /\
        (1 <= length (drop (S k) xs) < length xs)%nat) /\
  (forall h l1 l2 xs1 xs2 fuel,
      chain (h_next h) l1 xs1 -> chain (h_next h) l2 xs2 ->
      (forall x, x ∈ xs1 -> x ∉ xs2) ->
      Forall (fun x => is_Some (h_value h !! x)) (xs1 ++ xs2) ->
      (length xs1 + length xs2 <= fuel)%nat ->
      exists r h', mergeTwoLists fuel l1 l2 h = Some (r, h')).
Proof.
  split; [|split].
  - intros h p xs fuel (Hc & Hnd & Hnn) Hv Hfuel.
    destruct (mergesort_spec fuel xs h p Hfuel Hc Hnd Hnn Hv)
      as (h' & ys & Hrun & _). eauto.
  - intros h p xs fuel (Hc & Hnd & Hnn) Hlen Hfuel.
    set (k := ((length xs - 1) / 2)%nat).
    assert (k + 1 < length xs)%nat as Hk.
    { subst k. pose proof (Nat.div_mod_eq (length xs - 1) 2).
      pose proof (Nat.mod_upper_bound (length xs - 1) 2). lia. }
    destruct (lookup_lt_is_Some_2 xs k ltac:(lia)) as [slow Hslow].
    exists slow, k.
    assert (p = nth 0 xs NULL) as E0
        by (rewrite (lseg_hd _ _ _ _ Hc); by destruct xs).
    pose proof (mergesort_split_spec h p xs Hc Hnn fuel 0
                  ltac:(lia) ltac:(fold k; lia)) as Hsplit.
    fold k in Hsplit. rewrite <- E0, (nth_lookup_Some _ _ _ _ Hslow) in Hsplit.
    split; [exact Hsplit|]. split; [exact Hslow|].
    pose proof (take_drop_middle _ _ _ Hslow) as Exs.
    assert (take (S k) xs = take k xs ++ [slow]) as ET
        by (by apply take_S_r).
    assert (Hsub : forall y, y ∈ take (S k) xs ++ drop (S k) xs <-> y ∈ xs)
      by (by rewrite take_drop).
    pose proof Hnd as Hnd'. rewrite <- (take_drop (S k) xs) in Hnd'.
    apply NoDup_app in Hnd' as (HndL & _ & HndR).
    rewrite <- Exs in Hc, Hnd.
    destruct (lseg_cut _ _ _ _ _ _ Hnd Hc) as (Hright & HL & HR).
    rewrite hd_drop in HR. rewrite <- ET in HL.
    split; [|split; [|split]].
    + split; [exact HL|]. split; [done|].
      intros Hin. apply Hnn, Hsub. set_solver.
    + split; [exact HR|]. split; [done|].
      intros Hin. apply Hnn, Hsub. set_solver.
    + rewrite length_take. lia.
    + rewrite length_drop. lia.
  - intros h l1 l2 xs1 xs2 fuel (H1 & Hnd1 & Hnn1) (H2 & Hnd2 & Hnn2)
           Hdis Hv Hfuel.
    destruct (mergeTwoLists_spec fuel xs1 xs2 h l1 l2 Hfuel H1 H2)
      as (h' & Hrun & _); [|set_solver|done|eauto].
    apply NoDup_app. done.
Qed.

Lemma mergesort_terminates_witness :
  chain (h_next (set_next 4 NULL (the_queue ["b"; "a"; "c"]))) 2 [2; 3; 4] /\
  Forall (fun x => is_Some
            (h_value (set_next 4 NULL (the_queue ["b"; "a"; "c"])) !! x))
         [2; 3; 4] /\
  (length [2; 3; 4] < 4)%nat /\
  exists r h',
    mergesort 4 2 (set_next 4 NULL (the_queue ["b"; "a"; "c"])) = Some (r, h').
Proof.
  assert (C : chain (h_next (set_next 4 NULL (the_queue ["b"; "a"; "c"])))
                    2 [2; 3; 4]).
  { split; [|split].
    - apply lseg_b_sound. vm_compute. reflexivity.
    - apply (bool_decide_eq_true_1 (NoDup [2; 3; 4])).
      vm_compute. reflexivity.
    - apply (bool_decide_eq_true_1 (NULL ∉ [2; 3; 4])).
      vm_compute. reflexivity. }
  assert (V : Forall (fun x => is_Some
            (h_value (set_next 4 NULL (the_queue ["b"; "a"; "c"])) !! x))
         [2; 3; 4]).
  { repeat constructor; vm_compute; by eexists. }
  assert (Hf : (length [2; 3; 4] < 4)%nat) by (simpl; lia).
  split; [exact C|]. split; [exact V|]. split; [exact Hf|].
  exact (proj1 mergesort_terminates _ _ _ _ C V Hf).
Defined.

(** ** Where the code departs from the claims *)

(** C1, as the code has it: [q_delete_dup] returns false on a null queue and
    true otherwise, and on a queue it drops a node exactly when the value of
    the node that follows it compares equal, so the last node of every run
    of equal values stays.  On the sorted queue a, a, b, c, c the result is
    a, b, c, not b alone. *)
Theorem q_delete_dup_keeps_one_copy :
  (forall h head xs fuel,
      queue h head xs -> (length xs <= fuel)%nat ->
      exists h',
        q_delete_dup fuel head h = Some (true, h') /\
        queue h' head (delete_dup_nodes (h_value h) xs) /\
        forall k, k ∈ delete_dup_nodes (h_value h) xs ->
                  h_value h' !! k = h_value h !! k) /\
  (forall h fuel, q_delete_dup fuel NULL h = Some (false, h)) /\
  nodes_after (q_delete_dup 5 1) ["a"; "a"; "b"; "c"; "c"] = Some [3; 4; 6] /\
  values_after (q_delete_dup 5 1) ["a"; "a"; "b"; "c"; "c"]
  = Some ["a"; "b"; "c"].
Proof.
  split; [|split; [|split]].
  - intros h head xs fuel Q Hfuel.
    destruct (q_delete_dup_spec h head xs fuel Q Hfuel)
      as (h' & ? & ? & ? & _). by exists h'.
  - done.
  - vm_compute. reflexivity.
  - vm_compute. reflexivity.
Qed.

Lemma q_delete_dup_keeps_one_copy_witness :
  queue (the_queue ["a"; "a"; "b"]) 1 [2; 3; 4] /\
  (length [2; 3; 4] <= 3)%nat /\
  exists h',
    q_delete_dup 3 1 (the_queue ["a"; "a"; "b"]) = Some (true, h') /\
    queue h' 1 (delete_dup_nodes (h_value (the_queue ["a"; "a"; "b"]))
                                 [2; 3; 4]) /\
    forall k, k ∈ delete_dup_nodes (h_value (the_queue ["a"; "a"; "b"]))
                                   [2; 3; 4] ->
              h_value h' !! k = h_value (the_queue ["a"; "a"; "b"]) !! k.
Proof.
  assert (Q : queue (the_queue ["a"; "a"; "b"]) 1 [2; 3; 4])
    by (apply queue_b_sound; vm_compute; reflexivity).
  assert (Hf : (length [2; 3; 4] <= 3)%nat) by (simpl; lia).
  split; [exact Q|]. split; [exact Hf|].
  exact (proj1 q_delete_dup_keeps_one_copy _ _ _ _ Q Hf).
Defined.

(** C2, as the code has it: in a valid queue the ring invariant holds at
    every node, and the final pass of [q_sort] closes the ring along [next],
    but it does not write the [prev] field of the last node of the sorted
    chain, which keeps the value it had before the sort; the ring invariant
    holds at that node only if its old predecessor is its new one.  On the
    queue b, a (nodes 2, 3) the sorted ring is 3, 2 and the invariant fails
    at both nodes, while it held before the sort. *)
Theorem q_sort_leaves_last_prev :
  (forall h head xs fuel,
      queue h head xs -> (2 <= length xs)%nat -> (length xs < fuel)%nat ->
      exists h' ys,
        q_sort fuel head h = Some (tt, h') /\
        (forall n, n ∈ head :: xs -> ring_ok_at h n = true) /\
        cycle (h_next h') head ys /\
        ys ≡ₚ xs /\
        h_prev h' !! List.last ys head = h_prev h !! List.last ys head /\
        (ring_ok_at h' (List.last ys head) = true ->
         h_prev h !! List.last ys head
         = Some (List.last (removelast ys) head))) /\
  forallb (ring_ok_at (the_queue ["b"; "a"])) [1; 2; 3] = true /\
  nodes_after (q_sort 3 1) ["b"; "a"] = Some [3; 2] /\
  match run_on (q_sort 3 1) ["b"; "a"] with
  | Some (_, h') =>
      h_prev h' !! 2 = Some 1 /\ h_next h' !! 1 = Some 3 /\
      ring_ok_at h' 2 = false /\ ring_ok_at h' 3 = false
  | None => False
  end.
Proof.
  split; [|split; [|split]].
  - intros h head xs fuel Q Hlen Hfuel.
    destruct (q_sort_spec h head xs fuel Q Hlen Hfuel)
      as (h' & ys & Hrun & SQ).
    assert (xs <> []) as Hne by (intros ->; simpl in Hlen; lia).
    exists h', ys. split; [exact Hrun|].
    split; [intros n Hn; by apply (queue_ring_ok h head xs)|].
    split; [apply SQ|]. split; [apply SQ|]. split.
    + by apply (sorted_queue_last_prev h h' head xs ys).
    + by apply (sorted_queue_last_ring h h' head xs ys).
  - vm_compute. reflexivity.
  - vm_compute. reflexivity.
  - vm_compute. repeat split; reflexivity.
Qed.

Lemma q_sort_leaves_last_prev_witness :
  queue (the_queue ["b"; "a"]) 1 [2; 3] /\
  (2 <= length [2; 3])%nat /\ (length [2; 3] < 3)%nat /\
  exists h' ys,
    q_sort 3 1 (the_queue ["b"; "a"]) = Some (tt, h') /\
    (forall n, n ∈ 1 :: [2; 3] ->
               ring_ok_at (the_queue ["b"; "a"]) n = true) /\
    cycle (h_next h') 1 ys /\
    ys ≡ₚ [2; 3] /\
    h_prev h' !! List.last ys 1
    = h_prev (the_queue ["b"; "a"]) !! List.last ys 1 /\
    (ring_ok_at h' (List.last ys 1) = true ->
     h_prev (the_queue ["b"; "a"]) !! List.last ys 1
     = Some (List.last (removelast ys) 1)).
Proof.
  assert (Q : queue (the_queue ["b"; "a"]) 1 [2; 3])
    by (apply queue_b_sound; vm_compute; reflexivity).
  assert (Hl : (2 <= length [2; 3])%nat) by (simpl; lia).
  assert (Hf : (length [2; 3] < 3)%nat) by (simpl; lia).
  split; [exact Q|]. split; [exact Hl|]. split; [exact Hf|].
  exact (proj1 q_sort_leaves_last_prev _ _ _ _ Q Hl Hf).
Defined.

(** C5, as the code has it: a removal copies the value into the caller's
    buffer whenever the buffer pointer is not null, whatever [bufsize] is.
    With a null pointer nothing is written; with [bufsize > 0] the buffer
    receives the bytes of the value, cut to [bufsize - 1] bytes and padded
    with zeros, its last byte is the terminator, and no byte outside the
    buffer is written.  With [bufsize = 0] the terminator is written at
    index [bufsize - 1], which wraps around: the byte just before the buffer
    is overwritten. *)
Theorem q_remove_copy_bounds :
  (forall h head x xs sp bufsize,
      queue h head (x :: xs) ->
      exists h',
        q_remove_head head sp bufsize h = Some (x, h') /\
        (sp = NULL -> h_bytes h' = h_bytes h) /\
        (sp <> NULL -> 0 < bufsize -> sp + bufsize <= SIZE_MOD ->
         copied (valof (h_value h) x) sp bufsize (h_bytes h) (h_bytes h'))) /\
  (forall h head x xs sp bufsize,
      queue h head (xs ++ [x]) ->
      exists h',
        q_remove_tail head sp bufsize h = Some (x, h') /\
        (sp = NULL -> h_bytes h' = h_bytes h) /\
        (sp <> NULL -> 0 < bufsize -> sp + bufsize <= SIZE_MOD ->
         copied (valof (h_value h) x) sp bufsize (h_bytes h) (h_bytes h'))) /\
  h_bytes (set_byte 99 "x" (the_queue ["ab"])) !! 99 = Some "x"%char /\
  match q_remove_head 1 100 0 (set_byte 99 "x" (the_queue ["ab"])) with
  | Some (e, h') => e = 2 /\ h_bytes h' !! 99 = Some zero
  | None => False
  end /\
  match q_remove_tail 1 100 0 (set_byte 99 "x" (the_queue ["ab"])) with
  | Some (e, h') => e = 2 /\ h_bytes h' !! 99 = Some zero
  | None => False
  end.
Proof.
  split; [|split; [|split; [|split]]].
  - intros h head x xs sp bufsize Q.
    destruct (q_remove_head_unlinks h head x xs sp bufsize Q)
      as (h' & ? & _ & _ & ? & ?). by exists h'.
  - intros h head x xs sp bufsize Q.
    destruct (q_remove_tail_unlinks h head x xs sp bufsize Q)
      as (h' & ? & _ & _ & ? & ?). by exists h'.
  - vm_compute. reflexivity.
  - vm_compute. split; reflexivity.
  - vm_compute. split; reflexivity.
Qed.

Lemma q_remove_copy_bounds_witness :
  queue (the_queue ["abcd"; "e"]) 1 [2; 3] /\
  exists h',
    q_remove_head 1 100 3 (the_queue ["abcd"; "e"]) = Some (2, h') /\
    ((100 : N) = NULL -> h_bytes h' = h_bytes (the_queue ["abcd"; "e"])) /\
    ((100 : N) <> NULL -> 0 < 3 -> 100 + 3 <= SIZE_MOD ->
     copied (valof (h_value (the_queue ["abcd"; "e"])) 2) 100 3
            (h_bytes (the_queue ["abcd"; "e"])) (h_bytes h')).
Proof.
  assert (Q : queue (the_queue ["abcd"; "e"]) 1 [2; 3])
    by (apply queue_b_sound; vm_compute; reflexivity).
  split; [exact Q|].
  exact (proj1 q_remove_copy_bounds _ 1 2 [3] 100 3 Q).
Defined.

(** * Further properties of the operations *)

(** ** Creation, size and release *)

(** X1: [q_new] returns NULL and leaves the store as it was when the
    allocation fails; otherwise it returns the allocated sentinel, which
    anchors a valid empty queue of size 0, and nothing else in the store
    changes. *)
Theorem q_new_empty_queue h m fuel :
  (m <> NULL -> fresh h m) ->
  if m =? NULL then q_new m h = Some (NULL, h)
  else exists h',
      q_new m h = Some (m, h') /\ queue h' m [] /\
      q_size fuel m h' = Some (0%Z, h') /\
      same_outside [m] (h_next h) (h_next h') /\
      same_outside [m] (h_prev h) (h_prev h') /\
      h_value h' = h_value h /\ h_bytes h' = h_bytes h.
Proof.
  intros F. destruct (N.eqb_spec m NULL) as [->|Hm]; [apply q_new_fails|].
  destruct (q_new_succeeds h m Hm (F Hm)) as [Hrun Q].
  eexists. split; [exact Hrun|]. split; [exact Q|].
  split; [|by repeat split; intros k Hk; simpl; apply lookup_insert_ne;
             set_solver].
  apply (q_size_spec _ m []); [by apply queue_forward | simpl; lia | done].
Qed.

Lemma q_new_empty_queue_witness :
  fresh empty_heap 1 /\
  exists h',
    q_new 1 empty_heap = Some (1, h') /\ queue h' 1 [] /\
    q_size 0 1 h' = Some (0%Z, h') /\
    same_outside [1] (h_next empty_heap) (h_next h') /\
    same_outside [1] (h_prev empty_heap) (h_prev h') /\
    h_value h' = h_value empty_heap /\ h_bytes h' = h_bytes empty_heap.
Proof.
  assert (F : fresh empty_heap 1) by (repeat split; vm_compute; reflexivity).
  split; [exact F|].
  exact (q_new_empty_queue empty_heap 1 0%nat (fun _ => F)).
Defined.

(** X2: on a ring that can be followed along [next] from the sentinel back
    to it, [q_size] returns the number of elements, as long as that number
    fits an [int], and it writes nothing; the [prev] links are not
    consulted. *)
Theorem q_size_counts h head xs fuel :
  forward h head xs -> (length xs <= fuel)%nat ->
  (Z.of_nat (length xs) < 2 ^ 31)%Z ->
  q_size fuel head h = Some (Z.of_nat (length xs), h).
Proof. apply q_size_spec. Qed.

Lemma q_size_counts_witness :
  forward (the_queue ["a"; "b"; "c"]) 1 [2; 3; 4] /\
  (length [2; 3; 4] <= 3)%nat /\
  (Z.of_nat (length [2; 3; 4]) < 2 ^ 31)%Z /\
  q_size 3 1 (the_queue ["a"; "b"; "c"])
  = Some (Z.of_nat (length [2; 3; 4]), the_queue ["a"; "b"; "c"]).
Proof.
  assert (Q : forward (the_queue ["a"; "b"; "c"]) 1 [2; 3; 4])
    by (apply queue_forward, queue_b_sound; vm_compute; reflexivity).
  assert (Hf : (length [2; 3; 4] <= 3)%nat) by (simpl; lia).
  assert (Hl : (Z.of_nat (length [2; 3; 4]) < 2 ^ 31)%Z) by (simpl; lia).
  split; [exact Q|]. split; [exact Hf|]. split; [exact Hl|].
  exact (q_size_counts _ _ _ _ Q Hf Hl).
Defined.

(** X3: [q_free] on a valid queue releases the node and the string of every
    element and then the sentinel, and changes nothing else in the store. *)
Theorem q_free_releases_all h head xs fuel :
  queue h head xs -> (length xs <= fuel)%nat ->
  exists h',
    q_free fuel head h = Some (tt, h') /\
    all_released (head :: xs) xs h h'.
Proof. apply q_free_spec. Qed.

Lemma q_free_releases_all_witness :
  queue (the_queue ["a"; "b"]) 1 [2; 3] /\ (length [2; 3] <= 2)%nat /\
  exists h',
    q_free 2 1 (the_queue ["a"; "b"]) = Some (tt, h') /\
    all_released (1 :: [2; 3]) [2; 3] (the_queue ["a"; "b"]) h'.
Proof.
  assert (Q : queue (the_queue ["a"; "b"]) 1 [2; 3])
    by (apply queue_b_sound; vm_compute; reflexivity).
  assert (Hf : (length [2; 3] <= 2)%nat) by (simpl; lia).
  split; [exact Q|]. split; [exact Hf|].
  exact (q_free_releases_all _ _ _ _ Q Hf).
Defined.

(** X4: a queue that is created with [q_new], filled by insertions at the
    tail and released with [q_free] leaves the store exactly as it was
    before the queue was created: every node and every string that was
    allocated is released. *)
Theorem q_new_insert_free_round_trip h head ms vs fuel :
  NoDup (head :: ms) -> NULL ∉ head :: ms ->
  Forall (fresh h) (head :: ms) ->
  length ms = length vs -> (length ms <= fuel)%nat ->
  exists h1 h2,
    q_new head h = Some (head, h1) /\
    insert_all head ms vs h1 = Some (true, h2) /\
    queue h2 head ms /\
    q_free fuel head h2 = Some (tt, h).
Proof.
  intros Hnd Hnn Hf Hlen Hfuel.
  apply NoDup_cons in Hnd as [Hhm Hnd].
  apply Forall_cons in Hf as [Fh Fm].
  assert (head <> NULL) as Hh by (intros ->; apply Hnn; left).
  destruct (q_new_succeeds h head Hh Fh) as [Hrun1 Q1].
  set (h1 := {| h_next := <[head := head]> (h_next h);
                h_prev := <[head := head]> (h_prev h);
                h_value := h_value h; h_bytes := h_bytes h |}) in *.
  assert (Forall (fresh h1) ms) as Fm1.
  { rewrite Forall_forall in Fm |- *. intros k Hk.
    destruct (Fm k Hk) as (? & ? & ?).
    assert (head <> k) by (by intros ->).
    repeat split; simpl; by rewrite ?lookup_insert_ne. }
  destruct (insert_all_spec ms vs h1 head [] Q1 Hlen Hnd
              ltac:(set_solver) Fm1)
    as (h2 & Hrun2 & Q2 & _ & Rn & Rp & Rv & Rb).
  simpl in Q2.
  destruct (q_free_spec h2 head ms fuel Q2 Hfuel)
    as (h3 & Hrun3 & [An Ap Av Ab]).
  exists h1, h2. split; [done|]. split; [done|]. split; [done|].
  rewrite Hrun3. do 2 f_equal. rewrite Forall_forall in Fm.
  apply heap_eq.
  - intros k. rewrite An. destruct (decide (k ∈ head :: ms)) as [Hk|Hk].
    + apply elem_of_cons in Hk as [->|Hk]; symmetry;
        [apply Fh | by apply Fm].
    + rewrite Rn by set_solver. simpl. apply lookup_insert_ne. set_solver.
  - intros k. rewrite Ap. destruct (decide (k ∈ head :: ms)) as [Hk|Hk].
    + apply elem_of_cons in Hk as [->|Hk]; symmetry;
        [apply Fh | by apply Fm].
    + rewrite Rp by set_solver. simpl. apply lookup_insert_ne. set_solver.
  - intros k. rewrite Av. destruct (decide (k ∈ ms)) as [Hk|Hk].
    + symmetry. by apply Fm.
    + by rewrite Rv.
  - by rewrite Ab, Rb.
Qed.

Lemma q_new_insert_free_round_trip_witness :
  NoDup (1 :: [2; 3]) /\ (NULL ∉ 1 :: [2; 3]) /\
  Forall (fresh empty_heap) (1 :: [2; 3]) /\
  length [2; 3] = length ["a"; "b"] /\ (length [2; 3] <= 2)%nat /\
  exists h1 h2,
    q_new 1 empty_heap = Some (1, h1) /\
    insert_all 1 [2; 3] ["a"; "b"] h1 = Some (true, h2) /\
    queue h2 1 [2; 3] /\
    q_free 2 1 h2 = Some (tt, empty_heap).
Proof.
  assert (Hnd : NoDup (1 :: [2; 3])).
  { apply (bool_decide_eq_true_1 (NoDup [1; 2; 3])).
    vm_compute. reflexivity. }
  assert (Hnn : NULL ∉ 1 :: [2; 3]).
  { apply (bool_decide_eq_true_1 (NULL ∉ [1; 2; 3])).
    vm_compute. reflexivity. }
  assert (Hf : Forall (fresh empty_heap) (1 :: [2; 3])).
  { repeat constructor. }
  assert (Hl : length [2; 3] = length ["a"; "b"]) by reflexivity.
  assert (Hfuel : (length [2; 3] <= 2)%nat) by (simpl; lia).
  split; [exact Hnd|]. split; [exact Hnn|]. split; [exact Hf|].
  split; [exact Hl|]. split; [exact Hfuel|].
  exact (q_new_insert_free_round_trip empty_heap 1 [2; 3] ["a"; "b"] 2%nat
           Hnd Hnn Hf Hl Hfuel).
Defined.

(** ** Insertion followed by removal *)

(** X5: an element inserted at the head (at the tail) is the one that the
    next removal at the head (at the tail) returns; it still holds the
    string it was given, and once the caller releases it the store is
    exactly what it was before the insertion. *)
Theorem q_insert_remove_release h head xs m s bufsize :
  queue h head xs -> fresh h m -> m <> NULL ->
  (exists h1 h2,
      q_insert_head m true head s h = Some (true, h1) /\
      q_remove_head head NULL bufsize h1 = Some (m, h2) /\
      h_value h2 !! m = Some s /\
      q_release_element m h2 = Some (tt, h)) /\
  (exists h1 h2,
      q_insert_tail m true head s h = Some (true, h1) /\
      q_remove_tail head NULL bufsize h1 = Some (m, h2) /\
      h_value h2 !! m = Some s /\
      q_release_element m h2 = Some (tt, h)).
Proof.
  intros Q F Hm. split.
  - destruct (q_insert_head_succeeds h head xs m s Q F Hm)
      as (h1 & Hrun1 & Q1 & G).
    destruct (q_remove_head_relinks h1 head m xs bufsize Q1)
      as (h2 & Hrun2 & Q2 & R).
    exists h1, h2. split; [done|]. split; [done|]. split.
    + rewrite (rl_value _ _ _ R), (g_value _ _ _ _ _ _ G).
      apply lookup_insert_eq.
    + by apply (release_after_remove h h1 h2 head xs m s).
  - destruct (q_insert_tail_succeeds h head xs m s Q F Hm)
      as (h1 & Hrun1 & Q1 & G).
    destruct (q_remove_tail_relinks h1 head m xs bufsize Q1)
      as (h2 & Hrun2 & Q2 & R).
    exists h1, h2. split; [done|]. split; [done|]. split.
    + rewrite (rl_value _ _ _ R), (g_value _ _ _ _ _ _ G).
      apply lookup_insert_eq.
    + by apply (release_after_remove h h1 h2 head xs m s).
Qed.

Lemma q_insert_remove_release_witness :
  queue (the_queue ["a"]) 1 [2] /\ fresh (the_queue ["a"]) 3 /\
  3 <> NULL /\
  (exists h1 h2,
      q_insert_head 3 true 1 "b" (the_queue ["a"]) = Some (true, h1) /\
      q_remove_head 1 NULL 0 h1 = Some (3, h2) /\
      h_value h2 !! 3 = Some "b" /\
      q_release_element 3 h2 = Some (tt, the_queue ["a"])) /\
  (exists h1 h2,
      q_insert_tail 3 true 1 "b" (the_queue ["a"]) = Some (true, h1) /\
      q_remove_tail 1 NULL 0 h1 = Some (3, h2) /\
      h_value h2 !! 3 = Some "b" /\
      q_release_element 3 h2 = Some (tt, the_queue ["a"])).
Proof.
  assert (Q : queue (the_queue ["a"]) 1 [2])
    by (apply queue_b_sound; vm_compute; reflexivity).
  assert (F : fresh (the_queue ["a"]) 3)
    by (repeat split; vm_compute; reflexivity).
  assert (Hm : 3 <> NULL) by (vm_compute; discriminate).
  split; [exact Q|]. split; [exact F|]. split; [exact Hm|].
  exact (q_insert_remove_release (the_queue ["a"]) 1 [2] 3 "b" 0 Q F Hm).
Defined.

(** X6: first in, first out: after an insertion at the tail of a queue that
    is not empty, a removal at the head returns the element that was at the
    head before, and the inserted element is the last of what remains; the
    mirror image holds for an insertion at the head and a removal at the
    tail. *)
Theorem q_insert_remove_opposite_ends h head x xs m s bufsize :
  fresh h m -> m <> NULL ->
  (queue h head (x :: xs) ->
   exists h1 h2,
     q_insert_tail m true head s h = Some (true, h1) /\
     q_remove_head head NULL bufsize h1 = Some (x, h2) /\
     queue h2 head (xs ++ [m])) /\
  (queue h head (xs ++ [x]) ->
   exists h1 h2,
     q_insert_head m true head s h = Some (true, h1) /\
     q_remove_tail head NULL bufsize h1 = Some (x, h2) /\
     queue h2 head (m :: xs)).
Proof.
  intros F Hm. split; intros Q.
  - destruct (q_insert_tail_succeeds h head (x :: xs) m s Q F Hm)
      as (h1 & Hrun1 & Q1 & _).
    destruct (q_remove_head_relinks h1 head x (xs ++ [m]) bufsize Q1)
      as (h2 & Hrun2 & Q2 & _).
    by exists h1, h2.
  - destruct (q_insert_head_succeeds h head (xs ++ [x]) m s Q F Hm)
      as (h1 & Hrun1 & Q1 & _).
    destruct (q_remove_tail_relinks h1 head x (m :: xs) bufsize Q1)
      as (h2 & Hrun2 & Q2 & _).
    by exists h1, h2.
Qed.

Lemma q_insert_remove_opposite_ends_witness :
  fresh (the_queue ["a"; "b"]) 4 /\ 4 <> NULL /\
  queue (the_queue ["a"; "b"]) 1 (2 :: [3]) /\
  exists h1 h2,
    q_insert_tail 4 true 1 "c" (the_queue ["a"; "b"]) = Some (true, h1) /\
    q_remove_head 1 NULL 0 h1 = Some (2, h2) /\
    queue h2 1 ([3] ++ [4]).
Proof.
  assert (Q : queue (the_queue ["a"; "b"]) 1 (2 :: [3]))
    by (apply queue_b_sound; vm_compute; reflexivity).
  assert (F : fresh (the_queue ["a"; "b"]) 4)
    by (repeat split; vm_compute; reflexivity).
  assert (Hm : 4 <> NULL) by (vm_compute; discriminate).
  split; [exact F|]. split; [exact Hm|]. split; [exact Q|].
  exact (proj1 (q_insert_remove_opposite_ends
                  (the_queue ["a"; "b"]) 1 2 [3] 4 "c" 0 F Hm) Q).
Defined.

(** X7: insertions at the tail, all of them succeeding, append the new
    elements in the order of the calls, each holding its string, and
    [q_size] then returns the number of elements the queue had plus the
    number of insertions. *)
Theorem insert_all_in_order h head xs ms vs fuel :
  queue h head xs -> length ms = length vs ->
  NoDup ms -> NULL ∉ ms -> Forall (fresh h) ms ->
  (length xs + length ms <= fuel)%nat ->
  (Z.of_nat (length xs + length ms) < 2 ^ 31)%Z ->
  exists h',
    insert_all head ms vs h = Some (true, h') /\
    queue h' head (xs ++ ms) /\
    Forall2 (fun m v => h_value h' !! m = Some v) ms vs /\
    q_size fuel head h' = Some (Z.of_nat (length xs + length ms), h').
Proof.
  intros Q Hlen Hnd Hnn Hf Hfuel Hint.
  destruct (insert_all_spec ms vs h head xs Q Hlen Hnd Hnn Hf)
    as (h' & Hrun & Q' & Hv & _).
  exists h'. split; [done|]. split; [done|]. split; [done|].
  rewrite <- length_app.
  apply q_size_spec; [by apply queue_forward | |]; by rewrite length_app.
Qed.

Lemma insert_all_in_order_witness :
  queue (the_queue ["a"]) 1 [2] /\ length [3; 4] = length ["b"; "c"] /\
  NoDup [3; 4] /\ (NULL ∉ [3; 4]) /\
  Forall (fresh (the_queue ["a"])) [3; 4] /\
  (length [2] + length [3; 4] <= 3)%nat /\
  (Z.of_nat (length [2] + length [3; 4]) < 2 ^ 31)%Z /\
  exists h',
    insert_all 1 [3; 4] ["b"; "c"] (the_queue ["a"]) = Some (true, h') /\
    queue h' 1 ([2] ++ [3; 4]) /\
    Forall2 (fun m v => h_value h' !! m = Some v) [3; 4] ["b"; "c"] /\
    q_size 3 1 h' = Some (Z.of_nat (length [2] + length [3; 4]), h').
Proof.
  assert (Q : queue (the_queue ["a"]) 1 [2])
    by (apply queue_b_sound; vm_compute; reflexivity).
  assert (Hl : length [3; 4] = length ["b"; "c"]) by reflexivity.
  assert (Hnd : NoDup [3; 4]).
  { apply (bool_decide_eq_true_1 (NoDup [3; 4])). vm_compute. reflexivity. }
  assert (Hnn : NULL ∉ [3; 4]).
  { apply (bool_decide_eq_true_1 (NULL ∉ [3; 4])).
    vm_compute. reflexivity. }
  assert (Hf : Forall (fresh (the_queue ["a"])) [3; 4]).
  { repeat constructor; vm_compute; reflexivity. }
  assert (Hfuel : (length [2] + length [3; 4] <= 3)%nat) by (simpl; lia).
  assert (Hint : (Z.of_nat (length [2] + length [3; 4]) < 2 ^ 31)%Z)
    by (simpl; lia).
  split; [exact Q|]. split; [exact Hl|]. split; [exact Hnd|].
  split; [exact Hnn|]. split; [exact Hf|]. split; [exact Hfuel|].
  split; [exact Hint|].
  exact (insert_all_in_order _ _ _ _ _ _ Q Hl Hnd Hnn Hf Hfuel Hint).
Defined.

(** ** Swapping *)

(** X8: [q_swap] exchanges the elements of a valid queue two by two from
    the front, an odd last element staying in place; it only relinks the
    nodes of the ring: nothing is allocated or released and no value
    changes.  On a null queue it does nothing. *)
Theorem q_swap_pairs h head xs fuel :
  queue h head xs -> (length xs <= 2 * fuel + 1)%nat ->
  (exists h',
      q_swap fuel head h = Some (tt, h') /\
      queue h' head (swap_pairs xs) /\
      relinked (head :: xs) h h') /\
  q_swap fuel NULL h = Some (tt, h).
Proof.
  intros Q Hfuel. split; [by apply q_swap_spec | done].
Qed.

Lemma q_swap_pairs_witness :
  queue (the_queue ["a"; "b"; "c"]) 1 [2; 3; 4] /\
  (length [2; 3; 4] <= 2 * 1 + 1)%nat /\
  (exists h',
      q_swap 1 1 (the_queue ["a"; "b"; "c"]) = Some (tt, h') /\
      queue h' 1 (swap_pairs [2; 3; 4]) /\
      relinked (1 :: [2; 3; 4]) (the_queue ["a"; "b"; "c"]) h') /\
  q_swap 1 NULL (the_queue ["a"; "b"; "c"])
  = Some (tt, the_queue ["a"; "b"; "c"]).
Proof.
  assert (Q : queue (the_queue ["a"; "b"; "c"]) 1 [2; 3; 4])
    by (apply queue_b_sound; vm_compute; reflexivity).
  assert (Hf : (length [2; 3; 4] <= 2 * 1 + 1)%nat) by (simpl; lia).
  split; [exact Q|]. split; [exact Hf|].
  exact (q_swap_pairs _ _ _ _ Q Hf).
Defined.

(** X9: [q_swap] applied twice to a valid queue gives back the store it
    started from. *)
Theorem q_swap_involution h head xs fuel :
  queue h head xs -> (length xs <= 2 * fuel + 1)%nat ->
  exists h',
    q_swap fuel head h = Some (tt, h') /\
    q_swap fuel head h' = Some (tt, h).
Proof.
  intros Q Hfuel.
  destruct (q_swap_spec h head xs fuel Q Hfuel) as (h1 & Hrun1 & Q1 & R1).
  destruct (q_swap_spec h1 head (swap_pairs xs) fuel Q1
              ltac:(by rewrite swap_pairs_length))
    as (h2 & Hrun2 & Q2 & R2).
  rewrite swap_pairs_involutive in Q2.
  exists h1. split; [done|]. rewrite Hrun2. do 2 f_equal.
  apply (queue_unique h h2 head xs Q Q2).
  apply (relinked_trans _ _ h1); [done|].
  eapply relinked_mono; [|exact R2].
  intros k Hk. apply elem_of_cons in Hk as [->|Hk]; [left|right].
  by apply swap_pairs_elem_of.
Qed.

Lemma q_swap_involution_witness :
  queue (the_queue ["a"; "b"; "c"]) 1 [2; 3; 4] /\
  (length [2; 3; 4] <= 2 * 1 + 1)%nat /\
  exists h',
    q_swap 1 1 (the_queue ["a"; "b"; "c"]) = Some (tt, h') /\
    q_swap 1 1 h' = Some (tt, the_queue ["a"; "b"; "c"]).
Proof.
  assert (Q : queue (the_queue ["a"; "b"; "c"]) 1 [2; 3; 4])
    by (apply queue_b_sound; vm_compute; reflexivity).
  assert (Hf : (length [2; 3; 4] <= 2 * 1 + 1)%nat) by (simpl; lia).
  split; [exact Q|]. split; [exact Hf|].
  exact (q_swap_involution _ _ _ _ Q Hf).
Defined.

(** ** Merging and sorting chains *)

(** X10: [mergeTwoLists] on two disjoint NULL-terminated chains, each in
    ascending order of the values, returns the head of one NULL-terminated
    chain that holds the nodes of both in ascending order; it writes
    [next] fields of these nodes and nothing else. *)
Theorem mergeTwoLists_merges h l1 l2 xs1 xs2 fuel :
  chain (h_next h) l1 xs1 -> chain (h_next h) l2 xs2 ->
  (forall x, x ∈ xs1 -> x ∉ xs2) ->
  Forall (fun x => is_Some (h_value h !! x)) (xs1 ++ xs2) ->
  StronglySorted (value_le (h_value h)) xs1 ->
  StronglySorted (value_le (h_value h)) xs2 ->
  (length xs1 + length xs2 <= fuel)%nat ->
  exists r ys h',
    mergeTwoLists fuel l1 l2 h = Some (r, h') /\
    chain (h_next h') r ys /\
    ys ≡ₚ xs1 ++ xs2 /\
    StronglySorted (value_le (h_value h')) ys /\
    next_only (xs1 ++ xs2) h h'.
Proof.
  intros (H1 & Hnd1 & Hnn1) (H2 & Hnd2 & Hnn2) Hdis Hv S1 S2 Hfuel.
  assert (NoDup (xs1 ++ xs2)) as Hnd by (by apply NoDup_app).
  assert (NULL ∉ xs1 ++ xs2) as Hnn by set_solver.
  destruct (mergeTwoLists_spec fuel xs1 xs2 h l1 l2 Hfuel H1 H2 Hnd Hnn Hv)
    as (h' & Hrun & Hc & R).
  pose proof (merge_nodes_perm (h_value h) xs1 xs2) as P.
  exists (List.hd NULL (merge_nodes (h_value h) xs1 xs2)),
    (merge_nodes (h_value h) xs1 xs2), h'.
  split; [done|]. split; [|split; [done|split; [|done]]].
  - split; [done|]. split; by rewrite P.
  - rewrite (no_value _ _ _ R). by apply merge_nodes_sorted.
Qed.

Lemma mergeTwoLists_merges_witness :
  chain (h_next two_chains) 2 [2; 3] /\ chain (h_next two_chains) 4 [4; 5] /\
  (forall x, x ∈ [2; 3] -> x ∉ [4; 5]) /\
  Forall (fun x => is_Some (h_value two_chains !! x)) ([2; 3] ++ [4; 5]) /\
  StronglySorted (value_le (h_value two_chains)) [2; 3] /\
  StronglySorted (value_le (h_value two_chains)) [4; 5] /\
  (length [2; 3] + length [4; 5] <= 4)%nat /\
  exists r ys h',
    mergeTwoLists 4 2 4 two_chains = Some (r, h') /\
    chain (h_next h') r ys /\
    ys ≡ₚ [2; 3] ++ [4; 5] /\
    StronglySorted (value_le (h_value h')) ys /\
    next_only ([2; 3] ++ [4; 5]) two_chains h'.
Proof.
  assert (C1 : chain (h_next two_chains) 2 [2; 3]).
  { split; [|split].
    - apply lseg_b_sound. vm_compute. reflexivity.
    - apply (bool_decide_eq_true_1 (NoDup [2; 3])). vm_compute. reflexivity.
    - apply (bool_decide_eq_true_1 (NULL ∉ [2; 3])).
      vm_compute. reflexivity. }
  assert (C2 : chain (h_next two_chains) 4 [4; 5]).
  { split; [|split].
    - apply lseg_b_sound. vm_compute. reflexivity.
    - apply (bool_decide_eq_true_1 (NoDup [4; 5])). vm_compute. reflexivity.
    - apply (bool_decide_eq_true_1 (NULL ∉ [4; 5])).
      vm_compute. reflexivity. }
  assert (D : forall x, x ∈ [2; 3] -> x ∉ [4; 5]).
  { apply Forall_forall.
    apply (bool_decide_eq_true_1 (Forall (fun x => x ∉ [4; 5]) [2; 3])).
    vm_compute. reflexivity. }
  assert (V : Forall (fun x => is_Some (h_value two_chains !! x))
                     ([2; 3] ++ [4; 5])).
  { repeat constructor; vm_compute; by eexists. }
  assert (S1 : StronglySorted (value_le (h_value two_chains)) [2; 3]).
  { repeat constructor; vm_compute; discriminate. }
  assert (S2 : StronglySorted (value_le (h_value two_chains)) [4; 5]).
  { repeat constructor; vm_compute; discriminate. }
  assert (Hf : (length [2; 3] + length [4; 5] <= 4)%nat) by (simpl; lia).
  split; [exact C1|]. split; [exact C2|]. split; [exact D|].
  split; [exact V|]. split; [exact S1|]. split; [exact S2|].
  split; [exact Hf|].
  exact (mergeTwoLists_merges two_chains 2 4 [2; 3] [4; 5] 4%nat
           C1 C2 D V S1 S2 Hf).
Defined.

(** X11: [mergesort] on a NULL-terminated chain returns the head of a
    NULL-terminated chain of the same nodes in ascending order of their
    values; it writes [next] fields of these nodes and nothing else, so the
    [prev] fields keep what they held. *)
Theorem mergesort_sorts_chain h p xs fuel :
  chain (h_next h) p xs ->
  Forall (fun x => is_Some (h_value h !! x)) xs ->
  (length xs < fuel)%nat ->
  exists r ys h',
    mergesort fuel p h = Some (r, h') /\
    chain (h_next h') r ys /\
    ys ≡ₚ xs /\
    StronglySorted (value_le (h_value h')) ys /\
    next_only xs h h'.
Proof.
  intros (Hc & Hnd & Hnn) Hv Hfuel.
  destruct (mergesort_spec fuel xs h p Hfuel Hc Hnd Hnn Hv)
    as (h' & ys & Hrun & Hc' & [P S _] & R).
  exists (List.hd NULL ys), ys, h'.
  split; [done|]. split; [|split; [done|split; [|done]]].
  - split; [done|]. split; by rewrite P.
  - by rewrite (no_value _ _ _ R).
Qed.

Lemma mergesort_sorts_chain_witness :
  chain (h_next one_chain) 2 [2; 3; 4] /\
  Forall (fun x => is_Some (h_value one_chain !! x)) [2; 3; 4] /\
  (length [2; 3; 4] < 4)%nat /\
  exists r ys h',
    mergesort 4 2 one_chain = Some (r, h') /\
    chain (h_next h') r ys /\
    ys ≡ₚ [2; 3; 4] /\
    StronglySorted (value_le (h_value h')) ys /\
    next_only [2; 3; 4] one_chain h'.
Proof.
  assert (C : chain (h_next one_chain) 2 [2; 3; 4]).
  { split; [|split].
    - apply lseg_b_sound. vm_compute. reflexivity.
    - apply (bool_decide_eq_true_1 (NoDup [2; 3; 4])).
      vm_compute. reflexivity.
    - apply (bool_decide_eq_true_1 (NULL ∉ [2; 3; 4])).
      vm_compute. reflexivity. }
  assert (V : Forall (fun x => is_Some (h_value one_chain !! x)) [2; 3; 4]).
  { repeat constructor; vm_compute; by eexists. }
  assert (Hf : (length [2; 3; 4] < 4)%nat) by (simpl; lia).
  split; [exact C|]. split; [exact V|]. split; [exact Hf|].
  exact (mergesort_sorts_chain one_chain 2 [2; 3; 4] 4%nat C V Hf).
Defined.

(** ** The queue after a sort *)

(** X12: [q_sort] only relinks the nodes of the ring: outside the ring no
    link field changes, the same nodes stay allocated, and no value and no
    byte of a buffer changes. *)
Theorem q_sort_only_relinks h head xs fuel :
  queue h head xs -> (length xs < fuel)%nat ->
  exists h', q_sort fuel head h = Some (tt, h') /\
             relinked (head :: xs) h h'.
Proof.
  intros Q Hfuel.
  destruct (decide (length xs <= 1)%nat) as [Hshort|Hlong].
  - exists h. split; [apply (q_sort_short h head xs); auto|].
    apply relinked_refl.
  - destruct (q_sort_spec h head xs fuel Q ltac:(lia) Hfuel)
      as (h' & ys & Hrun & SQ).
    exists h'. split; [done|]. by apply (sorted_queue_relinked _ _ _ _ ys).
Qed.

Lemma q_sort_only_relinks_witness :
  queue (the_queue ["b"; "a"; "c"]) 1 [2; 3; 4] /\
  (length [2; 3; 4] < 4)%nat /\
  exists h', q_sort 4 1 (the_queue ["b"; "a"; "c"]) = Some (tt, h') /\
             relinked (1 :: [2; 3; 4]) (the_queue ["b"; "a"; "c"]) h'.
Proof.
  assert (Q : queue (the_queue ["b"; "a"; "c"]) 1 [2; 3; 4])
    by (apply queue_b_sound; vm_compute; reflexivity).
  assert (Hf : (length [2; 3; 4] < 4)%nat) by (simpl; lia).
  split; [exact Q|]. split; [exact Hf|].
  exact (q_sort_only_relinks _ _ _ _ Q Hf).
Defined.

(** X13: on a valid queue whose values are strictly ascending [q_sort]
    gives back the store it was given: every link it writes is written
    with the value it held. *)
Theorem q_sort_fixes_ascending h head xs fuel :
  queue h head xs -> StronglySorted (value_lt (h_value h)) xs ->
  (length xs < fuel)%nat ->
  q_sort fuel head h = Some (tt, h).
Proof.
  intros Q S Hfuel.
  destruct (decide (length xs <= 1)%nat) as [Hshort|Hlong].
  { apply (q_sort_short h head xs); auto. }
  destruct (q_sort_spec h head xs fuel Q ltac:(lia) Hfuel)
    as (h' & ys & Hrun & SQ).
  pose proof (sq_sorted _ _ _ _ _ SQ) as [P S' _].
  assert (ys = xs) as -> by (by apply (strictly_sorted_unique (h_value h))).
  rewrite Hrun. do 2 f_equal.
  apply (sorted_queue_same_order h h' head xs); [done| |done].
  intros ->. simpl in Hlong. lia.
Qed.

Lemma q_sort_fixes_ascending_witness :
  queue (the_queue ["a"; "b"; "c"]) 1 [2; 3; 4] /\
  StronglySorted (value_lt (h_value (the_queue ["a"; "b"; "c"])))
                 [2; 3; 4] /\
  (length [2; 3; 4] < 4)%nat /\
  q_sort 4 1 (the_queue ["a"; "b"; "c"])
  = Some (tt, the_queue ["a"; "b"; "c"]).
Proof.
  assert (Q : queue (the_queue ["a"; "b"; "c"]) 1 [2; 3; 4])
    by (apply queue_b_sound; vm_compute; reflexivity).
  assert (S : StronglySorted (value_lt (h_value (the_queue ["a"; "b"; "c"])))
                             [2; 3; 4]).
  { repeat constructor. }
  assert (Hf : (length [2; 3; 4] < 4)%nat) by (simpl; lia).
  split; [exact Q|]. split; [exact S|]. split; [exact Hf|].
  exact (q_sort_fixes_ascending _ _ _ _ Q S Hf).
Defined.

(** X14: after [q_sort], [q_size] still returns the number of elements of
    the queue: the forward ring is closed, whatever the [prev] field of the
    last node holds. *)
Theorem q_size_after_q_sort h head xs fuel :
  queue h head xs -> (length xs < fuel)%nat ->
  (Z.of_nat (length xs) < 2 ^ 31)%Z ->
  exists h',
    q_sort fuel head h = Some (tt, h') /\
    q_size fuel head h' = Some (Z.of_nat (length xs), h').
Proof.
  intros Q Hfuel Hint.
  destruct (decide (length xs <= 1)%nat) as [Hshort|Hlong].
  - exists h. split; [apply (q_sort_short h head xs); auto|].
    apply q_size_spec; [by apply queue_forward | lia | done].
  - destruct (q_sort_spec h head xs fuel Q ltac:(lia) Hfuel)
      as (h' & ys & Hrun & SQ).
    pose proof (sf_perm _ _ _ (sq_sorted _ _ _ _ _ SQ)) as P.
    exists h'. split; [done|]. rewrite <- P.
    apply q_size_spec; [by apply (sorted_queue_forward h _ _ xs) | |];
      rewrite P; [lia | done].
Qed.

Lemma q_size_after_q_sort_witness :
  queue (the_queue ["b"; "a"; "c"]) 1 [2; 3; 4] /\
  (length [2; 3; 4] < 4)%nat /\
  (Z.of_nat (length [2; 3; 4]) < 2 ^ 31)%Z /\
  exists h',
    q_sort 4 1 (the_queue ["b"; "a"; "c"]) = Some (tt, h') /\
    q_size 4 1 h' = Some (Z.of_nat (length [2; 3; 4]), h').
Proof.
  assert (Q : queue (the_queue ["b"; "a"; "c"]) 1 [2; 3; 4])
    by (apply queue_b_sound; vm_compute; reflexivity).
  assert (Hf : (length [2; 3; 4] < 4)%nat) by (simpl; lia).
  assert (Hl : (Z.of_nat (length [2; 3; 4]) < 2 ^ 31)%Z) by (simpl; lia).
  split; [exact Q|]. split; [exact Hf|]. split; [exact Hl|].
  exact (q_size_after_q_sort _ _ _ _ Q Hf Hl).
Defined.

(** X15: after [q_sort], [q_free] still releases the sentinel and the node
    and the string of every element, and nothing else: it follows [next]
    only, so the [prev] field that the sort leaves behind does no harm. *)
Theorem q_free_after_q_sort h head xs fuel :
  queue h head xs -> (length xs < fuel)%nat ->
  exists h1 h2,
    q_sort fuel head h = Some (tt, h1) /\
    q_free fuel head h1 = Some (tt, h2) /\
    all_released (head :: xs) xs h h2.
Proof.
  intros Q Hfuel.
  destruct (decide (length xs <= 1)%nat) as [Hshort|Hlong].
  - destruct (q_free_spec h head xs fuel Q ltac:(lia)) as (h2 & Hrun & R).
    exists h, h2. split; [apply (q_sort_short h head xs); auto | done].
  - destruct (q_sort_spec h head xs fuel Q ltac:(lia) Hfuel)
      as (h1 & ys & Hrun1 & SQ).
    pose proof (sf_perm _ _ _ (sq_sorted _ _ _ _ _ SQ)) as P.
    pose proof (sorted_queue_relinked _ _ _ _ _ SQ) as R.
    destruct (q_free_forward h1 head ys fuel) as (h2 & Hrun2 & A).
    + by apply (sorted_queue_forward h _ _ xs).
    + rewrite P, (sq_value _ _ _ _ _ SQ). apply Q.
    + rewrite P. lia.
    + exists h1, h2. split; [done|]. split; [done|].
      apply (all_released_relinked h h1 h2 _ (head :: ys) _ ys);
        try apply R; try done; intros k; by rewrite P.
Qed.

Lemma q_free_after_q_sort_witness :
  queue (the_queue ["b"; "a"; "c"]) 1 [2; 3; 4] /\
  (length [2; 3; 4] < 4)%nat /\
  exists h1 h2,
    q_sort 4 1 (the_queue ["b"; "a"; "c"]) = Some (tt, h1) /\
    q_free 4 1 h1 = Some (tt, h2) /\
    all_released (1 :: [2; 3; 4]) [2; 3; 4] (the_queue ["b"; "a"; "c"]) h2.
Proof.
  assert (Q : queue (the_queue ["b"; "a"; "c"]) 1 [2; 3; 4])
    by (apply queue_b_sound; vm_compute; reflexivity).
  assert (Hf : (length [2; 3; 4] < 4)%nat) by (simpl; lia).
  split; [exact Q|]. split; [exact Hf|].
  exact (q_free_after_q_sort _ _ _ _ Q Hf).
Defined.

(** ** Duplicates *)

(** X16: on a valid queue in ascending order [q_delete_dup] leaves a valid
    queue whose elements, taken in order from those it had, are in strictly
    ascending order and hold the strings they held; every value of the
    queue is still the value of an element. *)
Theorem q_delete_dup_sorted h head xs fuel :
  queue h head xs -> StronglySorted (value_le (h_value h)) xs ->
  (length xs <= fuel)%nat ->
  exists h' ys,
    q_delete_dup fuel head h = Some (true, h') /\
    queue h' head ys /\
    sublist ys xs /\
    StronglySorted (value_lt (h_value h)) ys /\
    (forall k, k ∈ ys -> h_value h' !! k = h_value h !! k) /\
    (forall x, x ∈ xs ->
       exists y, y ∈ ys /\
                 strcmp (valof (h_value h) x) (valof (h_value h) y) = 0%Z).
Proof.
  intros Q S Hfuel.
  destruct (q_delete_dup_spec h head xs fuel Q Hfuel)
    as (h' & Hrun & Q' & Hv & _).
  exists h', (delete_dup_nodes (h_value h) xs).
  split; [done|]. split; [done|].
  split; [apply delete_dup_nodes_sublist|].
  split; [by apply delete_dup_nodes_strict|].
  split; [done | apply delete_dup_nodes_covers].
Qed.

Lemma q_delete_dup_sorted_witness :
  queue (the_queue ["a"; "a"; "b"]) 1 [2; 3; 4] /\
  StronglySorted (value_le (h_value (the_queue ["a"; "a"; "b"])))
                 [2; 3; 4] /\
  (length [2; 3; 4] <= 3)%nat /\
  exists h' ys,
    q_delete_dup 3 1 (the_queue ["a"; "a"; "b"]) = Some (true, h') /\
    queue h' 1 ys /\
    sublist ys [2; 3; 4] /\
    StronglySorted (value_lt (h_value (the_queue ["a"; "a"; "b"]))) ys /\
    (forall k, k ∈ ys ->
       h_value h' !! k = h_value (the_queue ["a"; "a"; "b"]) !! k) /\
    (forall x, x ∈ [2; 3; 4] ->
       exists y, y ∈ ys /\
         strcmp (valof (h_value (the_queue ["a"; "a"; "b"])) x)
                (valof (h_value (the_queue ["a"; "a"; "b"])) y) = 0%Z).
Proof.
  assert (Q : queue (the_queue ["a"; "a"; "b"]) 1 [2; 3; 4])
    by (apply queue_b_sound; vm_compute; reflexivity).
  assert (S : StronglySorted (value_le (h_value (the_queue ["a"; "a"; "b"])))
                             [2; 3; 4]).
  { repeat constructor; vm_compute; discriminate. }
  assert (Hf : (length [2; 3; 4] <= 3)%nat) by (simpl; lia).
  split; [exact Q|]. split; [exact S|]. split; [exact Hf|].
  exact (q_delete_dup_sorted _ _ _ _ Q S Hf).
Defined.

(** X17: on a valid queue in which no element has the value of the element
    that follows it, [q_delete_dup] returns true and leaves the store as it
    was. *)
Theorem q_delete_dup_nothing_to_drop h head xs fuel :
  queue h head xs -> distinct_neighbours (h_value h) xs ->
  (length xs <= fuel)%nat ->
  q_delete_dup fuel head h = Some (true, h).
Proof. apply q_delete_dup_fixed. Qed.

Lemma q_delete_dup_nothing_to_drop_witness :
  queue (the_queue ["a"; "b"; "a"]) 1 [2; 3; 4] /\
  distinct_neighbours (h_value (the_queue ["a"; "b"; "a"])) [2; 3; 4] /\
  (length [2; 3; 4] <= 3)%nat /\
  q_delete_dup 3 1 (the_queue ["a"; "b"; "a"])
  = Some (true, the_queue ["a"; "b"; "a"]).
Proof.
  assert (Q : queue (the_queue ["a"; "b"; "a"]) 1 [2; 3; 4])
    by (apply queue_b_sound; vm_compute; reflexivity).
  assert (D : distinct_neighbours (h_value (the_queue ["a"; "b"; "a"]))
                                  [2; 3; 4]).
  { repeat split; vm_compute; discriminate. }
  assert (Hf : (length [2; 3; 4] <= 3)%nat) by (simpl; lia).
  split; [exact Q|]. split; [exact D|]. split; [exact Hf|].
  exact (q_delete_dup_nothing_to_drop _ _ _ _ Q D Hf).
Defined.

(** X18: [q_delete_dup] is idempotent on a valid queue: applied to its own
    result it leaves the store as it is. *)
Theorem q_delete_dup_idempotent h head xs fuel :
  queue h head xs -> (length xs <= fuel)%nat ->
  exists h',
    q_delete_dup fuel head h = Some (true, h') /\
    q_delete_dup fuel head h' = Some (true, h').
Proof.
  intros Q Hfuel.
  destruct (q_delete_dup_spec h head xs fuel Q Hfuel)
    as (h' & Hrun & Q' & Hv & _).
  exists h'. split; [done|].
  apply (q_delete_dup_fixed h' head (delete_dup_nodes (h_value h) xs));
    [done | |].
  - apply (distinct_neighbours_ext (h_value h)); [done|].
    apply delete_dup_nodes_distinct.
  - pose proof (sublist_length _ _ (delete_dup_nodes_sublist (h_value h) xs)).
    lia.
Qed.

Lemma q_delete_dup_idempotent_witness :
  queue (the_queue ["a"; "a"; "b"]) 1 [2; 3; 4] /\
  (length [2; 3; 4] <= 3)%nat /\
  exists h',
    q_delete_dup 3 1 (the_queue ["a"; "a"; "b"]) = Some (true, h') /\
    q_delete_dup 3 1 h' = Some (true, h').
Proof.
  assert (Q : queue (the_queue ["a"; "a"; "b"]) 1 [2; 3; 4])
    by (apply queue_b_sound; vm_compute; reflexivity).
  assert (Hf : (length [2; 3; 4] <= 3)%nat) by (simpl; lia).
  split; [exact Q|]. split; [exact Hf|].
  exact (q_delete_dup_idempotent _ _ _ _ Q Hf).
Defined.

(** X19: [q_delete_dup] applied to what [q_sort] leaves of a valid queue
    returns true and leaves a ring, closed along [next], of elements of the
    queue in strictly ascending order, each holding the string it held,
    with one element for every value the queue had: the walk does not read
    the [prev] field that the sort leaves unwritten. *)
Theorem q_delete_dup_after_q_sort h head xs fuel :
  queue h head xs -> (length xs < fuel)%nat ->
  exists h1 h2 ys,
    q_sort fuel head h = Some (tt, h1) /\
    q_delete_dup fuel head h1 = Some (true, h2) /\
    forward h2 head ys /\
    StronglySorted (value_lt (h_value h)) ys /\
    (forall k, k ∈ ys -> k ∈ xs /\ h_value h2 !! k = h_value h !! k) /\
    (forall x, x ∈ xs ->
       exists y, y ∈ ys /\
                 strcmp (valof (h_value h) x) (valof (h_value h) y) = 0%Z).
Proof.
  intros Q Hfuel.
  assert (exists h1 hr ys,
             q_sort fuel head h = Some (tt, h1) /\ queue hr head ys /\
             prev_off (List.last ys head) h1 hr /\ ys ≡ₚ xs /\
             StronglySorted (value_le (h_value h)) ys /\
             h_value hr = h_value h)
    as (h1 & hr & ys & Hrun1 & Qr & P & Hperm & S & Hval).
  { destruct (decide (length xs <= 1)%nat) as [Hshort|Hlong].
    - exists h, h, xs. split; [apply (q_sort_short h head xs); auto|].
      split; [done|]. split; [|split; [done|split; [|done]]].
      + apply prev_off_refl, (queue_prev_is_Some h head xs); [done|].
        apply last_elem_of.
      + apply (sorted_from_short (h_value h) xs Hshort).
    - destruct (q_sort_spec h head xs fuel Q ltac:(lia) Hfuel)
        as (h1 & ys & Hrun & SQ).
      destruct (sorted_queue_repair h h1 head xs ys Q) as (hr & Qr & P);
        [intros ->; simpl in Hlong; lia | done |].
      exists h1, hr, ys. split; [done|]. split; [done|]. split; [done|].
      split; [apply SQ|]. split; [apply SQ|].
      by rewrite <- (po_value _ _ _ P), (sq_value _ _ _ _ _ SQ). }
  assert (length ys <= fuel)%nat as Hfuel' by (rewrite Hperm; lia).
  destruct (q_delete_dup_prev_off h1 hr head ys fuel Qr P Hfuel')
    as (h2 & hr2 & Hrun2 & Hrun2' & P2).
  destruct (q_delete_dup_spec hr head ys fuel Qr Hfuel')
    as (hr2' & Hrun2'' & Q2 & Hv & _).
  assert (hr2' = hr2) as -> by congruence.
  rewrite Hval in *.
  exists h1, h2, (delete_dup_nodes (h_value h) ys).
  split; [done|]. split; [done|]. split; [|split; [|split]].
  - split; [apply Q2 | by eapply queue_head_nonnull|].
    rewrite (po_next _ _ _ P2). apply Q2.
  - by apply delete_dup_nodes_strict.
  - intros k Hk. split.
    + rewrite <- Hperm. by apply (delete_dup_nodes_sub (h_value h)).
    + by rewrite (po_value _ _ _ P2), (Hv k Hk).
  - intros x Hx. apply delete_dup_nodes_covers. by rewrite Hperm.
Qed.

Lemma q_delete_dup_after_q_sort_witness :
  queue (the_queue ["b"; "a"; "b"]) 1 [2; 3; 4] /\
  (length [2; 3; 4] < 4)%nat /\
  exists h1 h2 ys,
    q_sort 4 1 (the_queue ["b"; "a"; "b"]) = Some (tt, h1) /\
    q_delete_dup 4 1 h1 = Some (true, h2) /\
    forward h2 1 ys /\
    StronglySorted (value_lt (h_value (the_queue ["b"; "a"; "b"]))) ys /\
    (forall k, k ∈ ys ->
       k ∈ [2; 3; 4] /\
       h_value h2 !! k = h_value (the_queue ["b"; "a"; "b"]) !! k) /\
    (forall x, x ∈ [2; 3; 4] ->
       exists y, y ∈ ys /\
         strcmp (valof (h_value (the_queue ["b"; "a"; "b"])) x)
                (valof (h_value (the_queue ["b"; "a"; "b"])) y) = 0%Z).
Proof.
  assert (Q : queue (the_queue ["b"; "a"; "b"]) 1 [2; 3; 4])
    by (apply queue_b_sound; vm_compute; reflexivity).
  assert (Hf : (length [2; 3; 4] < 4)%nat) by (simpl; lia).
  split; [exact Q|]. split; [exact Hf|].
  exact (q_delete_dup_after_q_sort _ _ _ _ Q Hf).
Defined.
